(** * bleve/search/query: decoding and expansion of query trees

    A shallow embedding of [query.go] of the package [query]:
    - [ParsePreSearchData] and [ParseQuery], the two decoders of untagged
      JSON objects;
    - [expandQuery], the in-place rewrite that replaces query string nodes
      by the trees they parse to;
    - [DumpQuery], which expands a query and marshals the result.

    JSON documents are modelled after the scanner has run: the input of a
    decoder is a [json] tree that keeps the members of an object in the
    order of the text, duplicates included.  Go errors are modelled by
    their message. *)

From stdpp Require Import gmap strings list fin_maps.

#[local] Set Warnings "-register-all,-clear-no-such-hyp".

Local Open Scope string_scope.
Local Open Scope list_scope.

(** ** Results: the Go pair [(value, error)] *)

Inductive result (A : Type) : Type :=
| Ok (a : A)
| Err (e : string).
Arguments Ok {A} a.
Arguments Err {A} e.

Definition rbind {A B} (r : result A) (k : A → result B) : result B :=
  match r with
  | Ok a => k a
  | Err e => Err e
  end.

Definition rmap {A B} (f : A → B) (r : result A) : result B :=
  rbind r (λ a, Ok (f a)).

Definition is_ok {A} (r : result A) : bool :=
  match r with Ok _ => true | Err _ => false end.

(** ** JSON documents *)

Inductive json : Type :=
| JNull
| JBool (b : bool)
| JNumber (lit : string)
| JString (s : string)
| JArray (xs : list json)
| JObject (ms : list (string * json)).

(** The name encoding/json gives to the kind of a value in its errors. *)
Definition json_kind (j : json) : string :=
  match j with
  | JNull => "null"
  | JBool _ => "bool"
  | JNumber _ => "number"
  | JString _ => "string"
  | JArray _ => "array"
  | JObject _ => "object"
  end.

(** A Go slice: [None] is the nil slice, [Some l] an allocated one. *)
Definition slice (A : Type) : Type := option (list A).

Definition slice_elems {A} (s : slice A) : list A := default [] s.

(** The concrete query types [ParseQuery] can return. *)
Inductive QueryType : Type :=
| FuzzyQuery | MatchQuery | MatchPhraseQuery | PhraseQuery | MultiPhraseQuery
| TermQuery | BooleanQuery | ConjunctionQuery | DisjunctionQuery
| QueryStringQuery | NumericRangeQuery | TermRangeQuery
| DateRangeStringQuery | PrefixQuery | RegexpQuery | WildcardQuery
| MatchAllQuery | MatchNoneQuery | DocIDQuery | BoolFieldQuery
| GeoBoundingBoxQuery | GeoDistanceQuery | GeoBoundingPolygonQuery
| GeoShapeQuery | IPRangeQuery.

Global Instance QueryType_eq_dec : EqDecision QueryType.
Proof. solve_decision. Defined.

Module Decoder.

(** [json.RawMessage]: a byte slice that keeps a member undecoded; [None]
    is the nil slice, which the decoder never stores. *)
Abbreviation RawMessage := (option json).

Section decoder.

(** What the file imports and does not define: the float type and
    strconv's conversion of a number literal (which fails out of range),
    the contents of the query structs with their [UnmarshalJSON] methods,
    and the pre-search key with the type of its payload. *)
Variable float64 : Type.
Variable ParseFloat : string → option float64.

Variable Value : Type.
Variable UnmarshalJSON_query : QueryType → json → result Value.

Variable KnnPreSearchDataKey : string.
Variable DocumentMatch : Type.
Variable UnmarshalJSON_DocumentMatch : json → result DocumentMatch.

(** *** The generic decoding of encoding/json *)

(** What [interface{}] holds after a generic decode. *)
Inductive any : Type :=
| ANil
| ABool (b : bool)
| AFloat64 (f : float64)
| AString (s : string)
| ASlice (xs : list any)
| AMap (m : gmap string any).

(** The elements of an array decoded in order; the first error is the
    one reported. *)
Definition array_elems (dec : json → result any)
  : list json → result (list any) :=
  fix elems (xs : list json) : result (list any) :=
    match xs with
    | [] => Ok []
    | x :: xs => rbind (dec x) (λ v, rbind (elems xs) (λ vs, Ok (v :: vs)))
    end.

(** The members of an object stored one after the other: a later
    duplicate overwrites an earlier one. *)
Definition object_members (dec : json → result any)
  : list (string * json) → gmap string any → result (gmap string any) :=
  fix members (ms : list (string * json)) (m : gmap string any)
    : result (gmap string any) :=
    match ms with
    | [] => Ok m
    | (k, x) :: ms => rbind (dec x) (λ v, members ms (<[k:=v]> m))
    end.

Fixpoint UnmarshalJSON_any (j : json) : result any :=
  match j with
  | JNull => Ok ANil
  | JBool b => Ok (ABool b)
  | JNumber lit =>
      match ParseFloat lit with
      | Some f => Ok (AFloat64 f)
      | None =>
          Err ("json: cannot unmarshal number " +:+ lit +:+
               " into Go value of type float64")
      end
  | JString s => Ok (AString s)
  | JArray xs => rmap ASlice (array_elems UnmarshalJSON_any xs)
  | JObject ms => rmap AMap (object_members UnmarshalJSON_any ms ∅)
  end.

(** [util.UnmarshalJSON(input, &tmp)] for [tmp map[string]interface{}].
    [null] leaves the nil map, which reads as the empty one. *)
Definition UnmarshalJSON_map (input : json) : result (gmap string any) :=
  match input with
  | JNull => Ok ∅
  | JObject ms => object_members UnmarshalJSON_any ms ∅
  | _ =>
      Err ("json: cannot unmarshal " +:+ json_kind input +:+
           " into Go value of type map[string]interface {}")
  end.

Fixpoint raw_members (ms : list (string * json)) (m : gmap string RawMessage)
  : gmap string RawMessage :=
  match ms with
  | [] => m
  | (k, x) :: ms => raw_members ms (<[k:=Some x]> m)
  end.

(** [util.UnmarshalJSON(input, &tmp)] for [tmp map[string]json.RawMessage]. *)
Definition UnmarshalJSON_rawmap (input : json)
  : result (gmap string RawMessage) :=
  match input with
  | JNull => Ok ∅
  | JObject ms => Ok (raw_members ms ∅)
  | _ =>
      Err ("json: cannot unmarshal " +:+ json_kind input +:+
           " into Go value of type map[string]json.RawMessage")
  end.

(** [util.UnmarshalJSON(v, &value)] for [value []*search.DocumentMatch]:
    [null] sets the nil slice, an array is decoded element by element
    ([null] elements are nil pointers), anything else is a type error. *)
Fixpoint DocumentMatch_elems (xs : list json)
  : result (list (option DocumentMatch)) :=
  match xs with
  | [] => Ok []
  | JNull :: xs => rbind (DocumentMatch_elems xs) (λ ds, Ok (None :: ds))
  | x :: xs =>
      rbind (UnmarshalJSON_DocumentMatch x) (λ d,
      rbind (DocumentMatch_elems xs) (λ ds, Ok (Some d :: ds)))
  end.

Definition UnmarshalJSON_matches (v : json)
  : result (slice (option DocumentMatch)) :=
  match v with
  | JNull => Ok None
  | JArray xs => rmap Some (DocumentMatch_elems xs)
  | _ =>
      Err ("json: cannot unmarshal " +:+ json_kind v +:+
           " into Go value of type []*search.DocumentMatch")
  end.

(** *** ParsePreSearchData *)

(** A Go map value: [None] is the nil map. *)
Definition gomap (V : Type) : Type := option (gmap string V).

Definition gomap_entries {V} (m : gomap V) : gmap string V := default ∅ m.

(** One iteration of [for k, v := range tmp], the error of an earlier
    iteration having ended the loop. *)
Definition presearch_step (k : string) (v : RawMessage)
    (acc : result (gomap (slice (option DocumentMatch))))
  : result (gomap (slice (option DocumentMatch))) :=
  match acc with
  | Err e => Err e
  | Ok rv =>
      if decide (k = KnnPreSearchDataKey) then
        match
          match v with
          | Some raw => UnmarshalJSON_matches raw
          | None => Ok None
          end
        with
        | Err e => Err e
        | Ok value =>
            let rv' := match rv with None => ∅ | Some m => m end in
            Ok (Some (<[KnnPreSearchDataKey:=value]> rv'))
        end
      else Ok rv
  end.

Definition ParsePreSearchData (input : json)
  : result (gomap (slice (option DocumentMatch))) :=
  match UnmarshalJSON_rawmap input with
  | Err e => Err e
  | Ok tmp => map_fold presearch_step (Ok None) tmp
  end.

(** The loop [for k, v := range tmp] itself, run over the entries in the
    order [kvs] in which the runtime yields them, an order the language
    leaves unspecified; [rv] is the variable of that name.  An error
    returns at once. *)
Fixpoint presearch_range (kvs : list (string * RawMessage))
    (rv : gomap (slice (option DocumentMatch)))
  : result (gomap (slice (option DocumentMatch))) :=
  match kvs with
  | [] => Ok rv
  | (k, v) :: kvs =>
      if decide (k = KnnPreSearchDataKey) then
        match
          match v with
          | Some raw => UnmarshalJSON_matches raw
          | None => Ok None
          end
        with
        | Err e => Err e
        | Ok value =>
            let rv' := match rv with None => ∅ | Some m => m end in
            presearch_range kvs (Some (<[KnnPreSearchDataKey:=value]> rv'))
        end
      else presearch_range kvs rv
  end.

(** *** ParseQuery *)

(** A [Query] as [ParseQuery] returns it: the pointer [&rv] to a struct of
    the given type. *)
Record Query : Type := mkQuery { query_type : QueryType; query_value : Value }.

(** [var rv T; err := util.UnmarshalJSON(input, &rv)] followed by
    [return nil, err] or [return &rv, nil]. *)
Definition unmarshal_as (T : QueryType) (input : json) : result Query :=
  match UnmarshalJSON_query T input with
  | Err e => Err e
  | Ok rv => Ok (mkQuery T rv)
  end.

(** [_, ok := tmp[k]] *)
Definition has (tmp : gmap string any) (k : string) : bool :=
  match tmp !! k with Some _ => true | None => false end.

(** [_, ok := tmp[k].(float64)] *)
Definition has_float64 (tmp : gmap string any) (k : string) : bool :=
  match tmp !! k with Some (AFloat64 _) => true | _ => false end.

(** [_, ok := tmp[k].(string)] *)
Definition has_string (tmp : gmap string any) (k : string) : bool :=
  match tmp !! k with Some (AString _) => true | _ => false end.

(** The dynamic type of a decoded value, as a type assertion sees it. *)
Definition is_float64 (v : any) : bool :=
  match v with AFloat64 _ => true | _ => false end.

Definition is_string (v : any) : bool :=
  match v with AString _ => true | _ => false end.

(** The body of [ParseQuery] once [tmp] is decoded. *)
Definition ParseQuery_tmp (tmp : gmap string any) (input : json)
  : result Query :=
  let hasFuzziness := has tmp "fuzziness" in
  let isMatchQuery := has tmp "match" in
  let isMatchPhraseQuery := has tmp "match_phrase" in
  let hasTerms := has tmp "terms" in
  if hasFuzziness && negb isMatchQuery && negb isMatchPhraseQuery
     && negb hasTerms
  then unmarshal_as FuzzyQuery input
  else if isMatchQuery then unmarshal_as MatchQuery input
  else if isMatchPhraseQuery then unmarshal_as MatchPhraseQuery input
  else if hasTerms then
    match UnmarshalJSON_query PhraseQuery input with
    | Err _ =>
        (* now try multi-phrase *)
        match UnmarshalJSON_query MultiPhraseQuery input with
        | Err err => Err err
        | Ok rv2 => Ok (mkQuery MultiPhraseQuery rv2)
        end
    | Ok rv => Ok (mkQuery PhraseQuery rv)
    end
  else
  let isTermQuery := has tmp "term" in
  if isTermQuery then unmarshal_as TermQuery input
  else
  let hasMust := has tmp "must" in
  let hasShould := has tmp "should" in
  let hasMustNot := has tmp "must_not" in
  if hasMust || hasShould || hasMustNot then unmarshal_as BooleanQuery input
  else
  let hasConjuncts := has tmp "conjuncts" in
  if hasConjuncts then unmarshal_as ConjunctionQuery input
  else
  let hasDisjuncts := has tmp "disjuncts" in
  if hasDisjuncts then unmarshal_as DisjunctionQuery input
  else
  let hasSyntaxQuery := has tmp "query" in
  if hasSyntaxQuery then unmarshal_as QueryStringQuery input
  else
  let hasMin := has_float64 tmp "min" in
  let hasMax := has_float64 tmp "max" in
  if hasMin || hasMax then unmarshal_as NumericRangeQuery input
  else
  let hasMinStr := has_string tmp "min" in
  let hasMaxStr := has_string tmp "max" in
  if hasMinStr || hasMaxStr then unmarshal_as TermRangeQuery input
  else
  let hasStart := has tmp "start" in
  let hasEnd := has tmp "end" in
  if hasStart || hasEnd then unmarshal_as DateRangeStringQuery input
  else
  let hasPrefix := has tmp "prefix" in
  if hasPrefix then unmarshal_as PrefixQuery input
  else
  let hasRegexp := has tmp "regexp" in
  if hasRegexp then unmarshal_as RegexpQuery input
  else
  let hasWildcard := has tmp "wildcard" in
  if hasWildcard then unmarshal_as WildcardQuery input
  else
  let hasMatchAll := has tmp "match_all" in
  if hasMatchAll then unmarshal_as MatchAllQuery input
  else
  let hasMatchNone := has tmp "match_none" in
  if hasMatchNone then unmarshal_as MatchNoneQuery input
  else
  let hasDocIds := has tmp "ids" in
  if hasDocIds then unmarshal_as DocIDQuery input
  else
  let hasBool := has tmp "bool" in
  if hasBool then unmarshal_as BoolFieldQuery input
  else
  let hasTopLeft := has tmp "top_left" in
  let hasBottomRight := has tmp "bottom_right" in
  if hasTopLeft && hasBottomRight then unmarshal_as GeoBoundingBoxQuery input
  else
  let hasDistance := has tmp "distance" in
  if hasDistance then unmarshal_as GeoDistanceQuery input
  else
  let hasPoints := has tmp "polygon_points" in
  if hasPoints then unmarshal_as GeoBoundingPolygonQuery input
  else
  let hasGeo := has tmp "geometry" in
  if hasGeo then unmarshal_as GeoShapeQuery input
  else
  let hasCIDR := has tmp "cidr" in
  if hasCIDR then unmarshal_as IPRangeQuery input
  else Err "unknown query type".

Definition ParseQuery (input : json) : result Query :=
  match UnmarshalJSON_map input with
  | Err err => Err err
  | Ok tmp => ParseQuery_tmp tmp input
  end.

(** *** The cascade as the specification lists it

    Steps 1 to 24 of the documented order, each a predicate on the key map
    with the branch it selects; step 25 is the absence of a match. *)

Inductive branch : Type :=
| Strict (T : QueryType)
| PhraseThenMultiPhrase.

Definition spec_cascade : list ((gmap string any → bool) * branch) :=
  [ (λ tmp, has tmp "fuzziness" &&
            negb (has tmp "match" || has tmp "match_phrase" || has tmp "terms"),
     Strict FuzzyQuery);
    (λ tmp, has tmp "match", Strict MatchQuery);
    (λ tmp, has tmp "match_phrase", Strict MatchPhraseQuery);
    (λ tmp, has tmp "terms", PhraseThenMultiPhrase);
    (λ tmp, has tmp "term", Strict TermQuery);
    (λ tmp, has tmp "must" || has tmp "should" || has tmp "must_not",
     Strict BooleanQuery);
    (λ tmp, has tmp "conjuncts", Strict ConjunctionQuery);
    (λ tmp, has tmp "disjuncts", Strict DisjunctionQuery);
    (λ tmp, has tmp "query", Strict QueryStringQuery);
    (λ tmp, has_float64 tmp "min" || has_float64 tmp "max",
     Strict NumericRangeQuery);
    (λ tmp, has_string tmp "min" || has_string tmp "max",
     Strict TermRangeQuery);
    (λ tmp, has tmp "start" || has tmp "end", Strict DateRangeStringQuery);
    (λ tmp, has tmp "prefix", Strict PrefixQuery);
    (λ tmp, has tmp "regexp", Strict RegexpQuery);
    (λ tmp, has tmp "wildcard", Strict WildcardQuery);
    (λ tmp, has tmp "match_all", Strict MatchAllQuery);
    (λ tmp, has tmp "match_none", Strict MatchNoneQuery);
    (λ tmp, has tmp "ids", Strict DocIDQuery);
    (λ tmp, has tmp "bool", Strict BoolFieldQuery);
    (λ tmp, has tmp "top_left" && has tmp "bottom_right",
     Strict GeoBoundingBoxQuery);
    (λ tmp, has tmp "distance", Strict GeoDistanceQuery);
    (λ tmp, has tmp "polygon_points", Strict GeoBoundingPolygonQuery);
    (λ tmp, has tmp "geometry", Strict GeoShapeQuery);
    (λ tmp, has tmp "cidr", Strict IPRangeQuery) ].

(** Step 4: strict decode as Phrase, and on its failure only, strict
    decode as multi-term Phrase, whose error is the one surfaced. *)
Definition spec_phrase_fallback (input : json) : result Query :=
  match unmarshal_as PhraseQuery input with
  | Ok q => Ok q
  | Err _ => unmarshal_as MultiPhraseQuery input
  end.

Definition spec_run (b : branch) (input : json) : result Query :=
  match b with
  | Strict T => unmarshal_as T input
  | PhraseThenMultiPhrase => spec_phrase_fallback input
  end.

(** The first step of the cascade whose predicate holds. *)
Definition spec_select (tmp : gmap string any) : option branch :=
  snd <$> find (λ pb, pb.1 tmp) spec_cascade.

Definition spec_ParseQuery (tmp : gmap string any) (input : json)
  : result Query :=
  match spec_select tmp with
  | Some b => spec_run b input
  | None => Err "unknown query type"
  end.

(** The steps other than the two range steps 10 and 11. *)
Definition spec_other_steps : list ((gmap string any → bool) * branch) :=
  take 9 spec_cascade ++ drop 11 spec_cascade.

(** *** What [ParseQuery] reads of the key map *)

(** The keys [ParseQuery] looks up with [_, ok := tmp[k]], in the order of
    the lookups, and the two it looks up with a type assertion. *)
Definition presence_keys : list string :=
  [ "fuzziness"; "match"; "match_phrase"; "terms"; "term"; "must"; "should";
    "must_not"; "conjuncts"; "disjuncts"; "query"; "start"; "end"; "prefix";
    "regexp"; "wildcard"; "match_all"; "match_none"; "ids"; "bool";
    "top_left"; "bottom_right"; "distance"; "polygon_points"; "geometry";
    "cidr" ].

Definition typed_keys : list string := [ "min"; "max" ].

(** The test of the [if] in whose body the input is decoded as a [T]. *)
Definition trigger (T : QueryType) (tmp : gmap string any) : bool :=
  match T with
  | FuzzyQuery =>
      has tmp "fuzziness" && negb (has tmp "match") &&
      negb (has tmp "match_phrase") && negb (has tmp "terms")
  | MatchQuery => has tmp "match"
  | MatchPhraseQuery => has tmp "match_phrase"
  | PhraseQuery | MultiPhraseQuery => has tmp "terms"
  | TermQuery => has tmp "term"
  | BooleanQuery => has tmp "must" || has tmp "should" || has tmp "must_not"
  | ConjunctionQuery => has tmp "conjuncts"
  | DisjunctionQuery => has tmp "disjuncts"
  | QueryStringQuery => has tmp "query"
  | NumericRangeQuery => has_float64 tmp "min" || has_float64 tmp "max"
  | TermRangeQuery => has_string tmp "min" || has_string tmp "max"
  | DateRangeStringQuery => has tmp "start" || has tmp "end"
  | PrefixQuery => has tmp "prefix"
  | RegexpQuery => has tmp "regexp"
  | WildcardQuery => has tmp "wildcard"
  | MatchAllQuery => has tmp "match_all"
  | MatchNoneQuery => has tmp "match_none"
  | DocIDQuery => has tmp "ids"
  | BoolFieldQuery => has tmp "bool"
  | GeoBoundingBoxQuery => has tmp "top_left" && has tmp "bottom_right"
  | GeoDistanceQuery => has tmp "distance"
  | GeoBoundingPolygonQuery => has tmp "polygon_points"
  | GeoShapeQuery => has tmp "geometry"
  | IPRangeQuery => has tmp "cidr"
  end.

End decoder.

Arguments ANil {float64}.
Arguments ABool {float64} b.
Arguments AFloat64 {float64} f.
Arguments AString {float64} s.
Arguments ASlice {float64} xs.
Arguments AMap {float64} m.
Arguments is_float64 {float64} v.
Arguments is_string {float64} v.
Arguments has {float64} tmp k.
Arguments has_float64 {float64} tmp k.
Arguments has_string {float64} tmp k.
Arguments mkQuery {Value} query_type query_value.
Arguments query_type {Value} q.
Arguments query_value {Value} q.
Arguments trigger {float64} T tmp.

(** *** An instance for examples *)

(** Modelled from the spec: the structs [NumericRangeQuery],
    [TermRangeQuery], [PhraseQuery] and [MultiPhraseQuery] with their
    decoders are not in the file.  The spec names the fields Min and Max of
    the two ranges, a list of terms for a phrase and a list of alternatives
    per position for a multi-term phrase; the other query types are kept as
    the document they were decoded from.  Floats are the integers written
    without fraction or exponent. *)

Inductive demo_value : Type :=
| VNumericRange (Min Max : option Z)
| VTermRange (Min Max : string)
| VPhrase (Terms : list string)
| VMultiPhrase (Terms : list (list string))
| VOther (raw : json).

Definition demo_digit (c : Ascii.ascii) : option Z :=
  let n := Z.of_nat (Ascii.nat_of_ascii c) in
  if bool_decide (48 ≤ n ≤ 57)%Z then Some (n - 48)%Z else None.

Fixpoint demo_digits (s : string) (acc : Z) : option Z :=
  match s with
  | EmptyString => Some acc
  | String c s =>
      match demo_digit c with
      | Some d => demo_digits s (10 * acc + d)%Z
      | None => None
      end
  end.

Definition demo_ParseFloat (lit : string) : option Z :=
  match lit with
  | EmptyString => None
  | String c ds =>
      if bool_decide (Ascii.nat_of_ascii c = 45) then
        match ds with
        | EmptyString => None
        | _ => Z.opp <$> demo_digits ds 0%Z
        end
      else demo_digits lit 0%Z
  end.

(** The member of an object a struct field is read from: the last one of
    that name. *)
Definition demo_member (k : string) (input : json) : option json :=
  match input with
  | JObject ms => snd <$> find (λ m, bool_decide (m.1 = k)) (reverse ms)
  | _ => None
  end.

Definition demo_number (field : string) (v : option json)
  : result (option Z) :=
  match v with
  | None | Some JNull => Ok None
  | Some (JNumber lit) =>
      match demo_ParseFloat lit with
      | Some f => Ok (Some f)
      | None => Err ("json: cannot unmarshal number " +:+ lit +:+
                     " into Go struct field " +:+ field +:+ " of type float64")
      end
  | Some j => Err ("json: cannot unmarshal " +:+ json_kind j +:+
                   " into Go struct field " +:+ field +:+ " of type float64")
  end.

Definition demo_string (field : string) (v : option json) : result string :=
  match v with
  | None | Some JNull => Ok ""
  | Some (JString s) => Ok s
  | Some j => Err ("json: cannot unmarshal " +:+ json_kind j +:+
                   " into Go struct field " +:+ field +:+ " of type string")
  end.

Fixpoint demo_strings (field : string) (xs : list json)
  : result (list string) :=
  match xs with
  | [] => Ok []
  | x :: xs =>
      rbind (demo_string field (Some x)) (λ s,
      rbind (demo_strings field xs) (λ ss, Ok (s :: ss)))
  end.

Definition demo_string_list (field : string) (v : option json)
  : result (list string) :=
  match v with
  | None | Some JNull => Ok []
  | Some (JArray xs) => demo_strings field xs
  | Some j => Err ("json: cannot unmarshal " +:+ json_kind j +:+
                   " into Go struct field " +:+ field +:+ " of type []string")
  end.

Fixpoint demo_string_lists (field : string) (xs : list json)
  : result (list (list string)) :=
  match xs with
  | [] => Ok []
  | x :: xs =>
      rbind (demo_string_list field (Some x)) (λ s,
      rbind (demo_string_lists field xs) (λ ss, Ok (s :: ss)))
  end.

(** Modelled from the spec: the strict decode of the input into a struct
    of the type [T]; a field is read from the member of its name and a
    member of another type is an error. *)
Definition demo_UnmarshalJSON_query (T : QueryType) (input : json)
  : result demo_value :=
  match input with
  | JObject _ =>
      match T with
      | NumericRangeQuery =>
          rbind (demo_number "NumericRangeQuery.min" (demo_member "min" input))
            (λ lo,
          rbind (demo_number "NumericRangeQuery.max" (demo_member "max" input))
            (λ hi, Ok (VNumericRange lo hi)))
      | TermRangeQuery =>
          rbind (demo_string "TermRangeQuery.min" (demo_member "min" input))
            (λ lo,
          rbind (demo_string "TermRangeQuery.max" (demo_member "max" input))
            (λ hi, Ok (VTermRange lo hi)))
      | PhraseQuery =>
          rmap VPhrase
            (demo_string_list "PhraseQuery.terms" (demo_member "terms" input))
      | MultiPhraseQuery =>
          match demo_member "terms" input with
          | None | Some JNull => Ok (VMultiPhrase [])
          | Some (JArray xs) =>
              rmap VMultiPhrase (demo_string_lists "MultiPhraseQuery.terms" xs)
          | Some j =>
              Err ("json: cannot unmarshal " +:+ json_kind j +:+
                   " into Go struct field MultiPhraseQuery.terms of type " +:+
                   "[][]string")
          end
      | _ => Ok (VOther input)
      end
  | _ => Err ("json: cannot unmarshal " +:+ json_kind input +:+
              " into Go value of a query struct")
  end.

(** Modelled from the spec: the reserved key, a constant of the package
    [search], and the match candidates, records of a document id and a
    score. *)
Definition demo_KnnPreSearchDataKey : string := "_knn_pre_search_data_key".

Record demo_DocumentMatch : Type :=
  { demo_id : string; demo_score : Z }.

Definition demo_UnmarshalJSON_DocumentMatch (j : json)
  : result demo_DocumentMatch :=
  match j with
  | JObject _ =>
      rbind (demo_string "DocumentMatch.id" (demo_member "id" j)) (λ i,
      rbind (demo_number "DocumentMatch.score" (demo_member "score" j)) (λ s,
      Ok {| demo_id := i; demo_score := default 0%Z s |}))
  | _ => Err ("json: cannot unmarshal " +:+ json_kind j +:+
              " into Go value of type search.DocumentMatch")
  end.

Definition demo_ParseQuery : json → result (Query demo_value) :=
  ParseQuery Z demo_ParseFloat demo_value demo_UnmarshalJSON_query.

Definition demo_ParsePreSearchData
  : json → result (gomap (slice (option demo_DocumentMatch))) :=
  ParsePreSearchData demo_KnnPreSearchDataKey demo_DocumentMatch
    demo_UnmarshalJSON_DocumentMatch.

End Decoder.

(** ** Expansion of query trees *)

Module Expander.

(** Addresses of query structs. *)
Abbreviation loc := positive.

(** A value of the interface type [Query]: nil, or a pointer to a struct. *)
Abbreviation Query := (option loc).

Section expander.

(** What the file uses and does not define: the fields of the composite
    structs other than their children (boost, minimum), which expansion
    never assigns, the structs of the other query types, and the index
    mapping, which expansion receives and ignores. *)
Variable Fields : Type.
Variable Leaf : Type.
Variable IndexMapping : Type.

(** The structs the type switch of [expand] tells apart, with the fields
    it reads and assigns. *)
Inductive node : Type :=
| QueryStringQuery (text : string)
| ConjunctionQuery (Conjuncts : slice Query) (rest : Fields)
| DisjunctionQuery (Disjuncts : slice Query) (rest : Fields)
| BooleanQuery (Must Should MustNot : Query) (rest : Fields)
| OtherQuery (q : Leaf).

(** The store: the structs that pointers designate. *)
Abbreviation heap := (gmap loc node).

(** A query tree as a value, the way a parser describes what it builds. *)
Inductive tree : Type :=
| TNil
| TQueryString (text : string)
| TConjunction (conjuncts : list tree) (rest : Fields)
| TDisjunction (disjuncts : list tree) (rest : Fields)
| TBoolean (must should must_not : tree) (rest : Fields)
| TOther (q : Leaf).

(** Modelled from the spec: [parseQuerySyntax], the grammar parser, is not
    in the file; it is a fallible function from the text to a query node.
    The tree it returns is one it has just built: [alloc] stores it at
    addresses not in use. *)
Variable parseQuerySyntax : string → result tree.

Definition alloc_all (alloc : tree → heap → Query * heap)
  : list tree → heap → list Query * heap :=
  fix all (ts : list tree) (h : heap) : list Query * heap :=
    match ts with
    | [] => ([], h)
    | t :: ts =>
        let '(q, h) := alloc t h in
        let '(qs, h) := all ts h in
        (q :: qs, h)
    end.

Fixpoint alloc (t : tree) (h : heap) : Query * heap :=
  match t with
  | TNil => (None, h)
  | TQueryString text =>
      let l := fresh (dom h) in (Some l, <[l:=QueryStringQuery text]> h)
  | TConjunction ts rest =>
      let '(qs, h) := alloc_all alloc ts h in
      let l := fresh (dom h) in
      (Some l, <[l:=ConjunctionQuery (Some qs) rest]> h)
  | TDisjunction ts rest =>
      let '(qs, h) := alloc_all alloc ts h in
      let l := fresh (dom h) in
      (Some l, <[l:=DisjunctionQuery (Some qs) rest]> h)
  | TBoolean tm ts tn rest =>
      let '(m, h) := alloc tm h in
      let '(s, h) := alloc ts h in
      let '(n, h) := alloc tn h in
      let l := fresh (dom h) in
      (Some l, <[l:=BooleanQuery m s n rest]> h)
  | TOther v =>
      let l := fresh (dom h) in (Some l, <[l:=OtherQuery v]> h)
  end.

(** Field assignments through a pointer: [q.Conjuncts = children] and the
    like.  The other fields keep the value they have in the store. *)
Definition set_Conjuncts (q : loc) (children : slice Query) (h : heap) : heap :=
  alter (λ n, match n with
              | ConjunctionQuery _ rest => ConjunctionQuery children rest
              | _ => n
              end) q h.

Definition set_Disjuncts (q : loc) (children : slice Query) (h : heap) : heap :=
  alter (λ n, match n with
              | DisjunctionQuery _ rest => DisjunctionQuery children rest
              | _ => n
              end) q h.

Definition set_Must (q : loc) (c : Query) (h : heap) : heap :=
  alter (λ n, match n with
              | BooleanQuery _ s mn rest => BooleanQuery c s mn rest
              | _ => n
              end) q h.

Definition set_Should (q : loc) (c : Query) (h : heap) : heap :=
  alter (λ n, match n with
              | BooleanQuery m _ mn rest => BooleanQuery m c mn rest
              | _ => n
              end) q h.

Definition set_MustNot (q : loc) (c : Query) (h : heap) : heap :=
  alter (λ n, match n with
              | BooleanQuery m s _ rest => BooleanQuery m s c rest
              | _ => n
              end) q h.

(** Field reads through a pointer: [q.Conjuncts], [q.Must] and the
    like. *)
Definition get_Conjuncts (q : loc) (h : heap) : list Query :=
  match h !! q with
  | Some (ConjunctionQuery cs _) => slice_elems cs
  | _ => []
  end.

Definition get_Disjuncts (q : loc) (h : heap) : list Query :=
  match h !! q with
  | Some (DisjunctionQuery ds _) => slice_elems ds
  | _ => []
  end.

Definition get_Must (q : loc) (h : heap) : Query :=
  match h !! q with
  | Some (BooleanQuery m _ _ _) => m
  | _ => None
  end.

Definition get_Should (q : loc) (h : heap) : Query :=
  match h !! q with
  | Some (BooleanQuery _ s _ _) => s
  | _ => None
  end.

Definition get_MustNot (q : loc) (h : heap) : Query :=
  match h !! q with
  | Some (BooleanQuery _ _ mn _) => mn
  | _ => None
  end.

(** The value a call leaves in the variable it is assigned to: on an error
    [expand] returns nil. *)
Definition returned (r : result Query) : Query :=
  match r with
  | Ok q => q
  | Err _ => None
  end.

(** A run of [expand]: [None] when the fuel is used up, else what it
    returns and the store it leaves. *)
Abbreviation run A := (option (result A * heap)).

(** The closure [expandSlice]; [expanded] is the slice the loop appends
    to, empty and allocated at the start. *)
Definition expandSlice (expand : Query → heap → run Query)
  : list Query → list Query → heap → run (list Query) :=
  fix loop (queries expanded : list Query) (h : heap) : run (list Query) :=
    match queries with
    | [] => Some (Ok expanded, h)
    | q :: queries =>
        match expand q h with
        | None => None
        | Some (Err err, h) => Some (Err err, h)
        | Some (Ok exp, h) => loop queries (expanded ++ [exp]) h
        end
    end.

(** The closure [expand]; every call uses one unit of fuel.  The type
    switch reads the dynamic type off the struct the pointer designates; the
    nil interface, a struct of another type and a pointer to no struct of
    the store fall to the default case. *)
Fixpoint expand (fuel : nat) (query : Query) (h : heap) : run Query :=
  match fuel with
  | 0 => None
  | S fuel =>
      match query with
      | None => Some (Ok query, h)
      | Some q =>
          match h !! q with
          | Some (QueryStringQuery text) =>
              match parseQuerySyntax text with
              | Err err =>
                  Some (Err ("could not parse '" +:+ text +:+ "': " +:+ err), h)
              | Ok t =>
                  let '(parsed, h) := alloc t h in
                  expand fuel parsed h
              end
          | Some (ConjunctionQuery conjuncts _) =>
              match
                expandSlice (expand fuel) (slice_elems conjuncts) [] h
              with
              | None => None
              | Some (Err err, h) => Some (Err err, h)
              | Some (Ok children, h) =>
                  Some (Ok query, set_Conjuncts q (Some children) h)
              end
          | Some (DisjunctionQuery disjuncts _) =>
              match
                expandSlice (expand fuel) (slice_elems disjuncts) [] h
              with
              | None => None
              | Some (Err err, h) => Some (Err err, h)
              | Some (Ok children, h) =>
                  Some (Ok query, set_Disjuncts q (Some children) h)
              end
          | Some (BooleanQuery must _ _ _) =>
              match expand fuel must h with
              | None => None
              | Some (r, h) =>
                  let h := set_Must q (returned r) h in
                  match r with
                  | Err err => Some (Err err, h)
                  | Ok _ =>
                      match expand fuel (get_Should q h) h with
                      | None => None
                      | Some (r, h) =>
                          let h := set_Should q (returned r) h in
                          match r with
                          | Err err => Some (Err err, h)
                          | Ok _ =>
                              match expand fuel (get_MustNot q h) h with
                              | None => None
                              | Some (r, h) =>
                                  let h := set_MustNot q (returned r) h in
                                  match r with
                                  | Err err => Some (Err err, h)
                                  | Ok _ => Some (Ok query, h)
                                  end
                              end
                          end
                      end
                  end
              end
          | Some (OtherQuery _) | None => Some (Ok query, h)
          end
      end
  end.

Definition expandQuery (m : IndexMapping) (fuel : nat) (query : Query)
    (h : heap) : run Query :=
  expand fuel query h.

(** *** Trees in the store *)

(** [repr h t q fp]: from [q] the store [h] unfolds to the tree [t], whose
    structs are the addresses [fp], no struct being reached twice.  A nil
    slice of children unfolds like an empty one. *)
Definition repr_all (repr : tree → Query → gset loc → Prop)
  : list tree → list Query → gset loc → Prop :=
  fix all (ts : list tree) (qs : list Query) (fp : gset loc) : Prop :=
    match ts, qs with
    | [], [] => fp = ∅
    | t :: ts, q :: qs =>
        ∃ f1 f2, repr t q f1 ∧ all ts qs f2 ∧ f1 ## f2 ∧ fp = f1 ∪ f2
    | _, _ => False
    end.

Fixpoint repr (h : heap) (t : tree) (q : Query) (fp : gset loc) : Prop :=
  match t with
  | TNil => q = None ∧ fp = ∅
  | TQueryString text =>
      ∃ l, q = Some l ∧ h !! l = Some (QueryStringQuery text) ∧ fp = {[l]}
  | TConjunction ts rest =>
      ∃ l cs f, q = Some l ∧ h !! l = Some (ConjunctionQuery cs rest) ∧
        repr_all (repr h) ts (slice_elems cs) f ∧ (l ∉ f) ∧ fp = {[l]} ∪ f
  | TDisjunction ts rest =>
      ∃ l ds f, q = Some l ∧ h !! l = Some (DisjunctionQuery ds rest) ∧
        repr_all (repr h) ts (slice_elems ds) f ∧ (l ∉ f) ∧ fp = {[l]} ∪ f
  | TBoolean tm ts tn rest =>
      ∃ l m s n f1 f2 f3,
        q = Some l ∧ h !! l = Some (BooleanQuery m s n rest) ∧
        repr h tm m f1 ∧ repr h ts s f2 ∧ repr h tn n f3 ∧
        f1 ## f2 ∧ f1 ## f3 ∧ f2 ## f3 ∧ (l ∉ f1 ∪ f2 ∪ f3) ∧
        fp = {[l]} ∪ (f1 ∪ f2 ∪ f3)
  | TOther v =>
      ∃ l, q = Some l ∧ h !! l = Some (OtherQuery v) ∧ fp = {[l]}
  end.

(** No query string node in the tree. *)
Fixpoint pure (t : tree) : bool :=
  match t with
  | TNil | TOther _ => true
  | TQueryString _ => false
  | TConjunction ts _ | TDisjunction ts _ => forallb pure ts
  | TBoolean tm ts tn _ => pure tm && pure ts && pure tn
  end.

(** The fuel the expansion of a tree without query strings uses. *)
Fixpoint height (t : tree) : nat :=
  match t with
  | TNil | TOther _ | TQueryString _ => 1
  | TConjunction ts _ | TDisjunction ts _ => S (max_list (height <$> ts))
  | TBoolean tm ts tn _ => S (max (height tm) (max (height ts) (height tn)))
  end.

(** What expansion leaves of a struct of a tree without query strings:
    the struct with its slice of children allocated. *)
Definition allocated (n : node) : node :=
  match n with
  | ConjunctionQuery cs rest => ConjunctionQuery (Some (slice_elems cs)) rest
  | DisjunctionQuery ds rest => DisjunctionQuery (Some (slice_elems ds)) rest
  | _ => n
  end.

Definition allocated_on (fp : gset loc) (h : heap) : heap :=
  map_imap (λ l n, Some (if decide (l ∈ fp) then allocated n else n)) h.

(** [h'] has the structs of [h], those outside [fp] unchanged. *)
Definition frame (h : heap) (fp : gset loc) (h' : heap) : Prop :=
  dom h ⊆ dom h' ∧ ∀ l, l ∈ dom h → l ∉ fp → h' !! l = h !! l.

(** The children expanded one after the other, each in the store the one
    before left. *)
Inductive expand_each (fuel : nat)
  : heap → list Query → list Query → heap → Prop :=
| expand_each_nil h : expand_each fuel h [] [] h
| expand_each_cons h q qs e es h1 h2 :
    expand fuel q h = Some (Ok e, h1) →
    expand_each fuel h1 qs es h2 →
    expand_each fuel h (q :: qs) (e :: es) h2.

(** [needle] occurs in [hay]. *)
Definition contains (needle hay : string) : Prop :=
  ∃ before after, hay = before +:+ needle +:+ after.

(** *** Expansion as the specification describes it, on trees

    A query string node is parsed, a failure wrapped into an error that
    names the text and the message of the parser, and the output of the
    parser expanded in turn.  A conjunction or disjunction expands each
    child in order and stops at the first failure.  A boolean expands its
    three slots.  Any other node, and the absent node, is returned as it
    is. *)
Definition spec_expand_all (expand : tree → option (result tree))
  : list tree → option (result (list tree)) :=
  fix all (ts : list tree) : option (result (list tree)) :=
    match ts with
    | [] => Some (Ok [])
    | t :: ts =>
        match expand t with
        | None => None
        | Some (Err e) => Some (Err e)
        | Some (Ok t') =>
            match all ts with
            | None => None
            | Some (Err e) => Some (Err e)
            | Some (Ok ts') => Some (Ok (t' :: ts'))
            end
        end
    end.

Fixpoint spec_expand (fuel : nat) (t : tree) : option (result tree) :=
  match fuel with
  | 0 => None
  | S fuel =>
      match t with
      | TNil | TOther _ => Some (Ok t)
      | TQueryString text =>
          match parseQuerySyntax text with
          | Err err =>
              Some (Err ("could not parse '" +:+ text +:+ "': " +:+ err))
          | Ok t' => spec_expand fuel t'
          end
      | TConjunction ts rest =>
          match spec_expand_all (spec_expand fuel) ts with
          | None => None
          | Some (Err e) => Some (Err e)
          | Some (Ok ts') => Some (Ok (TConjunction ts' rest))
          end
      | TDisjunction ts rest =>
          match spec_expand_all (spec_expand fuel) ts with
          | None => None
          | Some (Err e) => Some (Err e)
          | Some (Ok ts') => Some (Ok (TDisjunction ts' rest))
          end
      | TBoolean tm ts tn rest =>
          match spec_expand fuel tm with
          | None => None
          | Some (Err e) => Some (Err e)
          | Some (Ok tm') =>
              match spec_expand fuel ts with
              | None => None
              | Some (Err e) => Some (Err e)
              | Some (Ok ts') =>
                  match spec_expand fuel tn with
                  | None => None
                  | Some (Err e) => Some (Err e)
                  | Some (Ok tn') => Some (Ok (TBoolean tm' ts' tn' rest))
                  end
              end
          end
      end
  end.

(** The composite variants. *)
Definition composite (t : tree) : bool :=
  match t with
  | TConjunction _ _ | TDisjunction _ _ | TBoolean _ _ _ _ => true
  | _ => false
  end.

(** What [alloc] guarantees: the tree is in the new store, at addresses
    the old store did not use, and the old structs are as they were. *)
Definition alloc_ok (t : tree) : Prop :=
  ∀ h q h', alloc t h = (q, h') →
    ∃ fp, repr h' t q fp ∧ fp ## dom h ∧ dom h' = dom h ∪ fp ∧
          ∀ l, l ∈ dom h → h' !! l = h !! l.

(** The composite children of the root of [t] are, in [h'], in the slot of
    the root they were in in [h]. *)
Definition kept (h : heap) (t : tree) (q : Query) (h' : heap) : Prop :=
  match t, q with
  | TConjunction ts _, Some l =>
      ∀ i tc c, ts !! i = Some tc → composite tc = true →
                get_Conjuncts l h !! i = Some c →
                get_Conjuncts l h' !! i = Some c
  | TDisjunction ts _, Some l =>
      ∀ i tc c, ts !! i = Some tc → composite tc = true →
                get_Disjuncts l h !! i = Some c →
                get_Disjuncts l h' !! i = Some c
  | TBoolean tm ts tn _, Some l =>
      (composite tm = true → get_Must l h' = get_Must l h) ∧
      (composite ts = true → get_Should l h' = get_Should l h) ∧
      (composite tn = true → get_MustNot l h' = get_MustNot l h)
  | _, _ => True
  end.

(** [expand] on a tree in the store does what [spec_expand] does on the
    tree: it uses the same fuel, fails with the same error, and on success
    leaves the expanded tree in the store, made of structs of the input
    tree and of new ones, a composite root being the struct it was and its
    composite children the structs they were; the structs outside the
    input tree are untouched. *)
Definition refines (fuel : nat) (h : heap) (t : tree) (q : Query)
    (fp : gset loc) : Prop :=
  match spec_expand fuel t with
  | None => expand fuel q h = None
  | Some (Err e) => ∃ h', expand fuel q h = Some (Err e, h') ∧ frame h fp h'
  | Some (Ok t') =>
      ∃ q' h' fp',
        expand fuel q h = Some (Ok q', h') ∧ repr h' t' q' fp' ∧
        fp' ⊆ fp ∪ (dom h' ∖ dom h) ∧ frame h fp h' ∧
        (composite t = true → q' = q) ∧ kept h t q h'
  end.

Definition refines_all (fuel : nat) (h : heap) (ts : list tree)
    (qs : list Query) (fp : gset loc) (acc : list Query) : Prop :=
  match spec_expand_all (spec_expand fuel) ts with
  | None => expandSlice (expand fuel) qs acc h = None
  | Some (Err e) =>
      ∃ h', expandSlice (expand fuel) qs acc h = Some (Err e, h') ∧
            frame h fp h'
  | Some (Ok ts') =>
      ∃ es h' fp',
        expandSlice (expand fuel) qs acc h = Some (Ok (acc ++ es), h') ∧
        repr_all (repr h') ts' es fp' ∧
        fp' ⊆ fp ∪ (dom h' ∖ dom h) ∧ frame h fp h' ∧
        ∀ i t q, ts !! i = Some t → composite t = true →
                 qs !! i = Some q → es !! i = Some q
  end.

(** *** What expansion leaves of the store *)

(** The fields of a struct that [expand] never assigns: all but the
    children of a composite. *)
Definition skeleton (n : node) : node :=
  match n with
  | ConjunctionQuery _ rest => ConjunctionQuery None rest
  | DisjunctionQuery _ rest => DisjunctionQuery None rest
  | BooleanQuery _ _ _ rest => BooleanQuery None None None rest
  | QueryStringQuery _ | OtherQuery _ => n
  end.

(** [h'] has every struct of [h], of the type it had and with the fields
    that are not children as they were. *)
Definition keeps (h h' : heap) : Prop :=
  ∀ l x, h !! l = Some x → ∃ x', h' !! l = Some x' ∧ skeleton x' = skeleton x.

(** Every conjunction and disjunction among the structs [fp] has its
    slice of children allocated. *)
Definition settled (h : heap) (fp : gset loc) : Prop :=
  ∀ l x, l ∈ fp → h !! l = Some x → allocated x = x.

End expander.

Arguments QueryStringQuery {Fields Leaf} text.
Arguments ConjunctionQuery {Fields Leaf} Conjuncts rest.
Arguments DisjunctionQuery {Fields Leaf} Disjuncts rest.
Arguments BooleanQuery {Fields Leaf} Must Should MustNot rest.
Arguments OtherQuery {Fields Leaf} q.
Arguments TNil {Fields Leaf}.
Arguments TQueryString {Fields Leaf} text.
Arguments TConjunction {Fields Leaf} conjuncts rest.
Arguments TDisjunction {Fields Leaf} disjuncts rest.
Arguments TBoolean {Fields Leaf} must should must_not rest.
Arguments TOther {Fields Leaf} q.
Arguments alloc {Fields Leaf} t h.
Arguments alloc_all {Fields Leaf} alloc ts h.
Arguments set_Conjuncts {Fields Leaf} q children h.
Arguments set_Disjuncts {Fields Leaf} q children h.
Arguments set_Must {Fields Leaf} q c h.
Arguments set_Should {Fields Leaf} q c h.
Arguments set_MustNot {Fields Leaf} q c h.
Arguments get_Conjuncts {Fields Leaf} q h.
Arguments get_Disjuncts {Fields Leaf} q h.
Arguments get_Must {Fields Leaf} q h.
Arguments get_Should {Fields Leaf} q h.
Arguments get_MustNot {Fields Leaf} q h.
Arguments expandSlice {Fields Leaf} expand queries expanded h.
Arguments expand {Fields Leaf} parseQuerySyntax fuel query h.
Arguments expandQuery {Fields Leaf IndexMapping} parseQuerySyntax m fuel query h.
Arguments repr {Fields Leaf} h t q fp.
Arguments repr_all {Fields Leaf} repr ts qs fp.
Arguments pure {Fields Leaf} t.
Arguments height {Fields Leaf} t.
Arguments composite {Fields Leaf} t.
Arguments allocated {Fields Leaf} n.
Arguments allocated_on {Fields Leaf} fp h.
Arguments frame {Fields Leaf} h fp h'.
Arguments kept {Fields Leaf} h t q h'.
Arguments expand_each {Fields Leaf} parseQuerySyntax fuel _ _ _ _.
Arguments spec_expand {Fields Leaf} parseQuerySyntax fuel t.
Arguments spec_expand_all {Fields Leaf} expand ts.
Arguments alloc_ok {Fields Leaf} t.
Arguments refines {Fields Leaf} parseQuerySyntax fuel h t q fp.
Arguments refines_all {Fields Leaf} parseQuerySyntax fuel h ts qs fp acc.
Arguments skeleton {Fields Leaf} n.
Arguments keeps {Fields Leaf} h h'.
Arguments settled {Fields Leaf} h fp.

(** *** An instance for examples *)

(** Modelled from the spec: the grammar and the structs are not in the
    file.  The other fields of a composite are its boost, a leaf is the
    term it searches; the parser rejects the empty text and reads any
    other text as a single term that should match. *)
Definition demo_parseQuerySyntax (text : string) : result (tree Z string) :=
  if bool_decide (text = "") then Err "syntax error: empty query"
  else Ok (TBoolean TNil (TDisjunction [TOther text] 1%Z) TNil 1%Z).

Definition demo_expand
  : nat → Query → gmap loc (node Z string)
    → option (result Query * gmap loc (node Z string)) :=
  expand demo_parseQuerySyntax.

(** A conjunction of a query string and a term, stored from the empty
    store on: the query string at 1, the term at 2, the conjunction at 3. *)
Definition demo_tree : tree Z string :=
  TConjunction [TQueryString "rocq"; TOther "prover"] 2%Z.

Definition demo_root : Query := (alloc demo_tree ∅).1.
Definition demo_store : gmap loc (node Z string) := (alloc demo_tree ∅).2.

(** A boolean without query string whose should slot is absent. *)
Definition demo_pure_tree : tree Z string :=
  TBoolean (TConjunction [TOther "a"; TOther "b"] 1%Z) TNil
           (TDisjunction [] 1%Z) 3%Z.

Definition demo_pure_root : Query := (alloc demo_pure_tree ∅).1.
Definition demo_pure_store : gmap loc (node Z string) :=
  (alloc demo_pure_tree ∅).2.

(** A conjunction whose second child is a query string the parser
    rejects. *)
Definition demo_bad_tree : tree Z string :=
  TConjunction [TQueryString "rocq"; TQueryString ""; TOther "c"] 1%Z.

Definition demo_bad_root : Query := (alloc demo_bad_tree ∅).1.
Definition demo_bad_store : gmap loc (node Z string) :=
  (alloc demo_bad_tree ∅).2.

(** A boolean whose must slot is a query string the parser rejects: the
    query string at 1, the term at 2, the boolean at 3. *)
Definition demo_lost_tree : tree Z string :=
  TBoolean (TQueryString "") (TOther "kept") TNil 1%Z.

Definition demo_lost_root : Query := (alloc demo_lost_tree ∅).1.
Definition demo_lost_store : gmap loc (node Z string) :=
  (alloc demo_lost_tree ∅).2.

End Expander.


(** ** The debug dump *)

Module Dumper.

Import Expander.

Section dumper.

Variable Fields : Type.
Variable Leaf : Type.
Variable IndexMapping : Type.
Variable parseQuerySyntax : string → result (tree Fields Leaf).

(** What the file uses and does not define: [json.MarshalIndent], which
    walks the structs from the pointer it is given and returns, for a
    prefix and an indent, the text it wrote and the error of a
    [MarshalJSON] method of the structs, if any. *)
Variable MarshalIndent :
  gmap loc (node Fields Leaf) → Query → string → string → string * option string.

(** [DumpQuery]: the text and the error it returns, with the store it
    leaves; [None] when the fuel of the expansion is used up. *)
Definition DumpQuery (m : IndexMapping) (fuel : nat) (query : Query)
    (h : gmap loc (node Fields Leaf))
  : option ((string * option string) * gmap loc (node Fields Leaf)) :=
  match expandQuery parseQuerySyntax m fuel query h with
  | None => None
  | Some (Err err, h) => Some (("", Some err), h)
  | Some (Ok q, h) =>
      let '(data, err) := MarshalIndent h q "" "  " in
      Some ((data, err), h)
  end.

End dumper.

Arguments DumpQuery {Fields Leaf IndexMapping} parseQuerySyntax MarshalIndent
  m fuel query h.

(** *** An instance for examples *)

(** Modelled from the spec: the marshalling of the structs is not in the
    file; the spec asks for a text indented by the depth of nesting.  For
    the examples the text has one line for each struct, which names its
    type and, for a leaf, its term or its text; the children of a
    composite follow it with one more indent, and the walk stops at a
    depth of [fuel]. *)
Definition demo_newline : string := String (Ascii.ascii_of_nat 10) EmptyString.

Fixpoint demo_lines (fuel : nat) (h : gmap loc (node Z string))
    (indent pad : string) (q : Query) : string :=
  match fuel with
  | 0 => pad +:+ "..." +:+ demo_newline
  | S fuel =>
      let sub := demo_lines fuel h indent (pad +:+ indent) in
      match q with
      | None => pad +:+ "null" +:+ demo_newline
      | Some l =>
          match h !! l with
          | None => pad +:+ "null" +:+ demo_newline
          | Some (QueryStringQuery text) =>
              pad +:+ "query " +:+ text +:+ demo_newline
          | Some (OtherQuery term) =>
              pad +:+ "term " +:+ term +:+ demo_newline
          | Some (ConjunctionQuery cs _) =>
              pad +:+ "conjuncts" +:+ demo_newline +:+
              foldr (λ c acc, sub c +:+ acc) "" (slice_elems cs)
          | Some (DisjunctionQuery ds _) =>
              pad +:+ "disjuncts" +:+ demo_newline +:+
              foldr (λ c acc, sub c +:+ acc) "" (slice_elems ds)
          | Some (BooleanQuery m s mn _) =>
              pad +:+ "bool" +:+ demo_newline +:+ sub m +:+ sub s +:+ sub mn
          end
      end
  end.

Definition demo_MarshalIndent (h : gmap loc (node Z string)) (q : Query)
    (prefix indent : string) : string * option string :=
  (demo_lines 16 h indent prefix q, None).

Definition demo_DumpQuery
  : nat → Query → gmap loc (node Z string)
    → option ((string * option string) * gmap loc (node Z string)) :=
  DumpQuery demo_parseQuerySyntax demo_MarshalIndent tt.

End Dumper.

(** * Properties of the decoders *)

Module DecoderFacts.

Import Decoder.

Section facts.

Context (float64 : Type) (ParseFloat : string → option float64).
Context (Value : Type) (UnmarshalJSON_query : QueryType → json → result Value).

Local Abbreviation UnmarshalJSON_any :=
  (UnmarshalJSON_any float64 ParseFloat).
Local Abbreviation UnmarshalJSON_map :=
  (UnmarshalJSON_map float64 ParseFloat).
Local Abbreviation unmarshal_as := (unmarshal_as Value UnmarshalJSON_query).
Local Abbreviation ParseQuery_tmp :=
  (ParseQuery_tmp float64 Value UnmarshalJSON_query).
Local Abbreviation ParseQuery :=
  (ParseQuery float64 ParseFloat Value UnmarshalJSON_query).
Local Abbreviation spec_cascade := (spec_cascade float64).
Local Abbreviation spec_select := (spec_select float64).
Local Abbreviation spec_run := (spec_run Value UnmarshalJSON_query).
Local Abbreviation spec_ParseQuery :=
  (spec_ParseQuery float64 Value UnmarshalJSON_query).

Implicit Types (tmp : gmap string (any float64)) (input : json).

Ltac case_key :=
  match goal with
  | |- context [has ?tmp ?k] => destruct (has tmp k) eqn:?
  | |- context [has_float64 ?tmp ?k] => destruct (has_float64 tmp k) eqn:?
  | |- context [has_string ?tmp ?k] => destruct (has_string tmp k) eqn:?
  end;
  cbn [find fst snd fmap option_fmap option_map andb orb negb];
  try reflexivity.

Lemma ParseQuery_tmp_spec tmp input :
  ParseQuery_tmp tmp input = spec_ParseQuery tmp input.
Proof.
  unfold Decoder.ParseQuery_tmp, Decoder.spec_ParseQuery, Decoder.spec_select,
    Decoder.spec_cascade, Decoder.spec_run, Decoder.spec_phrase_fallback.
  cbn [find fst snd fmap option_fmap option_map].
  repeat case_key.
  all: unfold Decoder.unmarshal_as; by destruct (UnmarshalJSON_query _ _).
Qed.

Lemma find_first {A} (f : A → bool) (l : list A) i x :
  l !! i = Some x → f x = true →
  (∀ j y, (j < i)%nat → l !! j = Some y → f y = false) →
  find f l = Some x.
Proof.
  revert i. induction l as [|a l IH]; intros [|i] Hi Hx Hlt; simplify_eq/=.
  - by rewrite Hx.
  - rewrite (Hlt 0 a) by (done || lia).
    apply (IH i); [done..|]. intros j y ??. apply (Hlt (S j)); [lia|done].
Qed.

Lemma find_some_le {A} (f : A → bool) (l : list A) i x :
  l !! i = Some x → f x = true →
  ∃ k y, (k ≤ i)%nat ∧ l !! k = Some y ∧ f y = true ∧ find f l = Some y.
Proof.
  revert i. induction l as [|a l IH]; intros i Hi Hx; [done|].
  simpl. destruct (f a) eqn:Ha.
  { exists 0, a. split_and!; [lia|done..]. }
  destruct i as [|i]; simplify_eq/=; [congruence|].
  destruct (IH i Hi Hx) as (k & y & ? & ? & ? & ?).
  exists (S k), y. split_and!; [lia|done..].
Qed.

Lemma find_none {A} (f : A → bool) (l : list A) :
  Forall (λ x, f x = false) l → find f l = None.
Proof. induction 1 as [|x l Hx _ IH]; simpl; [done|]. by rewrite Hx. Qed.

Lemma find_app_none {A} (f : A → bool) (l k : list A) :
  Forall (λ x, f x = false) l → find f (l ++ k) = find f k.
Proof. induction 1 as [|x l Hx _ IH]; simpl; [done|]. by rewrite Hx. Qed.

(** Members outside the object keep the value the map had. *)
Lemma object_members_other dec ms m m' k :
  object_members float64 dec ms m = Ok m' → k ∉ ms.*1 → m' !! k = m !! k.
Proof.
  revert m. induction ms as [|[k0 x0] ms IH]; intros m Hm Hk; simplify_eq/=.
  { done. }
  apply not_elem_of_cons in Hk as [Hne Hk].
  destruct (dec x0) as [v0|] eqn:Hx; simplify_eq/=.
  rewrite (IH _ Hm Hk). by rewrite lookup_insert_ne.
Qed.

(** Without duplicate keys every member is decoded and stored. *)
Lemma object_members_member dec ms m m' k x :
  object_members float64 dec ms m = Ok m' → NoDup (ms.*1) → (k, x) ∈ ms →
  ∃ v, dec x = Ok v ∧ m' !! k = Some v.
Proof.
  revert m. induction ms as [|[k0 x0] ms IH]; intros m Hm Hnd Hin.
  { by apply elem_of_nil in Hin. }
  simpl in *. apply NoDup_cons in Hnd as [Hk0 Hnd].
  destruct (dec x0) as [v0|] eqn:Hx; simplify_eq/=.
  apply elem_of_cons in Hin as [?|Hin]; simplify_eq.
  - exists v0. split; [done|].
    rewrite (object_members_other _ _ _ _ _ Hm Hk0). apply lookup_insert_eq.
  - eauto.
Qed.

Lemma object_members_total dec ms m :
  (∀ k x, (k, x) ∈ ms → ∃ v, dec x = Ok v) →
  ∃ m', object_members float64 dec ms m = Ok m'.
Proof.
  revert m. induction ms as [|[k0 x0] ms IH]; intros m Hall; simpl.
  { eauto. }
  destruct (Hall k0 x0) as [v0 ->]; [left|]. simpl.
  apply IH. intros k x ?. apply (Hall k x). by right.
Qed.

(** The key map of an object without duplicate keys does not depend on the
    order of its members. *)
Lemma UnmarshalJSON_map_permutation ms ms' tmp :
  NoDup (ms.*1) → ms ≡ₚ ms' →
  UnmarshalJSON_map (JObject ms) = Ok tmp →
  UnmarshalJSON_map (JObject ms') = Ok tmp.
Proof.
  intros Hnd Hperm Hm. simpl in *.
  assert (Hnd' : NoDup (ms'.*1)) by by rewrite <-Hperm.
  destruct (object_members_total UnmarshalJSON_any ms' ∅) as [tmp' Hm'].
  { intros k x Hin. rewrite <-Hperm in Hin.
    destruct (object_members_member _ _ _ _ _ _ Hm Hnd Hin) as (v & ? & _).
    eauto. }
  rewrite Hm'. f_equal. apply map_eq. intros k.
  destruct (decide (k ∈ ms.*1)) as [Hk|Hk].
  - apply list_elem_of_fmap in Hk as ([k' x] & -> & Hin). simpl.
    destruct (object_members_member _ _ _ _ _ _ Hm Hnd Hin) as (v & Hv & ->).
    rewrite Hperm in Hin.
    destruct (object_members_member _ _ _ _ _ _ Hm' Hnd' Hin) as (v' & Hv' & ->).
    congruence.
  - rewrite (object_members_other _ _ _ _ _ Hm Hk).
    rewrite Hperm in Hk. by rewrite (object_members_other _ _ _ _ _ Hm' Hk).
Qed.

(** C1. Once the input is decoded into the key map, [ParseQuery] is the
    documented cascade: it runs the branch of the first of the 24 steps, in
    the documented order, whose predicate holds, and fails with the unknown
    type error when none does.  So whenever the predicates of two steps
    hold, the earlier step decides; and since the choice is a function of
    the key map alone, an object without duplicate keys selects the same
    branch in whatever order its members are written. *)
Theorem ParseQuery_first_match input tmp :
  UnmarshalJSON_map input = Ok tmp →
  ParseQuery input = spec_ParseQuery tmp input ∧
  (∀ i p b,
     spec_cascade !! i = Some (p, b) → p tmp = true →
     (∀ j p' b', (j < i)%nat → spec_cascade !! j = Some (p', b') →
        p' tmp = false) →
     spec_select tmp = Some b ∧ ParseQuery input = spec_run b input) ∧
  (∀ i j p b p' b',
     (i < j)%nat → spec_cascade !! i = Some (p, b) → p tmp = true →
     spec_cascade !! j = Some (p', b') → p' tmp = true →
     ∃ k p'' b'', (k < j)%nat ∧ spec_cascade !! k = Some (p'', b'') ∧
       p'' tmp = true ∧ ParseQuery input = spec_run b'' input) ∧
  (∀ ms ms',
     input = JObject ms → NoDup (ms.*1) → ms ≡ₚ ms' →
     UnmarshalJSON_map (JObject ms') = Ok tmp ∧
     ParseQuery (JObject ms') = spec_ParseQuery tmp (JObject ms')).
Proof.
  intros Htmp.
  assert (Hspec : ∀ input' , UnmarshalJSON_map input' = Ok tmp →
            ParseQuery input' = spec_ParseQuery tmp input').
  { intros input' H. unfold Decoder.ParseQuery. rewrite H.
    apply ParseQuery_tmp_spec. }
  assert (Hfirst : ∀ i p b,
     spec_cascade !! i = Some (p, b) → p tmp = true →
     (∀ j p' b', (j < i)%nat → spec_cascade !! j = Some (p', b') →
        p' tmp = false) →
     spec_select tmp = Some b ∧ ParseQuery input = spec_run b input).
  { intros i p b Hi Hp Hlt.
    assert (spec_select tmp = Some b) as Hsel.
    { unfold Decoder.spec_select.
      rewrite (find_first (λ pb, pb.1 tmp) _ i (p, b)); [done..|].
      intros j [p' b'] ??. simpl. eauto. }
    split; [done|]. rewrite (Hspec _ Htmp). unfold Decoder.spec_ParseQuery.
    by rewrite Hsel. }
  split_and!; [by apply Hspec|done| |].
  - intros i j p b p' b' Hij Hi Hp _ _.
    cut (∃ k p'' b'', (k ≤ i)%nat ∧ spec_cascade !! k = Some (p'', b'') ∧
           p'' tmp = true ∧ ParseQuery input = spec_run b'' input).
    { intros (k & p2 & b2 & ? & ?). exists k, p2, b2. split; [lia|done]. }
    destruct (find_some_le (λ pb, pb.1 tmp) _ i (p, b) Hi Hp)
      as (k & [p2 b2] & Hk & Hk2 & Hp2 & Hfind).
    exists k, p2, b2. split_and!; [done..|].
    rewrite (Hspec _ Htmp). unfold Decoder.spec_ParseQuery, Decoder.spec_select.
    by rewrite Hfind.
  - intros ms ms' -> Hnd Hperm.
    pose proof (UnmarshalJSON_map_permutation _ _ _ Hnd Hperm Htmp). auto.
Qed.

Lemma ParseQuery_after_steps n input tmp :
  UnmarshalJSON_map input = Ok tmp →
  Forall (λ pb, pb.1 tmp = false) (take n spec_cascade) →
  ParseQuery input =
    match snd <$> find (λ pb, pb.1 tmp) (drop n spec_cascade) with
    | Some b => spec_run b input
    | None => Err "unknown query type"
    end.
Proof.
  intros Htmp Hnone. unfold Decoder.ParseQuery. rewrite Htmp.
  rewrite ParseQuery_tmp_spec.
  unfold Decoder.spec_ParseQuery, Decoder.spec_select.
  rewrite <-(take_drop n spec_cascade) at 1. by rewrite find_app_none.
Qed.

(** C3, as amended.  When [terms] is present and neither [match] nor
    [match_phrase] is, [ParseQuery] first decodes the input strictly as a
    phrase and returns it if that succeeds; if and only if it fails, it
    decodes the input strictly as a multi-term phrase, and returns that
    variant or surfaces the error of that second decode. *)
Theorem ParseQuery_terms_fallback input tmp :
  UnmarshalJSON_map input = Ok tmp →
  has tmp "terms" = true →
  has tmp "match" = false →
  has tmp "match_phrase" = false →
  (∀ rv, UnmarshalJSON_query PhraseQuery input = Ok rv →
         ParseQuery input = Ok (mkQuery PhraseQuery rv)) ∧
  (∀ e, UnmarshalJSON_query PhraseQuery input = Err e →
        ParseQuery input = unmarshal_as MultiPhraseQuery input) ∧
  (∀ e rv2, UnmarshalJSON_query PhraseQuery input = Err e →
            UnmarshalJSON_query MultiPhraseQuery input = Ok rv2 →
            ParseQuery input = Ok (mkQuery MultiPhraseQuery rv2)) ∧
  (∀ e e2, UnmarshalJSON_query PhraseQuery input = Err e →
           UnmarshalJSON_query MultiPhraseQuery input = Err e2 →
           ParseQuery input = Err e2).
Proof.
  intros Htmp Hterms Hmatch Hphrase.
  assert (ParseQuery input =
          match UnmarshalJSON_query PhraseQuery input with
          | Ok rv => Ok (mkQuery PhraseQuery rv)
          | Err _ => unmarshal_as MultiPhraseQuery input
          end) as ->.
  { unfold Decoder.ParseQuery, Decoder.ParseQuery_tmp. rewrite Htmp.
    rewrite Hterms, Hmatch, Hphrase, andb_false_r. simpl.
    unfold Decoder.unmarshal_as.
    by destruct (UnmarshalJSON_query PhraseQuery input). }
  unfold Decoder.unmarshal_as.
  split_and!; intros; repeat match goal with H : _ = _ |- _ => rewrite H end;
    done.
Qed.

(** C5, as amended.  When none of the steps 1 to 9 matches: if [min] or
    [max] holds a number the input is decoded as a numeric range, and if
    neither holds a number and one of them holds a string it is decoded as
    a term range.  The choice follows the dynamic type of the value, not
    the presence of the key: the two documents of the examples have the
    same keys. *)
Theorem ParseQuery_range_dispatch input tmp :
  UnmarshalJSON_map input = Ok tmp →
  Forall (λ pb, pb.1 tmp = false) (take 9 spec_cascade) →
  (has_float64 tmp "min" || has_float64 tmp "max" = true →
   ParseQuery input = unmarshal_as NumericRangeQuery input) ∧
  (has_float64 tmp "min" || has_float64 tmp "max" = false →
   has_string tmp "min" || has_string tmp "max" = true →
   ParseQuery input = unmarshal_as TermRangeQuery input) ∧
  demo_ParseQuery (JObject [("min", JNumber "5"); ("max", JNumber "10")]) =
    Ok (mkQuery NumericRangeQuery (VNumericRange (Some 5%Z) (Some 10%Z))) ∧
  demo_ParseQuery (JObject [("min", JString "a"); ("max", JString "z")]) =
    Ok (mkQuery TermRangeQuery (VTermRange "a" "z")).
Proof.
  intros Htmp Hnone.
  rewrite (ParseQuery_after_steps 9 _ _ Htmp Hnone).
  cbn [drop Decoder.spec_cascade find fst snd].
  split_and!.
  - by intros ->.
  - by intros -> ->.
  - by vm_compute.
  - by vm_compute.
Qed.

(** C9. When the input decodes into a key map on which no step of the
    cascade matches, as the empty object does, [ParseQuery] returns no
    query but the error "unknown query type", a message that is the same
    for every such input and names no query type. *)
Theorem ParseQuery_unknown_variant input tmp :
  UnmarshalJSON_map input = Ok tmp →
  Forall (λ pb, pb.1 tmp = false) spec_cascade →
  ParseQuery input = Err "unknown query type" ∧
  ParseQuery (JObject []) = Err "unknown query type".
Proof.
  intros Htmp Hnone. split; [|done].
  rewrite (ParseQuery_after_steps 24 _ _ Htmp); done.
Qed.

Lemma has_delete_ne tmp k x : x ≠ k → has (delete k tmp) x = has tmp x.
Proof. intros. unfold has. by rewrite lookup_delete_ne. Qed.

Lemma has_float64_delete_ne tmp k x :
  x ≠ k → has_float64 (delete k tmp) x = has_float64 tmp x.
Proof. intros. unfold has_float64. by rewrite lookup_delete_ne. Qed.

Lemma has_string_delete_ne tmp k x :
  x ≠ k → has_string (delete k tmp) x = has_string tmp x.
Proof. intros. unfold has_string. by rewrite lookup_delete_ne. Qed.

(** A value that is neither a number nor a string is to the two type
    assertions what an absent key is. *)
Lemma has_typed_delete tmp k v :
  tmp !! k = Some v → is_float64 v = false → is_string v = false →
  has_float64 tmp k = false ∧ has_string tmp k = false ∧
  has_float64 (delete k tmp) k = false ∧ has_string (delete k tmp) k = false.
Proof.
  intros Hk Hf Hs. unfold has_float64, has_string.
  rewrite Hk, lookup_delete_eq. by destruct v.
Qed.

(** C10, as amended.  When [min] or [max] is present with a value that is
    neither a number nor a string, the two range steps see what they see
    of an absent key, and so does the whole cascade: every step gives on
    the key map what it gives on the map without that key, and
    [ParseQuery] takes the branch it takes without it.  What follows when
    no step other than the two range steps matches depends on the other of
    the two keys.  When it is absent or of such a type too, [ParseQuery]
    fails with the unknown type error and no range struct is decoded.
    When it holds a number, the whole input, the ill-typed key included,
    is decoded strictly as a numeric range; when it holds a string, as a
    term range; and the result of that decode, an error where the struct
    rejects the ill-typed value, is what [ParseQuery] returns. *)
Theorem ParseQuery_range_ignores_other_types input tmp k v :
  UnmarshalJSON_map input = Ok tmp →
  k ∈ ["min"; "max"] →
  tmp !! k = Some v →
  is_float64 v = false →
  is_string v = false →
  has_float64 tmp k = false ∧ has_string tmp k = false ∧
  Forall (λ pb, pb.1 tmp = pb.1 (delete k tmp)) spec_cascade ∧
  ParseQuery input = spec_ParseQuery (delete k tmp) input ∧
  (Forall (λ pb, pb.1 (delete k tmp) = false) spec_cascade →
   ParseQuery input = Err "unknown query type") ∧
  ((∀ k' v', k' ∈ ["min"; "max"] → tmp !! k' = Some v' →
             is_float64 v' = false ∧ is_string v' = false) →
   Forall (λ pb, pb.1 tmp = false) (Decoder.spec_other_steps float64) →
   ParseQuery input = Err "unknown query type") ∧
  (Forall (λ pb, pb.1 tmp = false) (Decoder.spec_other_steps float64) →
   has_float64 tmp "min" || has_float64 tmp "max" = true →
   ParseQuery input = unmarshal_as NumericRangeQuery input) ∧
  (Forall (λ pb, pb.1 tmp = false) (Decoder.spec_other_steps float64) →
   has_float64 tmp "min" || has_float64 tmp "max" = false →
   has_string tmp "min" || has_string tmp "max" = true →
   ParseQuery input = unmarshal_as TermRangeQuery input).
Proof.
  intros Htmp Hk Hv Hf Hs.
  destruct (has_typed_delete _ _ _ Hv Hf Hs) as (Hf1 & Hs1 & Hf2 & Hs2).
  assert (Hsame : Forall (λ pb, pb.1 tmp = pb.1 (delete k tmp)) spec_cascade).
  { apply elem_of_cons in Hk as [->|Hk];
      [|apply list_elem_of_singleton in Hk as ->];
      repeat (constructor;
        [cbn [fst];
         rewrite ?Hf1, ?Hs1, ?Hf2, ?Hs2, ?has_delete_ne,
           ?has_float64_delete_ne, ?has_string_delete_ne by done;
         reflexivity|]);
      constructor. }
  assert (Hsel : spec_select tmp = spec_select (delete k tmp)).
  { unfold Decoder.spec_select. f_equal. clear -Hsame.
    induction Hsame as [|pb l Hpb _ IH]; simpl; [done|].
    by rewrite Hpb, IH. }
  assert (Hparse : ParseQuery input = spec_ParseQuery (delete k tmp) input).
  { unfold Decoder.ParseQuery. rewrite Htmp, ParseQuery_tmp_spec.
    unfold Decoder.spec_ParseQuery. by rewrite Hsel. }
  assert (Hrange : Forall (λ pb, pb.1 tmp = false)
                     (Decoder.spec_other_steps float64) →
            ParseQuery input =
              match snd <$> find (λ pb, pb.1 tmp) (drop 9 spec_cascade) with
              | Some b => spec_run b input
              | None => Err "unknown query type"
              end).
  { intros Hother. unfold Decoder.spec_other_steps in Hother.
    apply Forall_app in Hother as [H1 _].
    exact (ParseQuery_after_steps 9 _ _ Htmp H1). }
  split_and!; [done..| | | |].
  - intros Hnone. rewrite Hparse.
    unfold Decoder.spec_ParseQuery, Decoder.spec_select.
    by rewrite find_none.
  - intros Hval Hother.
    assert (Hbad : ∀ k', k' ∈ ["min"; "max"] →
              has_float64 tmp k' = false ∧ has_string tmp k' = false).
    { intros k' Hin. unfold has_float64, has_string.
      destruct (tmp !! k') as [v'|] eqn:Hv'; [|done].
      destruct (Hval k' v' Hin Hv') as [??]. by destruct v'. }
    destruct (Hbad "min") as [Hmin Hmins]; [by repeat constructor|].
    destruct (Hbad "max") as [Hmax Hmaxs]; [by repeat constructor|].
    rewrite (ParseQuery_after_steps 24 _ _ Htmp); [done|].
    change (take 24 spec_cascade) with spec_cascade.
    unfold Decoder.spec_other_steps in Hother.
    apply Forall_app in Hother as [H1 H2].
    rewrite <-(take_drop 9 spec_cascade). apply Forall_app. split; [done|].
    cbn [drop Decoder.spec_cascade] in *.
    repeat (constructor; [simpl; by rewrite ?Hmin, ?Hmax, ?Hmins, ?Hmaxs|]).
    done.
  - intros Hother Hnum. rewrite (Hrange Hother).
    cbn [drop Decoder.spec_cascade find fst snd]. by rewrite Hnum.
  - intros Hother Hnum Hstr. rewrite (Hrange Hother).
    cbn [drop Decoder.spec_cascade find fst snd]. by rewrite Hnum, Hstr.
Qed.

End facts.

Section presearch.

Context (KnnPreSearchDataKey : string) (DocumentMatch : Type).
Context (UnmarshalJSON_DocumentMatch : json → result DocumentMatch).

Local Abbreviation UnmarshalJSON_matches :=
  (UnmarshalJSON_matches DocumentMatch UnmarshalJSON_DocumentMatch).
Local Abbreviation presearch_step :=
  (presearch_step KnnPreSearchDataKey DocumentMatch
     UnmarshalJSON_DocumentMatch).
Local Abbreviation ParsePreSearchData :=
  (ParsePreSearchData KnnPreSearchDataKey DocumentMatch
     UnmarshalJSON_DocumentMatch).

(** The loop over the keys comes to a lookup of the reserved key: the
    order in which the map is ranged over does not matter. *)
Lemma presearch_loop (tmp : gmap string RawMessage) :
  map_fold presearch_step (Ok None) tmp =
    match tmp !! KnnPreSearchDataKey with
    | None => Ok None
    | Some v =>
        match
          match v with
          | Some raw => UnmarshalJSON_matches raw
          | None => Ok None
          end
        with
        | Err e => Err e
        | Ok value => Ok (Some {[KnnPreSearchDataKey := value]})
        end
    end.
Proof.
  apply (map_fold_weak_ind (λ r m, r =
    match m !! KnnPreSearchDataKey with
    | None => Ok None
    | Some v =>
        match
          match v with
          | Some raw => UnmarshalJSON_matches raw
          | None => Ok None
          end
        with
        | Err e => Err e
        | Ok value => Ok (Some {[KnnPreSearchDataKey := value]})
        end
    end)).
  { by rewrite lookup_empty. }
  intros k v m r Hk ->. unfold Decoder.presearch_step.
  destruct (decide (k = KnnPreSearchDataKey)) as [->|Hne].
  - rewrite Hk, lookup_insert_eq.
    by destruct (match v with Some _ => _ | None => _ end).
  - rewrite lookup_insert_ne by done.
    destruct (m !! KnnPreSearchDataKey) as [v'|]; [|done].
    by destruct (match v' with Some _ => _ | None => _ end).
Qed.

Lemma raw_members_other ms (m : gmap string RawMessage) k :
  k ∉ ms.*1 → raw_members ms m !! k = m !! k.
Proof.
  revert m. induction ms as [|[k0 x0] ms IH]; intros m Hk; simpl; [done|].
  apply not_elem_of_cons in Hk as [Hne Hk].
  rewrite IH by done. by rewrite lookup_insert_ne.
Qed.

(** The member read for a key is the last one of that name. *)
Lemma raw_members_last ms1 ms2 (m : gmap string RawMessage) k x :
  k ∉ ms2.*1 → raw_members (ms1 ++ (k, x) :: ms2) m !! k = Some (Some x).
Proof.
  intros Hk. revert m. induction ms1 as [|[k0 x0] ms1 IH]; intros m; simpl.
  - rewrite raw_members_other by done. apply lookup_insert_eq.
  - apply IH.
Qed.

Lemma raw_members_filter ms (m m' : gmap string RawMessage) k :
  m !! k = m' !! k →
  raw_members (filter (λ kx, kx.1 = k) ms) m' !! k = raw_members ms m !! k.
Proof.
  revert m m'. induction ms as [|[k0 x0] ms IH]; intros m m' Hm; simpl.
  { done. }
  rewrite filter_cons. simpl. case_decide; simplify_eq/=.
  - apply IH. by rewrite !lookup_insert_eq.
  - apply IH. by rewrite lookup_insert_ne.
Qed.

(** C4, as amended.  An object in which the reserved key maps to [null],
    in the last member of that name, decodes to a map that holds the
    reserved key alone, with the nil list of candidates.  An object without
    the reserved key decodes, with no error, to the nil map, which has no
    entry; this is the one value returned for every such input, the empty
    object and [null] included.  The other keys are skipped whatever their
    value: the result is that of the object restricted to the members of
    the reserved key. *)
Theorem ParsePreSearchData_permissive ms :
  (∀ ms1 ms2,
     ms = ms1 ++ (KnnPreSearchDataKey, JNull) :: ms2 →
     KnnPreSearchDataKey ∉ ms2.*1 →
     ParsePreSearchData (JObject ms) =
       Ok (Some {[KnnPreSearchDataKey := None]})) ∧
  (KnnPreSearchDataKey ∉ ms.*1 →
   ParsePreSearchData (JObject ms) = Ok None ∧
   ParsePreSearchData (JObject ms) = ParsePreSearchData (JObject []) ∧
   ParsePreSearchData (JObject ms) = ParsePreSearchData JNull ∧
   gomap_entries (V:=slice (option DocumentMatch)) None = ∅) ∧
  ParsePreSearchData (JObject ms) =
    ParsePreSearchData
      (JObject (filter (λ kx, kx.1 = KnnPreSearchDataKey) ms)).
Proof.
  unfold Decoder.ParsePreSearchData. simpl.
  rewrite !presearch_loop. split_and!.
  - intros ms1 ms2 -> Hlast. by rewrite raw_members_last.
  - intros Hout. by rewrite raw_members_other, !lookup_empty by done.
  - by rewrite (raw_members_filter ms ∅ ∅).
Qed.

End presearch.

(** *** Examples on the instance *)

Local Abbreviation demo_map := (UnmarshalJSON_map Z demo_ParseFloat).
Local Abbreviation demo_as :=
  (unmarshal_as demo_value demo_UnmarshalJSON_query).

Lemma ParseQuery_first_match_witness :
  demo_ParseQuery
    (JObject [("fuzziness", JNumber "1"); ("match", JString "x")]) =
    demo_as MatchQuery
      (JObject [("fuzziness", JNumber "1"); ("match", JString "x")]) ∧
  demo_ParseQuery
    (JObject [("match", JString "x"); ("fuzziness", JNumber "1")]) =
    demo_as MatchQuery
      (JObject [("match", JString "x"); ("fuzziness", JNumber "1")]).
Proof.
  destruct (ParseQuery_first_match Z demo_ParseFloat demo_value
              demo_UnmarshalJSON_query
              (JObject [("fuzziness", JNumber "1"); ("match", JString "x")])
              (<["match":=AString "x"]> (<["fuzziness":=AFloat64 1%Z]> ∅))
              eq_refl) as (_ & Hfirst & _ & Hperm).
  split.
  - refine (proj2 (Hfirst 1 _ _ eq_refl eq_refl _)).
    intros [|j] p' b' Hj Hlook; [|lia].
    injection Hlook as <- <-. reflexivity.
  - assert (NoDup ([("fuzziness", JNumber "1"); ("match", JString "x")].*1))
      as Hnd by (apply (bool_decide_unpack _); vm_compute; exact I).
    destruct (Hperm _ [("match", JString "x"); ("fuzziness", JNumber "1")]
                eq_refl Hnd (Permutation_swap _ _ _)) as [_ Heq].
    etransitivity; [exact Heq|reflexivity].
Defined.

Lemma terms_with_match_is_match :
  demo_map (JObject [("match", JString "x"); ("terms", JArray [JString "a"])])
    = Ok (<["terms":=ASlice [AString "a"]]> (<["match":=AString "x"]> ∅)) ∧
  has (<["terms":=ASlice [AString "a"]]> (<["match":=AString "x"]> ∅) : gmap string (any Z))
    "terms" = true ∧
  demo_UnmarshalJSON_query PhraseQuery
    (JObject [("match", JString "x"); ("terms", JArray [JString "a"])])
    = Ok (VPhrase ["a"]) ∧
  demo_ParseQuery
    (JObject [("match", JString "x"); ("terms", JArray [JString "a"])])
    = Ok (mkQuery MatchQuery
            (VOther (JObject [("match", JString "x");
                              ("terms", JArray [JString "a"])]))) ∧
  demo_ParseQuery
    (JObject [("match", JString "x"); ("terms", JArray [JString "a"])])
    ≠ Ok (mkQuery PhraseQuery (VPhrase ["a"])).
Proof. split_and!; [reflexivity..|]. vm_compute. discriminate. Qed.

Lemma ParseQuery_terms_fallback_witness :
  demo_ParseQuery (JObject [("terms", JArray [JString "a"; JString "b"])])
    = Ok (mkQuery PhraseQuery (VPhrase ["a"; "b"])) ∧
  demo_ParseQuery
    (JObject [("terms", JArray [JArray [JString "a"; JString "b"];
                                JArray [JString "c"]])])
    = Ok (mkQuery MultiPhraseQuery (VMultiPhrase [["a"; "b"]; ["c"]])) ∧
  demo_ParseQuery (JObject [("terms", JNumber "5")])
    = Err ("json: cannot unmarshal number into Go struct field " +:+
           "MultiPhraseQuery.terms of type [][]string").
Proof.
  split_and!.
  - refine (proj1 (ParseQuery_terms_fallback Z demo_ParseFloat demo_value
              demo_UnmarshalJSON_query
              (JObject [("terms", JArray [JString "a"; JString "b"])])
              (<["terms":=ASlice [AString "a"; AString "b"]]> ∅)
              eq_refl eq_refl eq_refl eq_refl) _ eq_refl).
  - refine (proj1 (proj2 (proj2 (ParseQuery_terms_fallback Z demo_ParseFloat
              demo_value demo_UnmarshalJSON_query
              (JObject [("terms", JArray [JArray [JString "a"; JString "b"];
                                          JArray [JString "c"]])])
              (<["terms":=ASlice [ASlice [AString "a"; AString "b"];
                                  ASlice [AString "c"]]]> ∅)
              eq_refl eq_refl eq_refl eq_refl))) _ _ eq_refl eq_refl).
  - refine (proj2 (proj2 (proj2 (ParseQuery_terms_fallback Z demo_ParseFloat
              demo_value demo_UnmarshalJSON_query
              (JObject [("terms", JNumber "5")])
              (<["terms":=AFloat64 5%Z]> ∅)
              eq_refl eq_refl eq_refl eq_refl))) _ _ eq_refl eq_refl).
Defined.

Lemma number_with_match_is_match :
  demo_map (JObject [("match", JString "x"); ("min", JNumber "5")])
    = Ok (<["min":=AFloat64 5%Z]> (<["match":=AString "x"]> ∅)) ∧
  has_float64 (<["min":=AFloat64 5%Z]> (<["match":=AString "x"]> ∅) : gmap string (any Z))
    "min" = true ∧
  demo_ParseQuery (JObject [("match", JString "x"); ("min", JNumber "5")])
    = Ok (mkQuery MatchQuery
            (VOther (JObject [("match", JString "x"); ("min", JNumber "5")]))) ∧
  demo_ParseQuery (JObject [("match", JString "x"); ("min", JNumber "5")])
    ≠ demo_as NumericRangeQuery
        (JObject [("match", JString "x"); ("min", JNumber "5")]).
Proof. split_and!; [reflexivity..|]. vm_compute. discriminate. Qed.

Lemma ParseQuery_range_dispatch_witness :
  demo_ParseQuery (JObject [("min", JNumber "5"); ("max", JString "z")])
    = demo_as NumericRangeQuery
        (JObject [("min", JNumber "5"); ("max", JString "z")]) ∧
  demo_ParseQuery (JObject [("min", JNull); ("max", JString "z")])
    = Ok (mkQuery TermRangeQuery (VTermRange "" "z")).
Proof.
  split.
  - refine (proj1 (ParseQuery_range_dispatch Z demo_ParseFloat demo_value
              demo_UnmarshalJSON_query
              (JObject [("min", JNumber "5"); ("max", JString "z")])
              (<["max":=AString "z"]> (<["min":=AFloat64 5%Z]> ∅))
              eq_refl _) eq_refl).
    repeat constructor.
  - refine (proj1 (proj2 (ParseQuery_range_dispatch Z demo_ParseFloat
              demo_value demo_UnmarshalJSON_query
              (JObject [("min", JNull); ("max", JString "z")])
              (<["max":=AString "z"]> (<["min":=ANil]> ∅))
              eq_refl _)) eq_refl eq_refl).
    repeat constructor.
Defined.

Lemma ParseQuery_unknown_variant_witness :
  demo_ParseQuery (JObject [("field", JString "title"); ("boost", JNumber "2")])
    = Err "unknown query type".
Proof.
  refine (proj1 (ParseQuery_unknown_variant Z demo_ParseFloat demo_value
            demo_UnmarshalJSON_query
            (JObject [("field", JString "title"); ("boost", JNumber "2")])
            (<["boost":=AFloat64 2%Z]> (<["field":=AString "title"]> ∅))
            eq_refl _)).
  repeat constructor.
Defined.

Lemma ill_typed_min_with_number_is_range :
  demo_map (JObject [("min", JBool true); ("max", JNumber "5")])
    = Ok (<["max":=AFloat64 5%Z]> (<["min":=ABool true]> ∅)) ∧
  is_float64 (ABool true : any Z) = false ∧
  is_string (ABool true : any Z) = false ∧
  Forall (λ pb, pb.1 (<["max":=AFloat64 5%Z]> (<["min":=ABool true]> ∅)) = false)
    (spec_other_steps Z) ∧
  demo_ParseQuery (JObject [("min", JBool true); ("max", JNumber "5")])
    = demo_as NumericRangeQuery
        (JObject [("min", JBool true); ("max", JNumber "5")]) ∧
  demo_ParseQuery (JObject [("min", JBool true); ("max", JNumber "5")])
    = Err ("json: cannot unmarshal bool into Go struct field " +:+
           "NumericRangeQuery.min of type float64") ∧
  demo_ParseQuery (JObject [("min", JBool true); ("max", JNumber "5")])
    ≠ Err "unknown query type".
Proof.
  split_and!; try reflexivity.
  - repeat constructor.
  - vm_compute. discriminate.
Qed.

Lemma ParseQuery_range_ignores_other_types_witness :
  demo_ParseQuery (JObject [("min", JNull); ("max", JArray [JNumber "1"])])
    = Err "unknown query type" ∧
  demo_ParseQuery (JObject [("min", JNull); ("max", JNumber "5")])
    = demo_as NumericRangeQuery
        (JObject [("min", JNull); ("max", JNumber "5")]) ∧
  demo_ParseQuery (JObject [("min", JArray []); ("max", JString "z")])
    = demo_as TermRangeQuery
        (JObject [("min", JArray []); ("max", JString "z")]).
Proof.
  split_and!.
  - refine (proj1 (proj2 (proj2 (proj2 (proj2 (proj2
              (ParseQuery_range_ignores_other_types Z
                 demo_ParseFloat demo_value demo_UnmarshalJSON_query
                 (JObject [("min", JNull); ("max", JArray [JNumber "1"])])
                 (<["max":=ASlice [AFloat64 1%Z]]> (<["min":=ANil]> ∅))
                 "min" ANil eq_refl _ eq_refl eq_refl eq_refl)))))) _ _).
    + by left.
    + intros k v Hk Hv.
      apply elem_of_cons in Hk as [->|Hk]; [by injection Hv as <-|].
      apply list_elem_of_singleton in Hk as ->. by injection Hv as <-.
    + repeat constructor.
  - refine (proj1 (proj2 (proj2 (proj2 (proj2 (proj2 (proj2
              (ParseQuery_range_ignores_other_types Z
                 demo_ParseFloat demo_value demo_UnmarshalJSON_query
                 (JObject [("min", JNull); ("max", JNumber "5")])
                 (<["max":=AFloat64 5%Z]> (<["min":=ANil]> ∅))
                 "min" ANil eq_refl _ eq_refl eq_refl eq_refl))))))) _ eq_refl).
    + by left.
    + repeat constructor.
  - refine (proj2 (proj2 (proj2 (proj2 (proj2 (proj2 (proj2
              (ParseQuery_range_ignores_other_types Z
                 demo_ParseFloat demo_value demo_UnmarshalJSON_query
                 (JObject [("min", JArray []); ("max", JString "z")])
                 (<["max":=AString "z"]> (<["min":=ASlice []]> ∅))
                 "min" (ASlice []) eq_refl _ eq_refl eq_refl eq_refl)))))))
              _ eq_refl eq_refl).
    + by left.
    + repeat constructor.
Defined.

Lemma presearch_unrecognized_is_nil :
  demo_ParsePreSearchData (JObject [("unrelated", JNumber "1")]) = Ok None ∧
  demo_ParsePreSearchData (JObject [("unrelated", JNumber "1")])
    ≠ Ok (Some ∅).
Proof. split; [reflexivity|]. vm_compute. discriminate. Qed.

Lemma ParsePreSearchData_permissive_witness :
  demo_ParsePreSearchData
    (JObject [("size", JNumber "10"); (demo_KnnPreSearchDataKey, JNull)])
    = Ok (Some {[demo_KnnPreSearchDataKey := None]}) ∧
  demo_ParsePreSearchData (JObject [("unrelated", JNumber "1")]) = Ok None.
Proof.
  split.
  - refine (proj1 (ParsePreSearchData_permissive demo_KnnPreSearchDataKey
              demo_DocumentMatch demo_UnmarshalJSON_DocumentMatch
              [("size", JNumber "10"); (demo_KnnPreSearchDataKey, JNull)])
              [("size", JNumber "10")] [] eq_refl _).
    intros Hin. by apply elem_of_nil in Hin.
  - refine (proj1 (proj1 (proj2 (ParsePreSearchData_permissive
              demo_KnnPreSearchDataKey demo_DocumentMatch
              demo_UnmarshalJSON_DocumentMatch
              [("unrelated", JNumber "1")])) _)).
    intros Hin. apply list_elem_of_singleton in Hin. discriminate.
Defined.

End DecoderFacts.

(** * Properties of the expansion *)

Module ExpanderFacts.

Import Expander.

Section facts.

Context {Fields Leaf : Type}.
Context (parseQuerySyntax : string → result (tree Fields Leaf)).

Local Abbreviation heap := (gmap loc (node Fields Leaf)).
Local Abbreviation expand := (expand parseQuerySyntax).
Local Abbreviation spec_expand := (spec_expand parseQuerySyntax).
Local Abbreviation expand_each := (expand_each parseQuerySyntax).

Implicit Types (h : heap) (q : Query) (t : tree Fields Leaf).
Implicit Types (fp : gset loc) (l : loc).

Ltac break H :=
  repeat match type of H with
         | ∃ _, _ => let x := fresh in destruct H as [x H]
         | _ ∧ _ => let H' := fresh in destruct H as [H' H]
         end.

(** Induction on trees, with the hypothesis for every child of a list. *)
Lemma tree_ind_nested (P : tree Fields Leaf → Prop) :
  P TNil →
  (∀ text, P (TQueryString text)) →
  (∀ ts rest, Forall P ts → P (TConjunction ts rest)) →
  (∀ ts rest, Forall P ts → P (TDisjunction ts rest)) →
  (∀ tm ts tn rest, P tm → P ts → P tn → P (TBoolean tm ts tn rest)) →
  (∀ v, P (TOther v)) →
  ∀ t, P t.
Proof.
  intros Hnil Hstr Hconj Hdisj Hbool Hother. fix IH 1.
  intros [|text|ts rest|ts rest|tm ts tn rest|v].
  - exact Hnil.
  - apply Hstr.
  - apply Hconj. induction ts as [|t ts IHts]; constructor; [apply IH|exact IHts].
  - apply Hdisj. induction ts as [|t ts IHts]; constructor; [apply IH|exact IHts].
  - apply Hbool; apply IH.
  - apply Hother.
Qed.

(** *** The representation predicate *)

Lemma repr_all_frame h h' ts qs fp :
  Forall (λ t, ∀ q fp, repr h t q fp →
               (∀ l, l ∈ fp → h' !! l = h !! l) → repr h' t q fp) ts →
  repr_all (repr h) ts qs fp →
  (∀ l, l ∈ fp → h' !! l = h !! l) →
  repr_all (repr h') ts qs fp.
Proof.
  intros Hts. revert qs fp.
  induction Hts as [|t ts Ht _ IH]; intros [|q qs] fp Hall Hsame;
    simpl in *; try done.
  destruct Hall as (f1 & f2 & H1 & H2 & Hdisj & ->).
  exists f1, f2. split_and!; [| |done..].
  - apply Ht; [done|]. intros l ?. apply Hsame. set_solver.
  - apply IH; [done|]. intros l ?. apply Hsame. set_solver.
Qed.

(** A tree depends on the structs of its footprint only. *)
Lemma repr_frame h h' t q fp :
  repr h t q fp → (∀ l, l ∈ fp → h' !! l = h !! l) → repr h' t q fp.
Proof.
  revert q fp. induction t as [|text|ts rest IH|ts rest IH|tm ts tn rest IHm IHs IHn|v]
    using tree_ind_nested; intros q fp Hr Hsame; simpl in *.
  - done.
  - destruct Hr as (l & -> & Hl & ->). exists l. split_and!; [done| |done].
    rewrite Hsame; [done|set_solver].
  - destruct Hr as (l & cs & f & -> & Hl & Hall & Hnot & ->).
    exists l, cs, f. split_and!; [done| | |done..].
    + rewrite Hsame; [done|set_solver].
    + eapply repr_all_frame; [done..|]. intros l' ?. apply Hsame. set_solver.
  - destruct Hr as (l & cs & f & -> & Hl & Hall & Hnot & ->).
    exists l, cs, f. split_and!; [done| | |done..].
    + rewrite Hsame; [done|set_solver].
    + eapply repr_all_frame; [done..|]. intros l' ?. apply Hsame. set_solver.
  - destruct Hr as (l & m & s & n & f1 & f2 & f3 & -> & Hl & Hm & Hs & Hn
                    & ? & ? & ? & ? & ->).
    exists l, m, s, n, f1, f2, f3. split_and!; [done| | | | |done..].
    + rewrite Hsame; [done|set_solver].
    + apply IHm; [done|]. intros l' ?. apply Hsame. set_solver.
    + apply IHs; [done|]. intros l' ?. apply Hsame. set_solver.
    + apply IHn; [done|]. intros l' ?. apply Hsame. set_solver.
  - destruct Hr as (l & -> & Hl & ->). exists l. split_and!; [done| |done].
    rewrite Hsame; [done|set_solver].
Qed.

Lemma repr_all_dom h ts qs fp :
  Forall (λ t, ∀ q fp, repr h t q fp → fp ⊆ dom h) ts →
  repr_all (repr h) ts qs fp → fp ⊆ dom h.
Proof.
  intros Hts. revert qs fp.
  induction Hts as [|t ts Ht _ IH]; intros [|q qs] fp Hall; simpl in *;
    try done.
  { set_solver. }
  destruct Hall as (f1 & f2 & H1 & H2 & Hdisj & ->).
  apply Ht in H1. apply IH in H2. set_solver.
Qed.

(** The footprint of a tree is made of stored structs. *)
Lemma repr_dom h t q fp : repr h t q fp → fp ⊆ dom h.
Proof.
  revert q fp. induction t as [|text|ts rest IH|ts rest IH|tm ts tn rest IHm IHs IHn|v]
    using tree_ind_nested; intros q fp Hr; simpl in *.
  - destruct Hr as [_ ->]. set_solver.
  - destruct Hr as (l & -> & Hl & ->).
    apply singleton_subseteq_l, elem_of_dom. eauto.
  - destruct Hr as (l & cs & f & -> & Hl & Hall & Hnot & ->).
    apply (repr_all_dom _ _ _ _ IH) in Hall.
    apply union_least; [|done]. apply singleton_subseteq_l, elem_of_dom. eauto.
  - destruct Hr as (l & cs & f & -> & Hl & Hall & Hnot & ->).
    apply (repr_all_dom _ _ _ _ IH) in Hall.
    apply union_least; [|done]. apply singleton_subseteq_l, elem_of_dom. eauto.
  - destruct Hr as (l & m & s & n & f1 & f2 & f3 & -> & Hl & Hm & Hs & Hn
                    & ? & ? & ? & ? & ->).
    apply IHm in Hm. apply IHs in Hs. apply IHn in Hn.
    apply union_least; [|set_solver].
    apply singleton_subseteq_l, elem_of_dom. eauto.
  - destruct Hr as (l & -> & Hl & ->).
    apply singleton_subseteq_l, elem_of_dom. eauto.
Qed.

Lemma repr_all_inj h ts ts' qs fp fp' :
  Forall (λ t, ∀ t' q fp fp', repr h t q fp → repr h t' q fp' →
               t = t' ∧ fp = fp') ts →
  repr_all (repr h) ts qs fp → repr_all (repr h) ts' qs fp' →
  ts = ts' ∧ fp = fp'.
Proof.
  intros Hts. revert ts' qs fp fp'.
  induction Hts as [|t ts Ht _ IH]; intros [|t' ts'] [|q qs] fp fp' H1 H2;
    simpl in *; try done.
  { by subst. }
  destruct H1 as (f1 & f2 & Ha & Hb & _ & ->).
  destruct H2 as (f1' & f2' & Ha' & Hb' & _ & ->).
  destruct (Ht _ _ _ _ Ha Ha') as [-> ->].
  destruct (IH _ _ _ _ Hb Hb') as [-> ->]. done.
Qed.

(** A pointer unfolds to one tree at most. *)
Lemma repr_inj h t t' q fp fp' :
  repr h t q fp → repr h t' q fp' → t = t' ∧ fp = fp'.
Proof.
  revert t' q fp fp'.
  induction t as [|text|ts rest IH|ts rest IH|tm ts tn rest IHm IHs IHn|v]
    using tree_ind_nested; intros t' q fp fp' Hr Hr';
    destruct t'; simpl in Hr, Hr'; break Hr; break Hr'; simplify_eq;
    try done.
  - match goal with
    | H1 : repr_all _ ts ?qs _, H2 : repr_all _ _ ?qs _ |- _ =>
        destruct (repr_all_inj _ _ _ _ _ _ IH H1 H2) as [-> ->]
    end. done.
  - match goal with
    | H1 : repr_all _ ts ?qs _, H2 : repr_all _ _ ?qs _ |- _ =>
        destruct (repr_all_inj _ _ _ _ _ _ IH H1 H2) as [-> ->]
    end. done.
  - repeat match goal with
    | IH : ∀ t' q fp fp', repr _ ?t q fp → _,
      H1 : repr _ ?t ?q _, H2 : repr _ _ ?q _ |- _ =>
        destruct (IH _ _ _ _ H1 H2) as [-> ->]; clear IH
    end. done.
Qed.

(** The nil pointer unfolds to the absent tree only. *)
Lemma repr_nil_inv h t fp : repr h t None fp → t = TNil.
Proof. destruct t; simpl; intros Hr; break Hr; by simplify_eq. Qed.

Lemma repr_all_frame' h h' ts qs fp :
  repr_all (repr h) ts qs fp → (∀ l, l ∈ fp → h' !! l = h !! l) →
  repr_all (repr h') ts qs fp.
Proof.
  apply repr_all_frame, Forall_true. intros t q f. apply repr_frame.
Qed.

Lemma repr_all_dom' h ts qs fp : repr_all (repr h) ts qs fp → fp ⊆ dom h.
Proof. apply repr_all_dom, Forall_true. intros t q f. apply repr_dom. Qed.

Lemma repr_all_length h ts qs fp :
  repr_all (repr h) ts qs fp → length qs = length ts.
Proof.
  revert qs fp. induction ts as [|t ts IH]; intros [|q qs] fp Hall;
    simpl in *; try done.
  destruct Hall as (f1 & f2 & _ & H2 & _). f_equal. eauto.
Qed.

(** *** Allocation of a parsed tree *)

Lemma alloc_all_spec ts h qs h' :
  Forall alloc_ok ts →
  alloc_all alloc ts h = (qs, h') →
  ∃ fp, repr_all (repr h') ts qs fp ∧ fp ## dom h ∧ dom h' = dom h ∪ fp ∧
        ∀ l, l ∈ dom h → h' !! l = h !! l.
Proof.
  intros Hts. revert h qs h'.
  induction Hts as [|t ts Ht _ IH]; intros h qs h' Hal; simpl in Hal.
  { simplify_eq. exists ∅. simpl. split_and!; [done|set_solver..|done]. }
  destruct (alloc t h) as [q h1] eqn:H1.
  destruct (alloc_all alloc ts h1) as [qs' h2] eqn:H2. simplify_eq.
  destruct (Ht _ _ _ H1) as (f1 & Hr1 & Hd1 & Hdom1 & Hs1).
  destruct (IH _ _ _ H2) as (f2 & Hr2 & Hd2 & Hdom2 & Hs2).
  exists (f1 ∪ f2). split_and!.
  - simpl. exists f1, f2. split_and!; [|done|set_solver|done].
    apply (repr_frame h1); [done|]. intros l Hl. apply Hs2.
    apply (repr_dom _ _ _ _ Hr1 l Hl).
  - set_solver +Hd1 Hd2 Hdom1.
  - rewrite Hdom2, Hdom1. set_solver +.
  - intros l Hl. rewrite Hs2 by set_solver +Hl Hdom1. by apply Hs1.
Qed.

Lemma alloc_fresh_node h (n : node Fields Leaf) :
  let l := fresh (dom h) in
  (l ∉ dom h) ∧ <[l:=n]> h !! l = Some n ∧
  dom (<[l:=n]> h) = dom h ∪ {[l]} ∧
  ∀ l', l' ∈ dom h → <[l:=n]> h !! l' = h !! l'.
Proof.
  intros l. assert (l ∉ dom h) as Hl by apply is_fresh.
  split_and!; [done|apply lookup_insert_eq|set_solver|].
  intros l' Hl'. apply lookup_insert_ne. set_solver.
Qed.

Lemma alloc_spec t : alloc_ok t.
Proof.
  induction t as [|text|ts rest IH|ts rest IH|tm ts tn rest IHm IHs IHn|v]
    using tree_ind_nested; intros h q h' Hal; simpl in Hal.
  - simplify_eq. exists ∅. simpl. split_and!; [done|set_solver..|done].
  - simplify_eq.
    destruct (alloc_fresh_node h (QueryStringQuery text)) as (? & ? & ? & ?).
    exists {[fresh (dom h)]}. simpl.
    split_and!; [by eexists|set_solver|done..].
  - destruct (alloc_all alloc ts h) as [qs h1] eqn:H1. simplify_eq.
    destruct (alloc_all_spec _ _ _ _ IH H1) as (f & Hr & Hd & Hdom & Hs).
    destruct (alloc_fresh_node h1 (ConjunctionQuery (Some qs) rest))
      as (Hl & Hlook & Hdom' & Hs').
    pose proof (repr_all_dom' _ _ _ _ Hr) as Hsub.
    exists ({[fresh (dom h1)]} ∪ f). split_and!.
    + simpl. eexists _, (Some qs), f.
      split_and!; [done..| |set_solver +Hl Hsub|done].
      apply (repr_all_frame' h1); [done|]. intros l ?. apply Hs'. by apply Hsub.
    + set_solver +Hl Hd Hdom.
    + rewrite Hdom', Hdom. set_solver +.
    + intros l Hin. rewrite Hs' by set_solver +Hin Hdom. by apply Hs.
  - destruct (alloc_all alloc ts h) as [qs h1] eqn:H1. simplify_eq.
    destruct (alloc_all_spec _ _ _ _ IH H1) as (f & Hr & Hd & Hdom & Hs).
    destruct (alloc_fresh_node h1 (DisjunctionQuery (Some qs) rest))
      as (Hl & Hlook & Hdom' & Hs').
    pose proof (repr_all_dom' _ _ _ _ Hr) as Hsub.
    exists ({[fresh (dom h1)]} ∪ f). split_and!.
    + simpl. eexists _, (Some qs), f.
      split_and!; [done..| |set_solver +Hl Hsub|done].
      apply (repr_all_frame' h1); [done|]. intros l ?. apply Hs'. by apply Hsub.
    + set_solver +Hl Hd Hdom.
    + rewrite Hdom', Hdom. set_solver +.
    + intros l Hin. rewrite Hs' by set_solver +Hin Hdom. by apply Hs.
  - destruct (alloc tm h) as [m h1] eqn:H1.
    destruct (alloc ts h1) as [s h2] eqn:H2.
    destruct (alloc tn h2) as [n h3] eqn:H3. simplify_eq.
    destruct (IHm _ _ _ H1) as (f1 & Hr1 & Hd1 & Hdom1 & Hs1).
    destruct (IHs _ _ _ H2) as (f2 & Hr2 & Hd2 & Hdom2 & Hs2).
    destruct (IHn _ _ _ H3) as (f3 & Hr3 & Hd3 & Hdom3 & Hs3).
    destruct (alloc_fresh_node h3 (BooleanQuery m s n rest))
      as (Hl & Hlook & Hdom' & Hs').
    pose proof (repr_dom _ _ _ _ Hr1) as Hsub1.
    pose proof (repr_dom _ _ _ _ Hr2) as Hsub2.
    pose proof (repr_dom _ _ _ _ Hr3) as Hsub3.
    set (l0 := fresh (dom h3)) in *.
    assert (dom h1 ⊆ dom h2) as Hi12 by set_solver +Hdom2.
    assert (dom h2 ⊆ dom h3) as Hi23 by set_solver +Hdom3.
    exists ({[l0]} ∪ (f1 ∪ f2 ∪ f3)). split_and!.
    + simpl. eexists _, m, s, n, f1, f2, f3.
      split_and!; [done|done| | | | | | | |done].
      * apply (repr_frame h1); [done|]. intros l ?.
        rewrite Hs', Hs3, Hs2; [done|set_solver +Hsub1 Hi12 Hi23 H..].
      * apply (repr_frame h2); [done|]. intros l ?.
        rewrite Hs', Hs3; [done|set_solver +Hsub2 Hi12 Hi23 H..].
      * apply (repr_frame h3); [done|]. intros l ?.
        rewrite Hs'; [done|set_solver +Hsub3 Hi12 Hi23 H..].
      * set_solver +Hd2 Hsub1.
      * set_solver +Hd3 Hsub1 Hi12.
      * set_solver +Hd3 Hsub2.
      * set_solver +Hl Hsub1 Hsub2 Hsub3 Hi12 Hi23.
    + set_solver +Hl Hd1 Hd2 Hd3 Hdom1 Hdom2 Hdom3.
    + rewrite Hdom', Hdom3, Hdom2, Hdom1. set_solver +.
    + intros l ?. rewrite Hs', Hs3, Hs2;
        [by apply Hs1|set_solver +Hdom1 Hdom2 Hdom3 H..].
  - simplify_eq.
    destruct (alloc_fresh_node h (OtherQuery v)) as (? & ? & ? & ?).
    exists {[fresh (dom h)]}. simpl.
    split_and!; [by eexists|set_solver|done..].
Qed.

(** *** Frames *)

Lemma frame_refl h fp : frame h fp h.
Proof. by split. Qed.

Lemma frame_weaken h fp fp' h' : frame h fp h' → fp ⊆ fp' → frame h fp' h'.
Proof. intros [Hd Hs] Hsub. split; [done|]. intros l ??. apply Hs; set_solver. Qed.

Lemma frame_trans h X h1 Y h2 Z :
  frame h X h1 → frame h1 Y h2 → X ⊆ Z →
  (∀ l, l ∈ Y → l ∈ dom h → l ∈ Z) →
  frame h Z h2.
Proof.
  intros [Hd1 Hs1] [Hd2 Hs2] HX HY. split; [set_solver +Hd1 Hd2|].
  intros l Hl Hz. rewrite Hs2, Hs1; [done|done|set_solver +HX Hz|by apply Hd1|].
  intros ?. apply Hz. by apply HY.
Qed.

Lemma frame_alter h fp l (g : node Fields Leaf → node Fields Leaf) :
  l ∈ fp → frame h fp (alter g l h).
Proof.
  intros Hl. split; [by rewrite dom_alter_L|].
  intros l' _ Hl'. apply lookup_alter_ne. set_solver +Hl Hl'.
Qed.

(** A tree outside what a step may assign is still in the store. *)
Lemma repr_preserved h X h' t q fp :
  repr h t q fp → frame h X h' → fp ## X → repr h' t q fp.
Proof.
  intros Hr [_ Hs] Hdisj. apply (repr_frame h); [done|]. intros l Hl.
  apply Hs; [by apply (repr_dom _ _ _ _ Hr)|set_solver +Hl Hdisj].
Qed.

Lemma repr_all_preserved h X h' ts qs fp :
  repr_all (repr h) ts qs fp → frame h X h' → fp ## X →
  repr_all (repr h') ts qs fp.
Proof.
  intros Hr [_ Hs] Hdisj. apply (repr_all_frame' h); [done|]. intros l Hl.
  apply Hs; [by apply (repr_all_dom' _ _ _ _ Hr)|set_solver +Hl Hdisj].
Qed.

Lemma repr_alter h t q fp l (g : node Fields Leaf → node Fields Leaf) :
  repr h t q fp → l ∉ fp → repr (alter g l h) t q fp.
Proof.
  intros Hr Hl. apply (repr_frame h); [done|]. intros l' Hl'.
  apply lookup_alter_ne. set_solver +Hl Hl'.
Qed.

Lemma repr_all_alter h ts qs fp l (g : node Fields Leaf → node Fields Leaf) :
  repr_all (repr h) ts qs fp → l ∉ fp →
  repr_all (repr (alter g l h)) ts qs fp.
Proof.
  intros Hr Hl. apply (repr_all_frame' h); [done|]. intros l' Hl'.
  apply lookup_alter_ne. set_solver +Hl Hl'.
Qed.

(** *** The unfolding of [expand] *)

Lemma expand_nil n h : expand (S n) None h = Some (Ok None, h).
Proof. done. Qed.

Lemma expand_other n h l :
  match h !! l with
  | Some (OtherQuery _) | None => True
  | _ => False
  end →
  expand (S n) (Some l) h = Some (Ok (Some l), h).
Proof. simpl. by destruct (h !! l) as [[]|]. Qed.

Lemma expand_query_string n h l text :
  h !! l = Some (QueryStringQuery text) →
  expand (S n) (Some l) h =
    match parseQuerySyntax text with
    | Err err => Some (Err ("could not parse '" +:+ text +:+ "': " +:+ err), h)
    | Ok t => expand n (alloc t h).1 (alloc t h).2
    end.
Proof.
  intros Hl. simpl. rewrite Hl. destruct (parseQuerySyntax text); [|done].
  by destruct (alloc _ _).
Qed.

Lemma expand_conjunction n h l cs rest :
  h !! l = Some (ConjunctionQuery cs rest) →
  expand (S n) (Some l) h =
    match expandSlice (expand n) (slice_elems cs) [] h with
    | None => None
    | Some (Err err, h) => Some (Err err, h)
    | Some (Ok children, h) =>
        Some (Ok (Some l), set_Conjuncts l (Some children) h)
    end.
Proof. intros Hl. simpl. by rewrite Hl. Qed.

Lemma expand_disjunction n h l ds rest :
  h !! l = Some (DisjunctionQuery ds rest) →
  expand (S n) (Some l) h =
    match expandSlice (expand n) (slice_elems ds) [] h with
    | None => None
    | Some (Err err, h) => Some (Err err, h)
    | Some (Ok children, h) =>
        Some (Ok (Some l), set_Disjuncts l (Some children) h)
    end.
Proof. intros Hl. simpl. by rewrite Hl. Qed.

Lemma expand_boolean n h l m s mn rest :
  h !! l = Some (BooleanQuery m s mn rest) →
  expand (S n) (Some l) h =
    match expand n m h with
    | None => None
    | Some (Err err, h1) => Some (Err err, set_Must l None h1)
    | Some (Ok m', h1) =>
        let h1 := set_Must l m' h1 in
        match expand n (get_Should l h1) h1 with
        | None => None
        | Some (Err err, h2) => Some (Err err, set_Should l None h2)
        | Some (Ok s', h2) =>
            let h2 := set_Should l s' h2 in
            match expand n (get_MustNot l h2) h2 with
            | None => None
            | Some (Err err, h3) => Some (Err err, set_MustNot l None h3)
            | Some (Ok mn', h3) => Some (Ok (Some l), set_MustNot l mn' h3)
            end
        end
    end.
Proof.
  intros Hl. simpl. rewrite Hl.
  destruct (expand n m h) as [[[m'|e] h1]|]; [|done..]. simpl.
  destruct (expand n _ _) as [[[s'|e] h2]|]; [|done..]. simpl.
  by destruct (expand n _ _) as [[[mn'|e] h3]|].
Qed.

(** *** Refinement of the specification on trees *)

Lemma expandSlice_refines n :
  (∀ h t q fp, repr h t q fp → refines parseQuerySyntax n h t q fp) →
  ∀ ts qs fp acc h,
    repr_all (repr h) ts qs fp →
    refines_all parseQuerySyntax n h ts qs fp acc.
Proof.
  intros IHn. induction ts as [|t ts IH]; intros [|q qs] fp acc h Hall;
    simpl in Hall; try done.
  { subst fp. unfold refines_all. simpl. exists [], h, ∅.
    split_and!; [by rewrite app_nil_r|done|set_solver +|apply frame_refl|].
    intros i t q Hi. by rewrite lookup_nil in Hi. }
  destruct Hall as (f1 & f2 & H1 & H2 & Hdisj & ->).
  unfold refines_all. cbn [spec_expand_all expandSlice].
  pose proof (IHn _ _ _ _ H1) as Ht. unfold refines in Ht.
  pose proof (repr_dom _ _ _ _ H1) as Hf1.
  pose proof (repr_all_dom' _ _ _ _ H2) as Hf2.
  destruct (spec_expand n t) as [[t'|e]|].
  - destruct Ht as (q' & h1 & f1' & Hq & Hr1 & Hsub1 & Hfr1 & Hroot1 & _).
    rewrite Hq.
    assert (Hall1 : repr_all (repr h1) ts qs f2).
    { eapply repr_all_preserved; [done..|]. by symmetry. }
    pose proof (IH _ _ (acc ++ [q']) _ Hall1) as Hts. unfold refines_all in Hts.
    pose proof (repr_dom _ _ _ _ Hr1) as Hf1'.
    pose proof (proj1 Hfr1) as Hd1.
    destruct (spec_expand_all _ ts) as [[ts'|e]|].
    + destruct Hts as (es & h2 & f2' & Hes & Hr2 & Hsub2 & Hfr2 & Hkept2).
      pose proof (proj1 Hfr2) as Hd2.
      assert (f1' ## f2) as Hd12 by set_solver +Hsub1 Hdisj Hf2.
      exists (q' :: es), h2, (f1' ∪ f2'). split_and!.
      * rewrite Hes. by rewrite <-app_assoc.
      * simpl. exists f1', f2'. split_and!; [|done| |done].
        -- by eapply repr_preserved.
        -- set_solver +Hsub2 Hd12 Hf1'.
      * set_solver +Hsub1 Hsub2 Hd1 Hd2.
      * eapply frame_trans; [done..|set_solver +|set_solver +].
      * intros [|i] t0 q0 Hi Hc Hq0; simplify_eq/=; [by rewrite Hroot1|].
        by eapply Hkept2.
    + destruct Hts as (h2 & Hes & Hfr2). exists h2. split; [done|].
      eapply frame_trans; [done..|set_solver +|set_solver +].
    + done.
  - destruct Ht as (h' & Hq & Hfr). rewrite Hq. exists h'. split; [done|].
    eapply frame_weaken; [done|set_solver +].
  - by rewrite Ht.
Qed.

Lemma expand_refines n :
  ∀ h t q fp, repr h t q fp → refines parseQuerySyntax n h t q fp.
Proof.
  induction n as [|n IHn]; intros h t q fp Hr.
  { by unfold refines. }
  destruct t as [|text|ts rest|ts rest|tm ts tn rest|v]; simpl in Hr.
  - destruct Hr as [-> ->]. unfold refines. simpl. exists None, h, ∅.
    split; [done|]. split; [done|]. split; [set_solver +|].
    split; [apply frame_refl|by split].
  - destruct Hr as (l & -> & Hl & ->). unfold refines.
    cbn [Expander.spec_expand]. rewrite (expand_query_string _ _ _ _ Hl).
    destruct (parseQuerySyntax text) as [t0|e].
    + destruct (alloc t0 h) as [p h1] eqn:Hal. cbn [fst snd].
      destruct (alloc_spec t0 _ _ _ Hal) as (f0 & Hr0 & Hd0 & Hdom0 & Hs0).
      pose proof (IHn _ _ _ _ Hr0) as H0. unfold refines in H0.
      assert (frame h ∅ h1) as Hfr0.
      { split; [set_solver +Hdom0|]. intros l' ? _. by apply Hs0. }
      destruct (spec_expand n t0) as [[t'|e]|].
      * destruct H0 as (q' & h' & fp' & Hq & Hr' & Hsub & Hfr & _).
        exists q', h', fp'. split_and!; [done|done| | |done|exact I].
        -- pose proof (proj1 Hfr) as Hd. set_solver +Hsub Hdom0 Hd Hd0.
        -- eapply frame_trans; [exact Hfr0|exact Hfr|set_solver +|].
           intros l' Hl' Hd. set_solver +Hl' Hd Hd0.
      * destruct H0 as (h' & Hq & Hfr). exists h'. split; [done|].
        eapply frame_trans; [exact Hfr0|exact Hfr|set_solver +|].
        intros l' Hl' Hd. set_solver +Hl' Hd Hd0.
      * done.
    + exists h. split; [done|apply frame_refl].
  - destruct Hr as (l & cs & f & -> & Hl & Hall & Hnot & ->).
    unfold refines. cbn [Expander.spec_expand].
    rewrite (expand_conjunction _ _ _ _ _ Hl).
    pose proof (expandSlice_refines n IHn _ _ _ [] _ Hall) as Hs.
    unfold refines_all in Hs.
    assert (l ∈ dom h) as Hldom by (apply elem_of_dom; eauto).
    destruct (spec_expand_all _ ts) as [[ts'|e]|].
    + destruct Hs as (es & h1 & f' & Hes & Hr' & Hsub & Hfr & Hkept).
      rewrite Hes. cbn [app].
      assert (l ∉ f') as Hnot' by set_solver +Hsub Hnot Hldom.
      assert (set_Conjuncts l (Some es) h1 !! l = Some (ConjunctionQuery (Some es) rest))
        as Hl1.
      { unfold set_Conjuncts. rewrite lookup_alter_eq, (proj2 Hfr), Hl; done. }
      exists (Some l), (set_Conjuncts l (Some es) h1), ({[l]} ∪ f').
      split; [done|]. split; [|split; [|split; [|split; [done|]]]].
      * simpl. exists l, (Some es), f'. split_and!; [done|done| |done..].
        by apply repr_all_alter.
      * unfold set_Conjuncts. rewrite dom_alter_L. set_solver +Hsub.
      * eapply frame_trans;
          [exact Hfr|apply (frame_alter _ {[l]}); set_solver +
          |set_solver +|set_solver +].
      * intros i tc c Hi Hc. unfold get_Conjuncts. rewrite Hl, Hl1. simpl.
        by eapply Hkept.
    + destruct Hs as (h1 & Hes & Hfr). rewrite Hes. exists h1. split; [done|].
      eapply frame_weaken; [done|set_solver +].
    + by rewrite Hs.
  - destruct Hr as (l & cs & f & -> & Hl & Hall & Hnot & ->).
    unfold refines. cbn [Expander.spec_expand].
    rewrite (expand_disjunction _ _ _ _ _ Hl).
    pose proof (expandSlice_refines n IHn _ _ _ [] _ Hall) as Hs.
    unfold refines_all in Hs.
    assert (l ∈ dom h) as Hldom by (apply elem_of_dom; eauto).
    destruct (spec_expand_all _ ts) as [[ts'|e]|].
    + destruct Hs as (es & h1 & f' & Hes & Hr' & Hsub & Hfr & Hkept).
      rewrite Hes. cbn [app].
      assert (l ∉ f') as Hnot' by set_solver +Hsub Hnot Hldom.
      assert (set_Disjuncts l (Some es) h1 !! l = Some (DisjunctionQuery (Some es) rest))
        as Hl1.
      { unfold set_Disjuncts. rewrite lookup_alter_eq, (proj2 Hfr), Hl; done. }
      exists (Some l), (set_Disjuncts l (Some es) h1), ({[l]} ∪ f').
      split; [done|]. split; [|split; [|split; [|split; [done|]]]].
      * simpl. exists l, (Some es), f'. split_and!; [done|done| |done..].
        by apply repr_all_alter.
      * unfold set_Disjuncts. rewrite dom_alter_L. set_solver +Hsub.
      * eapply frame_trans;
          [exact Hfr|apply (frame_alter _ {[l]}); set_solver +
          |set_solver +|set_solver +].
      * intros i tc c Hi Hc. unfold get_Disjuncts. rewrite Hl, Hl1. simpl.
        by eapply Hkept.
    + destruct Hs as (h1 & Hes & Hfr). rewrite Hes. exists h1. split; [done|].
      eapply frame_weaken; [done|set_solver +].
    + by rewrite Hs.
  - destruct Hr as (l & m & s & mn & f1 & f2 & f3 & -> & Hl & Hm & Hs & Hn
                    & D12 & D13 & D23 & Hnot & ->).
    unfold refines. cbn [Expander.spec_expand].
    rewrite (expand_boolean _ _ _ _ _ _ _ Hl).
    assert (l ∈ dom h) as Hldom by (apply elem_of_dom; eauto).
    pose proof (repr_dom _ _ _ _ Hm) as Hf1.
    pose proof (repr_dom _ _ _ _ Hs) as Hf2.
    pose proof (repr_dom _ _ _ _ Hn) as Hf3.
    pose proof (IHn _ _ _ _ Hm) as H1. unfold refines in H1.
    destruct (spec_expand n tm) as [[tm'|e]|]; cycle 1.
    { destruct H1 as (h1 & Hq1 & Hfr1). rewrite Hq1.
      exists (set_Must l None h1). split; [done|].
      eapply frame_trans;
        [exact Hfr1|apply (frame_alter _ {[l]}); set_solver +
        |set_solver +|set_solver +]. }
    { by rewrite H1. }
    destruct H1 as (m' & h1 & f1' & Hq1 & Hr1 & Hsub1 & Hfr1 & Hk1 & _).
    rewrite Hq1. cbn zeta.
    assert (set_Must l m' h1 !! l = Some (BooleanQuery m' s mn rest)) as Hl1.
    { unfold set_Must. rewrite lookup_alter_eq, (proj2 Hfr1), Hl; [done..|].
      set_solver +Hnot. }
    assert (frame h ({[l]} ∪ f1) (set_Must l m' h1)) as Hfr1'.
    { eapply frame_trans;
        [exact Hfr1|apply (frame_alter _ {[l]}); set_solver +
        |set_solver +|set_solver +]. }
    assert (l ∉ f1') as Hn1 by set_solver +Hsub1 Hnot Hldom.
    assert (repr (set_Must l m' h1) tm' m' f1') as Hr1' by by apply repr_alter.
    assert (dom (set_Must l m' h1) = dom h1) as Hdom1
      by (unfold set_Must; apply dom_alter_L).
    pose proof (proj1 Hfr1) as Hd01.
    pose proof (repr_dom _ _ _ _ Hr1) as Hf1'.
    generalize dependent (set_Must l m' h1). intros h1' Hl1 Hfr1' Hr1' Hdom1.
    assert (get_Should l h1' = s) as -> by (unfold get_Should; by rewrite Hl1).
    assert (repr h1' ts s f2) as Hs1.
    { eapply repr_preserved; [exact Hs|exact Hfr1'|set_solver +D12 Hnot]. }
    pose proof (IHn _ _ _ _ Hs1) as H2. unfold refines in H2.
    destruct (spec_expand n ts) as [[ts'|e]|]; cycle 1.
    { destruct H2 as (h2 & Hq2 & Hfr2). rewrite Hq2.
      exists (set_Should l None h2). split; [done|].
      assert (frame h1' ({[l]} ∪ f2) (set_Should l None h2)) as Hfr2'.
      { eapply frame_trans;
          [exact Hfr2|apply (frame_alter _ {[l]}); set_solver +
          |set_solver +|set_solver +]. }
      eapply frame_trans; [exact Hfr1'|exact Hfr2'|set_solver +|set_solver +]. }
    { by rewrite H2. }
    destruct H2 as (s' & h2 & f2' & Hq2 & Hr2 & Hsub2 & Hfr2 & Hk2 & _).
    rewrite Hq2. cbn zeta.
    assert (l ∈ dom h1') as Hldom1 by (apply elem_of_dom; eauto).
    assert (set_Should l s' h2 !! l = Some (BooleanQuery m' s' mn rest))
      as Hl2.
    { unfold set_Should. rewrite lookup_alter_eq, (proj2 Hfr2), Hl1; [done..|].
      set_solver +Hnot. }
    assert (frame h1' ({[l]} ∪ f2) (set_Should l s' h2)) as Hfr2'.
    { eapply frame_trans;
        [exact Hfr2|apply (frame_alter _ {[l]}); set_solver +
        |set_solver +|set_solver +]. }
    assert (l ∉ f2') as Hn2 by set_solver +Hsub2 Hnot Hldom1.
    assert (repr (set_Should l s' h2) ts' s' f2') as Hr2'
      by by apply repr_alter.
    assert (dom (set_Should l s' h2) = dom h2) as Hdom2
      by (unfold set_Should; apply dom_alter_L).
    pose proof (proj1 Hfr2) as Hd12.
    pose proof (repr_dom _ _ _ _ Hr2) as Hf2'.
    generalize dependent (set_Should l s' h2).
    intros h2' Hl2 Hfr2' Hr2' Hdom2.
    assert (get_MustNot l h2' = mn) as ->
      by (unfold get_MustNot; by rewrite Hl2).
    assert (f1' ## {[l]} ∪ f2) as D1 by set_solver +Hsub1 Hn1 D12 Hf2.
    assert (repr h2' tm' m' f1') as Hr1''.
    { eapply repr_preserved; [exact Hr1'|exact Hfr2'|exact D1]. }
    assert (frame h ({[l]} ∪ f1 ∪ f2) h2') as Hfr02.
    { eapply frame_trans; [exact Hfr1'|exact Hfr2'|set_solver +|set_solver +]. }
    assert (repr h2' tn mn f3) as Hn2'.
    { eapply repr_preserved; [exact Hn|exact Hfr02|set_solver +D13 D23 Hnot]. }
    pose proof (IHn _ _ _ _ Hn2') as H3. unfold refines in H3.
    destruct (spec_expand n tn) as [[tn'|e]|]; cycle 1.
    { destruct H3 as (h3 & Hq3 & Hfr3). rewrite Hq3.
      exists (set_MustNot l None h3). split; [done|].
      assert (frame h2' ({[l]} ∪ f3) (set_MustNot l None h3)) as Hfr3'.
      { eapply frame_trans;
          [exact Hfr3|apply (frame_alter _ {[l]}); set_solver +
          |set_solver +|set_solver +]. }
      eapply frame_trans; [exact Hfr02|exact Hfr3'|set_solver +|set_solver +]. }
    { by rewrite H3. }
    destruct H3 as (mn' & h3 & f3' & Hq3 & Hr3 & Hsub3 & Hfr3 & Hk3 & _).
    rewrite Hq3.
    assert (l ∈ dom h2') as Hldom2 by (apply elem_of_dom; eauto).
    assert (set_MustNot l mn' h3 !! l = Some (BooleanQuery m' s' mn' rest))
      as Hl3.
    { unfold set_MustNot.
      rewrite lookup_alter_eq, (proj2 Hfr3), Hl2; [done..|].
      set_solver +Hnot. }
    assert (frame h2' ({[l]} ∪ f3) (set_MustNot l mn' h3)) as Hfr3'.
    { eapply frame_trans;
        [exact Hfr3|apply (frame_alter _ {[l]}); set_solver +
        |set_solver +|set_solver +]. }
    assert (l ∉ f3') as Hn3 by set_solver +Hsub3 Hnot Hldom2.
    assert (repr (set_MustNot l mn' h3) tn' mn' f3') as Hr3'
      by by apply repr_alter.
    assert (dom (set_MustNot l mn' h3) = dom h3) as Hdom3
      by (unfold set_MustNot; apply dom_alter_L).
    pose proof (proj1 Hfr3) as Hd23.
    generalize dependent (set_MustNot l mn' h3).
    intros h3' Hl3 Hfr3' Hr3' Hdom3.
    assert (dom h ⊆ dom h1') as E1 by (rewrite Hdom1; exact Hd01).
    assert (dom h1' ⊆ dom h2') as E2 by (rewrite Hdom2; exact Hd12).
    assert (dom h2' ⊆ dom h3') as E3 by (rewrite Hdom3; exact Hd23).
    assert (f1' ⊆ dom h1') as G1 by (rewrite Hdom1; exact Hf1').
    assert (f2' ⊆ dom h2') as G2 by (rewrite Hdom2; exact Hf2').
    assert (f1' ⊆ f1 ∪ (dom h1' ∖ dom h)) as S1
      by (rewrite Hdom1; exact Hsub1).
    assert (f2' ⊆ f2 ∪ (dom h2' ∖ dom h1')) as S2
      by (rewrite Hdom2; exact Hsub2).
    assert (f3' ⊆ f3 ∪ (dom h3' ∖ dom h2')) as S3
      by (rewrite Hdom3; exact Hsub3).
    clear Hsub1 Hsub2 Hsub3 Hdom1 Hdom2 Hdom3 Hd01 Hd12 Hd23 Hf1' Hf2'.
    assert (f1' ## {[l]} ∪ f3) as D1' by set_solver +S1 Hn1 D13 Hf3.
    assert (f2' ## {[l]} ∪ f3) as D2' by set_solver +S2 Hn2 D23 Hf3 E1.
    exists (Some l), h3', ({[l]} ∪ (f1' ∪ f2' ∪ f3')).
    split; [done|]. split; [|split; [|split; [|split; [done|]]]].
    + simpl. exists l, m', s', mn', f1', f2', f3'.
      split_and!; [done|done| | |done| | | | |done].
      * eapply repr_preserved; [exact Hr1''|exact Hfr3'|exact D1'].
      * eapply repr_preserved; [exact Hr2'|exact Hfr3'|exact D2'].
      * set_solver +S1 S2 G1 D12 Hf2.
      * set_solver +S1 S3 G1 E2 D13 Hf3.
      * set_solver +S2 S3 G2 D23 Hf3 E1.
      * set_solver +Hn1 Hn2 Hn3.
    + set_solver +S1 S2 S3 E1 E2 E3.
    + eapply frame_trans; [exact Hfr02|exact Hfr3'|set_solver +|set_solver +].
    + unfold kept, get_Must, get_Should, get_MustNot. rewrite Hl, Hl3.
      simpl. split_and!; auto.
  - destruct Hr as (l & -> & Hl & ->). unfold refines.
    cbn [Expander.spec_expand].
    rewrite expand_other by by rewrite Hl.
    exists (Some l), h, {[l]}.
    split_and!; [done| |set_solver +|apply frame_refl|done|exact I].
    simpl. by exists l.
Qed.

(** *** The loop over the children *)

Lemma expandSlice_each n qs es acc h h' :
  expand_each n h qs es h' →
  expandSlice (expand n) qs acc h = Some (Ok (acc ++ es), h').
Proof.
  intros Heach. revert acc.
  induction Heach as [h|h q qs e es h1 h2 Hq _ IH]; intros acc; simpl.
  { by rewrite app_nil_r. }
  rewrite Hq, IH. by rewrite <-app_assoc.
Qed.

Lemma expandSlice_ok n qs acc h out h' :
  expandSlice (expand n) qs acc h = Some (Ok out, h') →
  ∃ es, out = acc ++ es ∧ expand_each n h qs es h'.
Proof.
  revert acc h. induction qs as [|q qs IH]; intros acc h Hs; simpl in Hs.
  { simplify_eq. exists []. split; [by rewrite app_nil_r|constructor]. }
  destruct (expand n q h) as [[[e|err] h1]|] eqn:Hq; simplify_eq.
  destruct (IH _ _ Hs) as (es & -> & Heach).
  exists (e :: es). split; [by rewrite <-app_assoc|]. by econstructor.
Qed.

Lemma expandSlice_first_error n qs1 q qs2 es acc h h1 e h2 :
  expand_each n h qs1 es h1 →
  expand n q h1 = Some (Err e, h2) →
  expandSlice (expand n) (qs1 ++ q :: qs2) acc h = Some (Err e, h2).
Proof.
  intros Heach Hq. revert acc.
  induction Heach as [h|h q0 qs e0 es h0 h1 Hq0 _ IH]; intros acc; simpl.
  { by rewrite Hq. }
  rewrite Hq0. by apply IH.
Qed.

Lemma expandSlice_err n qs acc h e h2 :
  expandSlice (expand n) qs acc h = Some (Err e, h2) →
  ∃ qs1 q qs2 es h1,
    qs = qs1 ++ q :: qs2 ∧ expand_each n h qs1 es h1 ∧
    expand n q h1 = Some (Err e, h2).
Proof.
  revert acc h. induction qs as [|q qs IH]; intros acc h Hs; simpl in Hs.
  { done. }
  destruct (expand n q h) as [[[e0|err] h1]|] eqn:Hq; simplify_eq.
  - destruct (IH _ _ Hs) as (qs1 & q1 & qs2 & es & h1' & -> & Heach & Hq1).
    exists (q :: qs1), q1, qs2, (e0 :: es), h1'.
    split_and!; [done| |done]. by econstructor.
  - exists [], q, qs, [], h. split_and!; [done|constructor|done].
Qed.

(** The children are expanded in order: the result has one child for each
    child of the input, the expansion of the child at the same place. *)
Lemma expand_each_pointwise n h qs es h' :
  expand_each n h qs es h' →
  length es = length qs ∧
  ∀ i q, qs !! i = Some q →
         ∃ e hi hi', es !! i = Some e ∧ expand n q hi = Some (Ok e, hi').
Proof.
  induction 1 as [h|h q qs e es h1 h2 Hq _ [IHl IH]]; simpl.
  { split; [done|]. intros i q Hi. by rewrite lookup_nil in Hi. }
  split; [by f_equal|]. intros [|i] q' Hi; simplify_eq/=; eauto.
Qed.

(** *** The specification on trees *)

Lemma spec_expand_all_pure (f : tree Fields Leaf → option (result (tree Fields Leaf)))
    ts ts' :
  (∀ t t', f t = Some (Ok t') → pure t' = true) →
  spec_expand_all f ts = Some (Ok ts') → forallb pure ts' = true.
Proof.
  intros Hf. revert ts'. induction ts as [|t ts IH]; intros ts' Hs;
    simpl in Hs; simplify_eq; [done|].
  destruct (f t) as [[t'|e]|] eqn:Ht; simplify_eq.
  destruct (spec_expand_all f ts) as [[ts''|e]|]; simplify_eq. simpl.
  by rewrite (Hf _ _ Ht), IH.
Qed.

(** The result of an expansion holds no query string. *)
Lemma spec_expand_pure n t t' :
  spec_expand n t = Some (Ok t') → pure t' = true.
Proof.
  revert t t'. induction n as [|n IH]; intros t t' Hs; [done|].
  destruct t as [|text|ts rest|ts rest|tm ts tn rest|v]; simpl in Hs.
  - by simplify_eq.
  - destruct (parseQuerySyntax text); [eauto|done].
  - destruct (spec_expand_all _ ts) as [[ts'|e]|] eqn:Hts; simplify_eq.
    simpl. by eapply spec_expand_all_pure.
  - destruct (spec_expand_all _ ts) as [[ts'|e]|] eqn:Hts; simplify_eq.
    simpl. by eapply spec_expand_all_pure.
  - destruct (spec_expand n tm) as [[tm'|e]|] eqn:H1; simplify_eq.
    destruct (spec_expand n ts) as [[ts'|e]|] eqn:H2; simplify_eq.
    destruct (spec_expand n tn) as [[tn'|e]|] eqn:H3; simplify_eq.
    simpl. by rewrite (IH _ _ H1), (IH _ _ H2), (IH _ _ H3).
  - by simplify_eq.
Qed.

(** What [expand] returns on a tree in the store is what [spec_expand]
    returns on the tree. *)
Lemma expand_ok_inv n h t q fp q' h' :
  repr h t q fp → expand n q h = Some (Ok q', h') →
  ∃ t' fp',
    spec_expand n t = Some (Ok t') ∧ repr h' t' q' fp' ∧
    fp' ⊆ fp ∪ (dom h' ∖ dom h) ∧ frame h fp h' ∧
    (composite t = true → q' = q) ∧ kept h t q h'.
Proof.
  intros Hr Hq. pose proof (expand_refines n _ _ _ _ Hr) as H.
  unfold refines in H. destruct (spec_expand n t) as [[t'|e]|].
  - destruct H as (q'' & h'' & fp' & Hq' & ?). rewrite Hq in Hq'.
    simplify_eq. eauto.
  - destruct H as (h'' & Hq' & _). rewrite Hq in Hq'. done.
  - by rewrite Hq in H.
Qed.

Lemma expand_err_inv n h t q fp e h' :
  repr h t q fp → expand n q h = Some (Err e, h') →
  spec_expand n t = Some (Err e) ∧ frame h fp h'.
Proof.
  intros Hr Hq. pose proof (expand_refines n _ _ _ _ Hr) as H.
  unfold refines in H. destruct (spec_expand n t) as [[t'|e']|].
  - destruct H as (q'' & h'' & fp' & Hq' & ?). rewrite Hq in Hq'. done.
  - destruct H as (h'' & Hq' & ?). rewrite Hq in Hq'. by simplify_eq.
  - by rewrite Hq in H.
Qed.

(** *** Fuel *)

Lemma spec_expand_all_mono
    (f g : tree Fields Leaf → option (result (tree Fields Leaf))) ts r :
  Forall (λ t, ∀ r, f t = Some r → g t = Some r) ts →
  spec_expand_all f ts = Some r → spec_expand_all g ts = Some r.
Proof.
  intros Hts. revert r. induction Hts as [|t ts Ht _ IH]; intros r Hs;
    simpl in *; [done|].
  destruct (f t) as [[t'|e]|] eqn:Hf; simplify_eq; rewrite (Ht _ eq_refl);
    [|done].
  destruct (spec_expand_all f ts) as [[ts'|e]|]; simplify_eq;
    by rewrite (IH _ eq_refl).
Qed.

(** More fuel does not change a result. *)
Lemma spec_expand_mono n m t r :
  (n ≤ m)%nat → spec_expand n t = Some r → spec_expand m t = Some r.
Proof.
  revert m t r. induction n as [|n IH]; intros m t r Hle Hs; [done|].
  destruct m as [|m]; [lia|]. assert (n ≤ m)%nat as Hle' by lia.
  destruct t as [|text|ts rest|ts rest|tm ts tn rest|v]; simpl in *.
  - done.
  - destruct (parseQuerySyntax text); [eauto|done].
  - destruct (spec_expand_all _ ts) as [r'|] eqn:Hts; [|done].
    rewrite (spec_expand_all_mono _ (spec_expand m) _ _ (Forall_true _ _
               (λ t r, IH m t r Hle')) Hts). done.
  - destruct (spec_expand_all _ ts) as [r'|] eqn:Hts; [|done].
    rewrite (spec_expand_all_mono _ (spec_expand m) _ _ (Forall_true _ _
               (λ t r, IH m t r Hle')) Hts). done.
  - destruct (spec_expand n tm) as [r1|] eqn:H1; [|done].
    rewrite (IH _ _ _ Hle' H1). destruct r1; [|done].
    destruct (spec_expand n ts) as [r2|] eqn:H2; [|done].
    rewrite (IH _ _ _ Hle' H2). destruct r2; [|done].
    destruct (spec_expand n tn) as [r3|] eqn:H3; [|done].
    rewrite (IH _ _ _ Hle' H3). done.
  - done.
Qed.

Lemma spec_expand_all_total n ts :
  Forall (λ t, ∃ r, spec_expand n t = Some r) ts →
  ∃ r, spec_expand_all (spec_expand n) ts = Some r.
Proof.
  induction 1 as [|t ts [r Ht] _ [rs IH]]; simpl; [eauto|].
  rewrite Ht. destruct r; [|eauto]. rewrite IH. destruct rs; eauto.
Qed.

Lemma spec_expand_pure_total n t :
  pure t = true → (height t ≤ n)%nat → ∃ r, spec_expand n t = Some r.
Proof.
  revert t. induction n as [|n IH]; intros t Hp Hh.
  { destruct t; simpl in Hh; lia. }
  destruct t as [|text|ts rest|ts rest|tm ts tn rest|v];
    simpl in Hp; cbn [height] in Hh; cbn [Expander.spec_expand]; eauto.
  - done.
  - destruct (spec_expand_all_total n ts) as [[ts'|e] ->]; [|eauto..].
    apply Forall_forall. intros t Hin. apply IH.
    + apply (proj1 (forallb_forall _ _) Hp). by apply list_elem_of_In.
    + assert (height t ≤ max_list (height <$> ts))%nat; [|lia].
      apply max_list_elem_of_le, list_elem_of_fmap. eauto.
  - destruct (spec_expand_all_total n ts) as [[ts'|e] ->]; [|eauto..].
    apply Forall_forall. intros t Hin. apply IH.
    + apply (proj1 (forallb_forall _ _) Hp). by apply list_elem_of_In.
    + assert (height t ≤ max_list (height <$> ts))%nat; [|lia].
      apply max_list_elem_of_le, list_elem_of_fmap. eauto.
  - apply andb_true_iff in Hp as [Hp Hp3].
    apply andb_true_iff in Hp as [Hp1 Hp2].
    destruct (IH tm Hp1) as [[?|?] ->]; [lia| |eauto].
    destruct (IH ts Hp2) as [[?|?] ->]; [lia| |eauto].
    destruct (IH tn Hp3) as [[?|?] ->]; [lia|eauto..].
Qed.

(** With a parser whose trees hold no query string, as the grammar of the
    package builds them, the expansion of a tree ends: some fuel is
    enough, and so is any larger fuel. *)
Lemma spec_expand_total t :
  (∀ text t0, parseQuerySyntax text = Ok t0 → pure t0 = true) →
  ∃ n0, ∀ n, (n0 ≤ n)%nat → ∃ r, spec_expand n t = Some r.
Proof.
  intros Hparse.
  assert (Hlist : ∀ ts,
    Forall (λ t, ∃ n0, ∀ n, (n0 ≤ n)%nat → ∃ r, spec_expand n t = Some r) ts →
    ∃ n0, ∀ n, (n0 ≤ n)%nat →
               Forall (λ t, ∃ r, spec_expand n t = Some r) ts).
  { induction 1 as [|t1 ts [n1 H1] _ [n2 H2]]; [by exists 0|].
    exists (n1 `max` n2). intros n Hn.
    constructor; [apply H1|apply H2]; lia. }
  induction t as [|text|ts rest IH|ts rest IH|tm ts tn rest IHm IHs IHn|v]
    using tree_ind_nested.
  - exists 1. intros [|n] ?; [lia|]. simpl. eauto.
  - destruct (parseQuerySyntax text) as [t0|e] eqn:Hp.
    + exists (S (height t0)). intros [|n] ?; [lia|]. simpl. rewrite Hp.
      apply spec_expand_pure_total; [by eapply Hparse|lia].
    + exists 1. intros [|n] ?; [lia|]. simpl. rewrite Hp. eauto.
  - destruct (Hlist _ IH) as [n0 H0]. exists (S n0).
    intros [|n] ?; [lia|]. simpl.
    destruct (spec_expand_all_total n ts) as [[?|?] ->]; [apply H0; lia|eauto..].
  - destruct (Hlist _ IH) as [n0 H0]. exists (S n0).
    intros [|n] ?; [lia|]. simpl.
    destruct (spec_expand_all_total n ts) as [[?|?] ->]; [apply H0; lia|eauto..].
  - destruct IHm as [n1 H1], IHs as [n2 H2], IHn as [n3 H3].
    exists (S (Nat.max n1 (Nat.max n2 n3))). intros [|n] ?; [lia|]. simpl.
    destruct (H1 n) as [[?|?] ->]; [lia| |eauto].
    destruct (H2 n) as [[?|?] ->]; [lia| |eauto].
    destruct (H3 n) as [[?|?] ->]; [lia|eauto..].
  - exists 1. intros [|n] ?; [lia|]. simpl. eauto.
Qed.

(** What [spec_expand] returns on a tree, [expand] returns on the tree in
    the store, with the same fuel. *)
Lemma expand_returns n h t q fp r :
  repr h t q fp → spec_expand n t = Some r →
  ∃ q' h', expand n q h = Some (match r with
                                | Ok _ => Ok q'
                                | Err e => Err e
                                end, h') ∧
           (composite t = true → is_ok r = true → q' = q).
Proof.
  intros Hr Hs. pose proof (expand_refines n _ _ _ _ Hr) as H.
  unfold refines in H. rewrite Hs in H. destruct r as [t'|e].
  - destruct H as (q' & h' & _ & Hq & _ & _ & _ & Hroot & _). eauto.
  - destruct H as (h' & Hq & _). exists None, h'. split; [done|]. done.
Qed.

Lemma expand_terminates h t q fp :
  (∀ text t0, parseQuerySyntax text = Ok t0 → pure t0 = true) →
  repr h t q fp →
  ∃ n0, ∀ n, (n0 ≤ n)%nat → ∃ r h', expand n q h = Some (r, h').
Proof.
  intros Hparse Hr. destruct (spec_expand_total t Hparse) as [n0 H0].
  exists n0. intros n Hn. destruct (H0 n Hn) as [r Hs].
  destruct (expand_returns _ _ _ _ _ _ Hr Hs) as (q' & h' & Hq & _). eauto.
Qed.

(** *** Trees without query strings *)

Lemma lookup_allocated_on X h l :
  allocated_on X h !! l =
    (λ n, if decide (l ∈ X) then allocated n else n) <$> h !! l.
Proof.
  unfold allocated_on. rewrite map_lookup_imap. by destruct (h !! l).
Qed.

Lemma allocated_idemp (n : node Fields Leaf) :
  allocated (allocated n) = allocated n.
Proof. by destruct n. Qed.

Lemma allocated_on_empty h : allocated_on ∅ h = h.
Proof.
  apply map_eq. intros l. rewrite lookup_allocated_on.
  destruct (h !! l); [|done]. simpl. by rewrite decide_False by set_solver +.
Qed.

Lemma allocated_on_union X Y h :
  allocated_on Y (allocated_on X h) = allocated_on (X ∪ Y) h.
Proof.
  apply map_eq. intros l. rewrite !lookup_allocated_on.
  destruct (h !! l) as [n|]; [|done]. simpl. f_equal.
  destruct (decide (l ∈ X)), (decide (l ∈ Y)).
  - rewrite decide_True by set_solver. apply allocated_idemp.
  - by rewrite decide_True by set_solver.
  - by rewrite decide_True by set_solver.
  - by rewrite decide_False by set_solver.
Qed.

Lemma allocated_on_fixed X h l n :
  h !! l = Some n → allocated n = n →
  allocated_on ({[l]} ∪ X) h = allocated_on X h.
Proof.
  intros Hl Hn. apply map_eq. intros l'. rewrite !lookup_allocated_on.
  destruct (decide (l' = l)) as [->|Hne].
  - rewrite Hl. simpl. rewrite decide_True by set_solver +.
    rewrite Hn. by destruct (decide (l ∈ X)).
  - destruct (h !! l'); [|done]. simpl. f_equal.
    destruct (decide (l' ∈ X)).
    + by rewrite decide_True by set_solver.
    + by rewrite decide_False by set_solver.
Qed.

Lemma repr_all_allocated_on X h ts qs fp :
  Forall (λ t, ∀ q fp, repr h t q fp → repr (allocated_on X h) t q fp) ts →
  repr_all (repr h) ts qs fp → repr_all (repr (allocated_on X h)) ts qs fp.
Proof.
  intros Hts. revert qs fp.
  induction Hts as [|t ts Ht _ IH]; intros [|q qs] fp Hall; simpl in *;
    try done.
  destruct Hall as (f1 & f2 & H1 & H2 & Hdisj & ->).
  exists f1, f2. split_and!; [by apply Ht|by apply IH|done..].
Qed.

(** Allocating the slices of children does not change the tree a pointer
    unfolds to. *)
Lemma repr_allocated_on X h t q fp :
  repr h t q fp → repr (allocated_on X h) t q fp.
Proof.
  revert q fp.
  induction t as [|text|ts rest IH|ts rest IH|tm ts tn rest IHm IHs IHn|v]
    using tree_ind_nested; intros q fp Hr; simpl in *.
  - done.
  - destruct Hr as (l & -> & Hl & ->). exists l. split_and!; [done| |done].
    rewrite lookup_allocated_on, Hl. simpl. by destruct (decide _).
  - destruct Hr as (l & cs & f & -> & Hl & Hall & Hnot & ->).
    exists l, (if decide (l ∈ X) then Some (slice_elems cs) else cs), f.
    split_and!; [done| | |done..].
    + rewrite lookup_allocated_on, Hl. simpl. by destruct (decide _).
    + apply repr_all_allocated_on; [done|]. by destruct (decide _).
  - destruct Hr as (l & cs & f & -> & Hl & Hall & Hnot & ->).
    exists l, (if decide (l ∈ X) then Some (slice_elems cs) else cs), f.
    split_and!; [done| | |done..].
    + rewrite lookup_allocated_on, Hl. simpl. by destruct (decide _).
    + apply repr_all_allocated_on; [done|]. by destruct (decide _).
  - destruct Hr as (l & m & s & n & f1 & f2 & f3 & -> & Hl & Hm & Hs & Hn
                    & ? & ? & ? & ? & ->).
    exists l, m, s, n, f1, f2, f3.
    split_and!; [done| |by apply IHm|by apply IHs|by apply IHn|done..].
    rewrite lookup_allocated_on, Hl. simpl. by destruct (decide _).
  - destruct Hr as (l & -> & Hl & ->). exists l. split_and!; [done| |done].
    rewrite lookup_allocated_on, Hl. simpl. by destruct (decide _).
Qed.

Lemma expandSlice_pure n :
  (∀ h t q fp, repr h t q fp → pure t = true → (height t ≤ n)%nat →
               expand n q h = Some (Ok q, allocated_on fp h)) →
  ∀ ts qs fp acc h,
    repr_all (repr h) ts qs fp → forallb pure ts = true →
    (max_list (height <$> ts) ≤ n)%nat →
    expandSlice (expand n) qs acc h = Some (Ok (acc ++ qs), allocated_on fp h).
Proof.
  intros IHn. induction ts as [|t ts IH]; intros [|q qs] fp acc h Hall Hp Hh;
    simpl in Hall; try done.
  { subst fp. simpl. by rewrite app_nil_r, allocated_on_empty. }
  destruct Hall as (f1 & f2 & H1 & H2 & Hdisj & ->).
  simpl in Hp.
  change (max_list (height <$> t :: ts))
    with (Nat.max (height t) (max_list (height <$> ts))) in Hh.
  apply andb_true_iff in Hp as [Hp1 Hp2].
  cbn [expandSlice]. rewrite (IHn _ _ _ _ H1 Hp1) by lia.
  rewrite (IH qs f2); [|apply repr_all_allocated_on;
                         [apply Forall_true; intros; by apply repr_allocated_on
                         |done]|done|lia].
  by rewrite allocated_on_union, <-app_assoc.
Qed.

(** On a tree without query strings [expand] returns the pointer it was
    given and leaves the store as it was, but for the slices of children,
    which it allocates. *)
Lemma expand_pure n :
  ∀ h t q fp, repr h t q fp → pure t = true → (height t ≤ n)%nat →
              expand n q h = Some (Ok q, allocated_on fp h).
Proof.
  induction n as [|n IHn]; intros h t q fp Hr Hp Hh.
  { destruct t; simpl in Hh; lia. }
  destruct t as [|text|ts rest|ts rest|tm ts tn rest|v];
    simpl in Hr, Hp; cbn [height] in Hh.
  - destruct Hr as [-> ->]. by rewrite allocated_on_empty.
  - done.
  - destruct Hr as (l & cs & f & -> & Hl & Hall & Hnot & ->).
    rewrite (expand_conjunction _ _ _ _ _ Hl).
    rewrite (expandSlice_pure n IHn _ _ _ _ _ Hall Hp) by lia.
    cbn [app]. do 2 f_equal. apply map_eq. intros l'.
    unfold set_Conjuncts. rewrite lookup_alter, !lookup_allocated_on.
    case_decide as Heq.
    + subst l'. rewrite Hl. simpl.
      rewrite decide_False by done. by rewrite decide_True by set_solver +.
    + destruct (h !! l'); [|done]. simpl. f_equal.
      destruct (decide (l' ∈ f)).
      * by rewrite decide_True by set_solver.
      * by rewrite decide_False by set_solver.
  - destruct Hr as (l & cs & f & -> & Hl & Hall & Hnot & ->).
    rewrite (expand_disjunction _ _ _ _ _ Hl).
    rewrite (expandSlice_pure n IHn _ _ _ _ _ Hall Hp) by lia.
    cbn [app]. do 2 f_equal. apply map_eq. intros l'.
    unfold set_Disjuncts. rewrite lookup_alter, !lookup_allocated_on.
    case_decide as Heq.
    + subst l'. rewrite Hl. simpl.
      rewrite decide_False by done. by rewrite decide_True by set_solver +.
    + destruct (h !! l'); [|done]. simpl. f_equal.
      destruct (decide (l' ∈ f)).
      * by rewrite decide_True by set_solver.
      * by rewrite decide_False by set_solver.
  - destruct Hr as (l & m & s & mn & f1 & f2 & f3 & -> & Hl & Hm & Hs & Hn
                    & D12 & D13 & D23 & Hnot & ->).
    apply andb_true_iff in Hp as [Hp Hp3].
    apply andb_true_iff in Hp as [Hp1 Hp2].
    assert (∀ X, allocated_on X h !! l = Some (BooleanQuery m s mn rest))
      as Hlook.
    { intros X. rewrite lookup_allocated_on, Hl. simpl. by destruct (decide _). }
    rewrite (expand_boolean _ _ _ _ _ _ _ Hl).
    rewrite (IHn _ _ _ _ Hm Hp1) by lia. cbn zeta.
    assert (∀ X, set_Must l m (allocated_on X h) = allocated_on X h) as ->.
    { intros X. apply alter_id. intros x Hx. rewrite Hlook in Hx. by simplify_eq. }
    unfold get_Should at 1. rewrite Hlook.
    rewrite (IHn _ _ _ _ (repr_allocated_on f1 _ _ _ _ Hs) Hp2) by lia.
    cbn zeta. rewrite allocated_on_union.
    assert (∀ X, set_Should l s (allocated_on X h) = allocated_on X h) as ->.
    { intros X. apply alter_id. intros x Hx. rewrite Hlook in Hx. by simplify_eq. }
    unfold get_MustNot at 1. rewrite Hlook.
    rewrite (IHn _ _ _ _ (repr_allocated_on (f1 ∪ f2) _ _ _ _ Hn) Hp3) by lia.
    rewrite allocated_on_union.
    assert (∀ X, set_MustNot l mn (allocated_on X h) = allocated_on X h) as ->.
    { intros X. apply alter_id. intros x Hx. rewrite Hlook in Hx. by simplify_eq. }
    by rewrite (allocated_on_fixed _ _ _ _ Hl).
  - destruct Hr as (l & -> & Hl & ->).
    rewrite expand_other by by rewrite Hl.
    rewrite <-(union_empty_r_L {[l]}).
    by rewrite (allocated_on_fixed _ _ _ _ Hl), allocated_on_empty.
Qed.

(** *** What a successful expansion leaves at a composite root *)

Lemma expand_conjunction_inv n h l ts rest fp q' h' :
  repr h (TConjunction ts rest) (Some l) fp →
  expand (S n) (Some l) h = Some (Ok q', h') →
  q' = Some l ∧
  ∃ cs es ts' f,
    h !! l = Some (ConjunctionQuery cs rest) ∧
    h' !! l = Some (ConjunctionQuery (Some es) rest) ∧
    spec_expand_all (spec_expand n) ts = Some (Ok ts') ∧
    repr_all (repr h') ts' es f ∧ length es = length ts ∧
    ∀ i tc c, ts !! i = Some tc → composite tc = true →
              slice_elems cs !! i = Some c → es !! i = Some c.
Proof.
  intros Hr Hq.
  destruct (expand_ok_inv _ _ _ _ _ _ _ Hr Hq)
    as (t' & fp' & Hs & Hr' & _ & _ & Hroot & Hkept).
  split; [by apply Hroot|]. rewrite (Hroot eq_refl) in Hr'.
  cbn [Expander.spec_expand] in Hs.
  destruct (spec_expand_all _ ts) as [[ts'|e]|] eqn:Hts; simplify_eq.
  simpl in Hr, Hr'.
  destruct Hr as (l0 & cs & f & [= <-] & Hl & Hall & _).
  destruct Hr' as (l0 & cs' & f' & [= <-] & Hl' & Hall' & _).
  rewrite (expand_conjunction _ _ _ _ _ Hl) in Hq.
  destruct (expandSlice _ _ _ _) as [[[children|e] h1]|] eqn:Hsl; simplify_eq.
  assert (set_Conjuncts l (Some children) h1 !! l
          = Some (ConjunctionQuery (Some children) rest)) as Hl1.
  { unfold set_Conjuncts in *. rewrite lookup_alter_eq in Hl' |- *.
    destruct (h1 !! l) as [[]|]; by simplify_eq/=. }
  rewrite Hl1 in Hl'. injection Hl' as <-. simpl in Hall'.
  exists cs, children, ts', f'. split_and!; [done..| |].
  - rewrite (repr_all_length _ _ _ _ Hall').
    clear -Hts. revert ts' Hts. induction ts as [|t ts IH]; intros ts' Hts;
      simpl in Hts; simplify_eq; [done|].
    destruct (spec_expand n t) as [[t'|e]|]; simplify_eq.
    destruct (spec_expand_all _ ts) as [[ts''|e]|]; simplify_eq.
    simpl. f_equal. by apply IH.
  - unfold kept, get_Conjuncts in Hkept. rewrite Hl, Hl1 in Hkept. exact Hkept.
Qed.

Lemma expand_disjunction_inv n h l ts rest fp q' h' :
  repr h (TDisjunction ts rest) (Some l) fp →
  expand (S n) (Some l) h = Some (Ok q', h') →
  q' = Some l ∧
  ∃ cs es ts' f,
    h !! l = Some (DisjunctionQuery cs rest) ∧
    h' !! l = Some (DisjunctionQuery (Some es) rest) ∧
    spec_expand_all (spec_expand n) ts = Some (Ok ts') ∧
    repr_all (repr h') ts' es f ∧ length es = length ts ∧
    ∀ i tc c, ts !! i = Some tc → composite tc = true →
              slice_elems cs !! i = Some c → es !! i = Some c.
Proof.
  intros Hr Hq.
  destruct (expand_ok_inv _ _ _ _ _ _ _ Hr Hq)
    as (t' & fp' & Hs & Hr' & _ & _ & Hroot & Hkept).
  split; [by apply Hroot|]. rewrite (Hroot eq_refl) in Hr'.
  cbn [Expander.spec_expand] in Hs.
  destruct (spec_expand_all _ ts) as [[ts'|e]|] eqn:Hts; simplify_eq.
  simpl in Hr, Hr'.
  destruct Hr as (l0 & cs & f & [= <-] & Hl & Hall & _).
  destruct Hr' as (l0 & cs' & f' & [= <-] & Hl' & Hall' & _).
  rewrite (expand_disjunction _ _ _ _ _ Hl) in Hq.
  destruct (expandSlice _ _ _ _) as [[[children|e] h1]|] eqn:Hsl; simplify_eq.
  assert (set_Disjuncts l (Some children) h1 !! l
          = Some (DisjunctionQuery (Some children) rest)) as Hl1.
  { unfold set_Disjuncts in *. rewrite lookup_alter_eq in Hl' |- *.
    destruct (h1 !! l) as [[]|]; by simplify_eq/=. }
  rewrite Hl1 in Hl'. injection Hl' as <-. simpl in Hall'.
  exists cs, children, ts', f'. split_and!; [done..| |].
  - rewrite (repr_all_length _ _ _ _ Hall').
    clear -Hts. revert ts' Hts. induction ts as [|t ts IH]; intros ts' Hts;
      simpl in Hts; simplify_eq; [done|].
    destruct (spec_expand n t) as [[t'|e]|]; simplify_eq.
    destruct (spec_expand_all _ ts) as [[ts''|e]|]; simplify_eq.
    simpl. f_equal. by apply IH.
  - unfold kept, get_Disjuncts in Hkept. rewrite Hl, Hl1 in Hkept. exact Hkept.
Qed.

Lemma expand_boolean_inv n h l tm ts tn rest fp q' h' :
  repr h (TBoolean tm ts tn rest) (Some l) fp →
  expand (S n) (Some l) h = Some (Ok q', h') →
  q' = Some l ∧
  ∃ m s mn m' s' mn' tm' ts' tn' f1 f2 f3,
    h !! l = Some (BooleanQuery m s mn rest) ∧
    h' !! l = Some (BooleanQuery m' s' mn' rest) ∧
    spec_expand n tm = Some (Ok tm') ∧
    spec_expand n ts = Some (Ok ts') ∧
    spec_expand n tn = Some (Ok tn') ∧
    repr h' tm' m' f1 ∧ repr h' ts' s' f2 ∧ repr h' tn' mn' f3 ∧
    (composite tm = true → m' = m) ∧
    (composite ts = true → s' = s) ∧
    (composite tn = true → mn' = mn).
Proof.
  intros Hr Hq.
  destruct (expand_ok_inv _ _ _ _ _ _ _ Hr Hq)
    as (t' & fp' & Hs & Hr' & _ & _ & Hroot & Hkept).
  split; [by apply Hroot|]. rewrite (Hroot eq_refl) in Hr'.
  cbn [Expander.spec_expand] in Hs.
  destruct (spec_expand n tm) as [[tm'|e]|]; simplify_eq.
  destruct (spec_expand n ts) as [[ts'|e]|]; simplify_eq.
  destruct (spec_expand n tn) as [[tn'|e]|]; simplify_eq.
  simpl in Hr, Hr'.
  destruct Hr as (l0 & m & s & mn & _ & _ & _ & [= <-] & Hl & _).
  destruct Hr' as (l0 & m' & s' & mn' & f1 & f2 & f3 & [= <-] & Hl' & H1 & H2
                   & H3 & _).
  unfold kept, get_Must, get_Should, get_MustNot in Hkept.
  rewrite Hl, Hl' in Hkept. destruct Hkept as (K1 & K2 & K3).
  exists m, s, mn, m', s', mn', tm', ts', tn', f1, f2, f3. done.
Qed.

(** *** Texts in error messages *)

Lemma string_app_assoc (a b c : string) : (a +:+ b) +:+ c = a +:+ b +:+ c.
Proof.
  induction a as [|x a IH]; [reflexivity|].
  change (String x ((a +:+ b) +:+ c) = String x (a +:+ b +:+ c)).
  by f_equal.
Qed.

Lemma string_app_nil_r (a : string) : a +:+ "" = a.
Proof.
  induction a as [|x a IH]; [reflexivity|].
  change (String x (a +:+ "") = String x a). by f_equal.
Qed.

Lemma contains_middle a s b : contains s (a +:+ s +:+ b).
Proof. by exists a, b. Qed.

Lemma contains_end a s : contains s (a +:+ s).
Proof. exists a, "". by rewrite string_app_nil_r. Qed.

(** *** The claims on expansion *)

(** C2. Expanding a tree whose root is a conjunction, a disjunction or a
    boolean returns, when it succeeds, the pointer it was given: it does so
    with the fuel with which the expansion of the tree succeeds, and with a
    parser whose trees hold no query string every fuel from some fuel on
    gives a result.  The struct at that address is then the one that was
    there, its other fields untouched and its child slots assigned the
    expanded children: in the store that expansion leaves, they unfold to
    the expansions of the children of the input, and a child that is
    composite is in its slot the pointer it was, so that the same holds of
    it in turn.  The store is not what it was: when the input holds a
    query string, the pointer no longer unfolds to the input tree. *)
Theorem expand_in_place n h l t fp :
  repr h t (Some l) fp →
  composite t = true →
  (∀ t', spec_expand (S n) t = Some (Ok t') →
         ∃ h', expand (S n) (Some l) h = Some (Ok (Some l), h')) ∧
  ((∀ text t0, parseQuerySyntax text = Ok t0 → pure t0 = true) →
   ∃ n0, ∀ m, (n0 ≤ m)%nat →
     ∃ r h', expand m (Some l) h = Some (r, h') ∧
             (is_ok r = true → r = Ok (Some l))) ∧
  (∀ q' h', expand (S n) (Some l) h = Some (Ok q', h') →
     q' = Some l ∧
     match t with
     | TConjunction ts rest =>
         ∃ cs es ts' f,
           h !! l = Some (ConjunctionQuery cs rest) ∧
           h' !! l = Some (ConjunctionQuery (Some es) rest) ∧
           spec_expand_all (spec_expand n) ts = Some (Ok ts') ∧
           repr_all (repr h') ts' es f ∧ length es = length ts ∧
           ∀ i tc c, ts !! i = Some tc → composite tc = true →
                     slice_elems cs !! i = Some c → es !! i = Some c
     | TDisjunction ts rest =>
         ∃ ds es ts' f,
           h !! l = Some (DisjunctionQuery ds rest) ∧
           h' !! l = Some (DisjunctionQuery (Some es) rest) ∧
           spec_expand_all (spec_expand n) ts = Some (Ok ts') ∧
           repr_all (repr h') ts' es f ∧ length es = length ts ∧
           ∀ i tc c, ts !! i = Some tc → composite tc = true →
                     slice_elems ds !! i = Some c → es !! i = Some c
     | TBoolean tm ts tn rest =>
         ∃ m s mn m' s' mn' tm' ts' tn' f1 f2 f3,
           h !! l = Some (BooleanQuery m s mn rest) ∧
           h' !! l = Some (BooleanQuery m' s' mn' rest) ∧
           spec_expand n tm = Some (Ok tm') ∧
           spec_expand n ts = Some (Ok ts') ∧
           spec_expand n tn = Some (Ok tn') ∧
           repr h' tm' m' f1 ∧ repr h' ts' s' f2 ∧ repr h' tn' mn' f3 ∧
           (composite tm = true → m' = m) ∧
           (composite ts = true → s' = s) ∧
           (composite tn = true → mn' = mn)
     | _ => False
     end ∧
     frame h fp h' ∧
     (pure t = false → ∀ fp0, ¬ repr h' t (Some l) fp0)).
Proof.
  intros Hr Hc. split_and!.
  - intros t' Hs.
    destruct (expand_returns _ _ _ _ _ _ Hr Hs) as (q' & h' & Hq & Hroot).
    exists h'. by rewrite (Hroot Hc eq_refl) in Hq.
  - intros Hparse. destruct (expand_terminates _ _ _ _ Hparse Hr) as [n0 H0].
    exists n0. intros m Hm. destruct (H0 m Hm) as (r & h' & Hq).
    exists r, h'. split; [done|]. destruct r as [q'|e]; [|done]. intros _.
    destruct (expand_ok_inv _ _ _ _ _ _ _ Hr Hq)
      as (_ & _ & _ & _ & _ & _ & Hroot & _).
    by rewrite (Hroot Hc).
  - intros q' h' Hq.
    destruct (expand_ok_inv _ _ _ _ _ _ _ Hr Hq)
      as (t' & fp' & Hs & Hr' & _ & Hfr & Hroot & _).
    split_and!; [by apply Hroot| |done|].
    + destruct t as [|text|ts rest|ts rest|tm ts tn rest|v]; try done.
      * by destruct (expand_conjunction_inv _ _ _ _ _ _ _ _ Hr Hq) as [_ ?].
      * by destruct (expand_disjunction_inv _ _ _ _ _ _ _ _ Hr Hq) as [_ ?].
      * by destruct (expand_boolean_inv _ _ _ _ _ _ _ _ _ _ Hr Hq) as [_ ?].
    + intros Hp fp0 Hr0. rewrite (Hroot Hc) in Hr'.
      destruct (repr_inj _ _ _ _ _ _ Hr0 Hr') as [-> _].
      apply spec_expand_pure in Hs. congruence.
Qed.

(** C6. Expanding a query string node calls the parser on its text.  When
    the parser fails, the expansion fails, the store untouched, with
    "could not parse '<text>': <message>", which holds the text and the
    message of the parser.  When it succeeds, the expansion is that of
    the tree the parser built, with the rest of the fuel: it returns when
    the expansion of that tree does, and what is returned is the expansion
    of that tree, which holds no query string, so it is not the output of
    the parser when that holds one. *)
Theorem expand_string_syntax n h l text :
  h !! l = Some (QueryStringQuery text) →
  (∀ err, parseQuerySyntax text = Err err →
     expand (S n) (Some l) h =
       Some (Err ("could not parse '" +:+ text +:+ "': " +:+ err), h) ∧
     contains text ("could not parse '" +:+ text +:+ "': " +:+ err) ∧
     contains err ("could not parse '" +:+ text +:+ "': " +:+ err)) ∧
  (∀ t, parseQuerySyntax text = Ok t →
     expand (S n) (Some l) h = expand n (alloc t h).1 (alloc t h).2 ∧
     (∃ fp, repr (alloc t h).2 t (alloc t h).1 fp) ∧
     (∀ r, spec_expand n t = Some r →
        ∃ q' h', expand (S n) (Some l) h =
                   Some (match r with Ok _ => Ok q' | Err e => Err e end, h')) ∧
     (∀ q' h', expand (S n) (Some l) h = Some (Ok q', h') →
        ∃ t' fp', spec_expand n t = Some (Ok t') ∧ repr h' t' q' fp' ∧
                  pure t' = true ∧ (pure t = false → t' ≠ t)) ∧
     (∀ e h', expand (S n) (Some l) h = Some (Err e, h') →
        spec_expand n t = Some (Err e))).
Proof.
  intros Hl. rewrite (expand_query_string _ _ _ _ Hl). split.
  - intros err ->. split_and!; [done|apply contains_middle|].
    rewrite <-(string_app_assoc text), <-string_app_assoc.
    apply contains_end.
  - intros t ->. destruct (alloc t h) as [p h1] eqn:Hal. cbn [fst snd].
    destruct (alloc_spec t _ _ _ Hal) as (f0 & Hr0 & _).
    split_and!; [done|by exists f0| | |].
    + intros r Hs.
      destruct (expand_returns _ _ _ _ _ _ Hr0 Hs) as (q' & h' & Hq & _).
      eauto.
    + intros q' h' Hq.
      destruct (expand_ok_inv _ _ _ _ _ _ _ Hr0 Hq)
        as (t' & fp' & Hs & Hr' & _).
      exists t', fp'. pose proof (spec_expand_pure _ _ _ Hs) as Hp.
      split_and!; [done..|]. intros Hnp ->. congruence.
    + intros e h' Hq. by destruct (expand_err_inv _ _ _ _ _ _ _ Hr0 Hq).
Qed.

(** C7. A conjunction or a disjunction expands its children one after the
    other, each in the store the one before left: when all succeed, the
    node is returned with its slot assigned the results, which are as many
    as the children, the result at each place being the expansion of the
    child at that place; when a child fails after the ones before it
    succeeded, the expansion fails with the error of that child.  A
    boolean in a tree succeeds when its three slots do, and then holds in
    each slot the expansion of that slot of the input; a slot that is
    absent is absent in the result; expanding the absent node returns it
    and changes nothing. *)
Theorem expand_composite_children n h l :
  (∀ cs rest, h !! l = Some (ConjunctionQuery cs rest) →
     (∀ es h1, expand_each n h (slice_elems cs) es h1 →
        expand (S n) (Some l) h =
          Some (Ok (Some l), set_Conjuncts l (Some es) h1) ∧
        length es = length (slice_elems cs) ∧
        ∀ i q, slice_elems cs !! i = Some q →
               ∃ e hi hi', es !! i = Some e ∧
                           expand n q hi = Some (Ok e, hi')) ∧
     (∀ qs1 q qs2 es h1 e h2,
        slice_elems cs = qs1 ++ q :: qs2 →
        expand_each n h qs1 es h1 →
        expand n q h1 = Some (Err e, h2) →
        expand (S n) (Some l) h = Some (Err e, h2)) ∧
     (∀ q' h', expand (S n) (Some l) h = Some (Ok q', h') →
        ∃ es h1, expand_each n h (slice_elems cs) es h1 ∧ q' = Some l ∧
                 h' = set_Conjuncts l (Some es) h1) ∧
     (∀ e h', expand (S n) (Some l) h = Some (Err e, h') →
        ∃ qs1 q qs2 es h1,
          slice_elems cs = qs1 ++ q :: qs2 ∧ expand_each n h qs1 es h1 ∧
          expand n q h1 = Some (Err e, h'))) ∧
  (∀ ds rest, h !! l = Some (DisjunctionQuery ds rest) →
     (∀ es h1, expand_each n h (slice_elems ds) es h1 →
        expand (S n) (Some l) h =
          Some (Ok (Some l), set_Disjuncts l (Some es) h1) ∧
        length es = length (slice_elems ds) ∧
        ∀ i q, slice_elems ds !! i = Some q →
               ∃ e hi hi', es !! i = Some e ∧
                           expand n q hi = Some (Ok e, hi')) ∧
     (∀ qs1 q qs2 es h1 e h2,
        slice_elems ds = qs1 ++ q :: qs2 →
        expand_each n h qs1 es h1 →
        expand n q h1 = Some (Err e, h2) →
        expand (S n) (Some l) h = Some (Err e, h2)) ∧
     (∀ q' h', expand (S n) (Some l) h = Some (Ok q', h') →
        ∃ es h1, expand_each n h (slice_elems ds) es h1 ∧ q' = Some l ∧
                 h' = set_Disjuncts l (Some es) h1) ∧
     (∀ e h', expand (S n) (Some l) h = Some (Err e, h') →
        ∃ qs1 q qs2 es h1,
          slice_elems ds = qs1 ++ q :: qs2 ∧ expand_each n h qs1 es h1 ∧
          expand n q h1 = Some (Err e, h'))) ∧
  (∀ tm ts tn rest fp tm' ts' tn',
     repr h (TBoolean tm ts tn rest) (Some l) fp →
     spec_expand n tm = Some (Ok tm') →
     spec_expand n ts = Some (Ok ts') →
     spec_expand n tn = Some (Ok tn') →
     ∃ h', expand (S n) (Some l) h = Some (Ok (Some l), h')) ∧
  (∀ tm ts tn rest fp q' h',
     repr h (TBoolean tm ts tn rest) (Some l) fp →
     expand (S n) (Some l) h = Some (Ok q', h') →
     q' = Some l ∧
     ∃ m s mn m' s' mn' tm' ts' tn' f1 f2 f3,
       h !! l = Some (BooleanQuery m s mn rest) ∧
       h' !! l = Some (BooleanQuery m' s' mn' rest) ∧
       spec_expand n tm = Some (Ok tm') ∧
       spec_expand n ts = Some (Ok ts') ∧
       spec_expand n tn = Some (Ok tn') ∧
       repr h' tm' m' f1 ∧ repr h' ts' s' f2 ∧ repr h' tn' mn' f3 ∧
       (m = None → m' = None) ∧ (s = None → s' = None) ∧
       (mn = None → mn' = None)) ∧
  expand (S n) None h = Some (Ok None, h).
Proof.
  split_and!; [| | | |done].
  - intros cs rest Hl. rewrite (expand_conjunction _ _ _ _ _ Hl). split_and!.
    + intros es h1 Heach. rewrite (expandSlice_each _ _ _ _ _ _ Heach).
      split; [done|]. by apply expand_each_pointwise in Heach.
    + intros qs1 q qs2 es h1 e h2 -> Heach Hq.
      by rewrite (expandSlice_first_error _ _ _ _ _ _ _ _ _ _ Heach Hq).
    + intros q' h' Hq.
      destruct (expandSlice _ _ _ _) as [[[out|e] h1]|] eqn:Hsl; simplify_eq.
      destruct (expandSlice_ok _ _ _ _ _ _ Hsl) as (es & -> & Heach). eauto.
    + intros e h' Hq.
      destruct (expandSlice _ _ _ _) as [[[out|e'] h1]|] eqn:Hsl; simplify_eq.
      by apply expandSlice_err in Hsl.
  - intros cs rest Hl. rewrite (expand_disjunction _ _ _ _ _ Hl). split_and!.
    + intros es h1 Heach. rewrite (expandSlice_each _ _ _ _ _ _ Heach).
      split; [done|]. by apply expand_each_pointwise in Heach.
    + intros qs1 q qs2 es h1 e h2 -> Heach Hq.
      by rewrite (expandSlice_first_error _ _ _ _ _ _ _ _ _ _ Heach Hq).
    + intros q' h' Hq.
      destruct (expandSlice _ _ _ _) as [[[out|e] h1]|] eqn:Hsl; simplify_eq.
      destruct (expandSlice_ok _ _ _ _ _ _ Hsl) as (es & -> & Heach). eauto.
    + intros e h' Hq.
      destruct (expandSlice _ _ _ _) as [[[out|e'] h1]|] eqn:Hsl; simplify_eq.
      by apply expandSlice_err in Hsl.
  - intros tm ts tn rest fp tm' ts' tn' Hr H1 H2 H3.
    destruct (expand_returns (S n) _ _ _ _ (Ok (TBoolean tm' ts' tn' rest)) Hr)
      as (q' & h' & Hq & Hroot); [simpl; by rewrite H1, H2, H3|].
    exists h'. by rewrite (Hroot eq_refl eq_refl) in Hq.
  - intros tm ts tn rest fp q' h' Hr Hq.
    destruct (expand_boolean_inv _ _ _ _ _ _ _ _ _ _ Hr Hq)
      as (-> & m & s & mn & m' & s' & mn' & tm' & ts' & tn' & f1 & f2 & f3
          & Hl & Hl' & H1 & H2 & H3 & R1 & R2 & R3 & _).
    split; [done|]. exists m, s, mn, m', s', mn', tm', ts', tn', f1, f2, f3.
    simpl in Hr.
    destruct Hr as (l0 & m0 & s0 & mn0 & g1 & g2 & g3 & [= <-] & Hl0 & Hm
                    & Hs & Hn & _).
    rewrite Hl in Hl0. injection Hl0 as <- <- <-.
    split_and!; try done.
    + intros ->. apply repr_nil_inv in Hm as ->.
      destruct n; simplify_eq/=. by destruct R1.
    + intros ->. apply repr_nil_inv in Hs as ->.
      destruct n; simplify_eq/=. by destruct R2.
    + intros ->. apply repr_nil_inv in Hn as ->.
      destruct n; simplify_eq/=. by destruct R3.
Qed.

(** C8. On a tree that holds no query string, with the fuel its height
    asks for, [expand] returns the pointer it was given; applied again to
    what it returned, it returns the same pointer and leaves the same
    store.  The tree the pointer unfolds to is the same before and after;
    the specification on trees returns the tree itself.  A node that is
    neither composite nor a query string, and the absent node, are
    returned with the store unchanged. *)
Theorem expand_idempotent_on_pure n h :
  (∀ t q fp,
     repr h t q fp → pure t = true → (height t ≤ n)%nat →
     ∃ h1, expand n q h = Some (Ok q, h1) ∧
           expand n q h1 = Some (Ok q, h1) ∧
           repr h1 t q fp ∧ spec_expand n t = Some (Ok t) ∧
           (composite t = false → h1 = h)) ∧
  (∀ l v, h !! l = Some (OtherQuery v) →
          expand (S n) (Some l) h = Some (Ok (Some l), h)) ∧
  expand (S n) None h = Some (Ok None, h).
Proof.
  split_and!; [|by intros l v Hl; rewrite expand_other by by rewrite Hl|done].
  intros t q fp Hr Hp Hh. exists (allocated_on fp h).
  pose proof (expand_pure n _ _ _ _ Hr Hp Hh) as H1.
  pose proof (repr_allocated_on fp _ _ _ _ Hr) as Hr1.
  pose proof (expand_pure n _ _ _ _ Hr1 Hp Hh) as H2.
  rewrite allocated_on_union, union_idemp_L in H2.
  split_and!; [done..| |].
  - destruct (expand_ok_inv _ _ _ _ _ _ _ Hr H1) as (t' & fp' & Hs & Hr' & _).
    by destruct (repr_inj _ _ _ _ _ _ Hr1 Hr') as [-> _].
  - intros Hc. destruct t; simpl in Hr, Hc, Hp; try done.
    + destruct Hr as [_ ->]. apply allocated_on_empty.
    + destruct Hr as (l & _ & Hl & ->).
      rewrite <-(union_empty_r_L {[l]}).
      by rewrite (allocated_on_fixed _ _ _ _ Hl), allocated_on_empty.
Qed.

End facts.

(** *** Examples on the instance *)

Lemma alloc_repr {Fields Leaf} (t : tree Fields Leaf) h :
  ∃ fp, repr (alloc t h).2 t (alloc t h).1 fp.
Proof.
  destruct (alloc t h) as [q h'] eqn:Hal.
  destruct (alloc_spec t _ _ _ Hal) as (fp & ? & _). eauto.
Qed.

Lemma expand_in_place_witness :
  ∃ h', demo_expand 5 (Some 3%positive) demo_store
          = Some (Ok (Some 3%positive), h') ∧
        (∃ es, h' !! 3%positive = Some (ConjunctionQuery (Some es) 2%Z) ∧
               length es = 2) ∧
        ∀ fp0, ¬ repr h' demo_tree (Some 3%positive) fp0.
Proof.
  destruct (alloc_repr demo_tree ∅) as [fp Hr].
  change (repr demo_store demo_tree (Some 3%positive) fp) in Hr.
  destruct (demo_expand 5 (Some 3%positive) demo_store)
    as [[[q'|e] h']|] eqn:Hq; [|by vm_compute in Hq..].
  destruct (proj2 (proj2 (expand_in_place demo_parseQuerySyntax 4 _ _ _ _ Hr
                             eq_refl)) _ _ Hq)
    as (-> & (cs & es & ts' & f & _ & Hl & _ & _ & Hlen & _) & _ & Hnp).
  exists h'. split_and!; [done|by eauto|by apply Hnp].
Defined.

Lemma expand_string_syntax_witness :
  demo_expand 1 (Some 1%positive) {[1%positive := QueryStringQuery ""]}
    = Some (Err "could not parse '': syntax error: empty query",
            {[1%positive := QueryStringQuery ""]}) ∧
  ∃ q' h' t' fp',
    demo_expand 5 (Some 1%positive) {[1%positive := QueryStringQuery "rocq"]}
      = Some (Ok q', h') ∧
    repr h' t' q' fp' ∧ pure t' = true.
Proof.
  split.
  - exact (proj1 (proj1 (expand_string_syntax demo_parseQuerySyntax 0
             {[1%positive := QueryStringQuery ""]} 1%positive ""
             (lookup_singleton_eq _ _)) _ eq_refl)).
  - destruct (demo_expand 5 (Some 1%positive)
                {[1%positive := QueryStringQuery "rocq"]})
      as [[[q'|e] h']|] eqn:Hq; [|by vm_compute in Hq..].
    destruct (proj1 (proj2 (proj2 (proj2 (proj2 (expand_string_syntax
                demo_parseQuerySyntax 4
                {[1%positive := QueryStringQuery "rocq"]} 1%positive "rocq"
                (lookup_singleton_eq _ _)) _ eq_refl)))) q' h' Hq)
      as (t' & fp' & _ & Hr' & Hp & _).
    by exists q', h', t', fp'.
Defined.

Lemma expand_composite_children_witness :
  ∃ h', demo_expand 5 (Some 4%positive) demo_bad_store
          = Some (Err "could not parse '': syntax error: empty query", h').
Proof.
  eexists.
  refine (proj1 (proj2 (proj1 (expand_composite_children
            demo_parseQuerySyntax 4 demo_bad_store 4%positive)
            (Some [Some 1%positive; Some 2%positive; Some 3%positive]) 1%Z
            eq_refl))
          [Some 1%positive] (Some 2%positive) [Some 3%positive]
          _ _ _ _ eq_refl _ _).
  - econstructor; [vm_compute; reflexivity|constructor].
  - vm_compute. reflexivity.
Defined.

Lemma expand_idempotent_on_pure_witness :
  ∃ h1, demo_expand 3 demo_pure_root demo_pure_store
          = Some (Ok demo_pure_root, h1) ∧
        demo_expand 3 demo_pure_root h1 = Some (Ok demo_pure_root, h1).
Proof.
  destruct (alloc_repr demo_pure_tree ∅) as [fp Hr].
  destruct (proj1 (expand_idempotent_on_pure demo_parseQuerySyntax 3
              demo_pure_store) demo_pure_tree demo_pure_root fp Hr eq_refl)
    as (h1 & H1 & H2 & _).
  - vm_compute. lia.
  - by exists h1.
Defined.

End ExpanderFacts.

(** * Further properties of the decoders *)

Module DispatchFacts.

Import Decoder.

Section facts.

Context (float64 : Type) (ParseFloat : string → option float64).
Context (Value : Type) (UnmarshalJSON_query : QueryType → json → result Value).

Local Abbreviation UnmarshalJSON_any :=
  (UnmarshalJSON_any float64 ParseFloat).
Local Abbreviation UnmarshalJSON_map :=
  (UnmarshalJSON_map float64 ParseFloat).
Local Abbreviation unmarshal_as := (unmarshal_as Value UnmarshalJSON_query).
Local Abbreviation ParseQuery_tmp :=
  (ParseQuery_tmp float64 Value UnmarshalJSON_query).
Local Abbreviation ParseQuery :=
  (ParseQuery float64 ParseFloat Value UnmarshalJSON_query).

Implicit Types (tmp : gmap string (any float64)) (input : json).

(** One lookup of the body decided, either way. *)
Ltac decide_key :=
  match goal with
  | |- context [has ?tmp ?k] => destruct (has tmp k) eqn:?
  | |- context [has_float64 ?tmp ?k] => destruct (has_float64 tmp k) eqn:?
  | |- context [has_string ?tmp ?k] => destruct (has_string tmp k) eqn:?
  end;
  cbn [andb orb negb].

(** The lookups decided on the way, used in what is left to prove. *)
Ltac use_keys :=
  repeat match goal with
         | H : has _ _ = _ |- _ => rewrite H; clear H
         | H : has_float64 _ _ = _ |- _ => rewrite H; clear H
         | H : has_string _ _ = _ |- _ => rewrite H; clear H
         end.

(** The struct decoders called on the way, with what they returned. *)
Ltac decoders H :=
  unfold Decoder.unmarshal_as in H;
  repeat match type of H with
         | context [UnmarshalJSON_query ?T ?doc] =>
             destruct (UnmarshalJSON_query T doc) eqn:?
         end;
  first [discriminate H|injection H as <-].

Lemma ParseQuery_tmp_empty input :
  ParseQuery_tmp ∅ input = Err "unknown query type".
Proof. reflexivity. Qed.

(** The key map of a document is that of an object, or the nil map of
    [null]. *)
Lemma UnmarshalJSON_map_inv input tmp :
  UnmarshalJSON_map input = Ok tmp →
  (input = JNull ∧ tmp = ∅) ∨ ∃ ms, input = JObject ms.
Proof. destruct input; intros H; simplify_eq/=; eauto. Qed.

(** The first member that the generic decode rejects ends the decode of
    the object. *)
Lemma object_members_err dec ms1 k x ms2 m e :
  Forall (λ kx, is_ok (dec kx.2) = true) ms1 →
  dec x = Err e →
  object_members float64 dec (ms1 ++ (k, x) :: ms2) m = Err e.
Proof.
  intros Hok Hx. revert m.
  induction Hok as [|[k0 x0] ms1 H0 _ IH]; intros m; simpl in *.
  { by rewrite Hx. }
  destruct (dec x0); [|done]. simpl. apply IH.
Qed.

(** X1. Which branch [ParseQuery] takes depends on the key map through
    the presence of 26 keys and, for [min] and [max], through whether the
    value is a number, a string or neither; the values play no other part
    (a key that holds [null] is a key that is present), and the other keys
    none.  So two documents whose key maps agree on that are dispatched
    alike: on either map the body of [ParseQuery] does the same to every
    document, and every test of the cascade gives the same. *)
Theorem ParseQuery_reads_presence input input' tmp tmp' :
  UnmarshalJSON_map input = Ok tmp →
  UnmarshalJSON_map input' = Ok tmp' →
  Forall (λ k, has tmp' k = has tmp k) presence_keys →
  Forall (λ k, has_float64 tmp' k = has_float64 tmp k ∧
               has_string tmp' k = has_string tmp k) typed_keys →
  (∀ doc, ParseQuery_tmp tmp' doc = ParseQuery_tmp tmp doc) ∧
  ParseQuery input' = ParseQuery_tmp tmp input' ∧
  ParseQuery input = ParseQuery_tmp tmp' input ∧
  ∀ T, trigger T tmp' = trigger T tmp.
Proof.
  intros Htmp Htmp' Hkeys Htyped.
  unfold presence_keys in Hkeys. unfold typed_keys in Htyped.
  repeat match goal with
         | H : Forall _ (_ :: _) |- _ => apply Forall_cons in H as [? H]
         end.
  repeat match goal with H : _ ∧ _ |- _ => destruct H end.
  assert (∀ doc, ParseQuery_tmp tmp' doc = ParseQuery_tmp tmp doc) as Hbody.
  { intros doc. unfold Decoder.ParseQuery_tmp. use_keys. reflexivity. }
  split_and!; [done| | |].
  - unfold Decoder.ParseQuery. by rewrite Htmp', Hbody.
  - unfold Decoder.ParseQuery. by rewrite Htmp, Hbody.
  - intros []; cbn [trigger]; use_keys; reflexivity.
Qed.

(** X2. A query that [ParseQuery] returns is the strict decode of the
    whole input, an object, into a struct of the type returned, and the
    test of the step of that type holds of the key map of the input; a
    multi-term phrase is returned only when the input does not decode as a
    phrase. *)
Theorem ParseQuery_returns_strict_decode input q :
  ParseQuery input = Ok q →
  (∃ ms, input = JObject ms) ∧
  UnmarshalJSON_query (query_type q) input = Ok (query_value q) ∧
  (query_type q = MultiPhraseQuery →
   is_ok (UnmarshalJSON_query PhraseQuery input) = false) ∧
  ∃ tmp, UnmarshalJSON_map input = Ok tmp ∧
         trigger (query_type q) tmp = true.
Proof.
  unfold Decoder.ParseQuery.
  destruct (UnmarshalJSON_map input) as [tmp|e] eqn:Htmp; [|done].
  intros H. split.
  { destruct (UnmarshalJSON_map_inv _ _ Htmp) as [[-> ->]|?]; [|done].
    by rewrite ParseQuery_tmp_empty in H. }
  cut (trigger (query_type q) tmp = true ∧
       UnmarshalJSON_query (query_type q) input = Ok (query_value q) ∧
       (query_type q = MultiPhraseQuery →
        is_ok (UnmarshalJSON_query PhraseQuery input) = false)).
  { intros (? & ? & ?). eauto. }
  clear Htmp. revert H. unfold Decoder.ParseQuery_tmp. repeat decide_key.
  all: intros H; decoders H; cbn [query_type query_value trigger];
    use_keys; split_and!; done.
Qed.

(** X3. An error of [ParseQuery] is the error of the generic decode of the
    input into the key map, or the error of the strict decode of the whole
    input into a struct whose step matched, or, no step matching, the
    unknown type error.  The struct is never a phrase: the error of the
    phrase decode is not surfaced. *)
Theorem ParseQuery_error_origin input e :
  ParseQuery input = Err e →
  UnmarshalJSON_map input = Err e ∨
  (∃ tmp T, UnmarshalJSON_map input = Ok tmp ∧ trigger T tmp = true ∧
            T ≠ PhraseQuery ∧ UnmarshalJSON_query T input = Err e) ∨
  (∃ tmp, UnmarshalJSON_map input = Ok tmp ∧ (∀ T, trigger T tmp = false) ∧
          e = "unknown query type").
Proof.
  unfold Decoder.ParseQuery.
  destruct (UnmarshalJSON_map input) as [tmp|e0] eqn:Htmp;
    [|intros [= <-]; by left].
  intros H. right.
  cut ((∃ T, trigger T tmp = true ∧ T ≠ PhraseQuery ∧
             UnmarshalJSON_query T input = Err e) ∨
       ((∀ T, trigger T tmp = false) ∧ e = "unknown query type")).
  { intros [(T & ? & ? & ?)|[? ?]]; [left|right]; eauto 10. }
  clear Htmp. revert H. unfold Decoder.ParseQuery_tmp. repeat decide_key.
  all: intros H; decoders H;
    first
      [ right; split; [|reflexivity]; intros []; cbn [trigger]; use_keys;
        reflexivity
      | left;
        match goal with
        | H : UnmarshalJSON_query ?T _ = Err ?e
          |- ∃ _, _ ∧ _ ∧ _ = Err ?e =>
            exists T; cbn [trigger]; use_keys; split_and!; done
        end ].
Qed.

(** X4. [ParseQuery] returns a query for an object only.  On [null] the
    key map is the nil map, no step matches and the error is the unknown
    type error; on a document of another kind the generic decode fails
    with a type error that names the kind, and no struct decoder is
    consulted. *)
Theorem ParseQuery_non_object input :
  (∀ ms, input ≠ JObject ms) →
  (∀ q, ParseQuery input ≠ Ok q) ∧
  (input = JNull → ParseQuery input = Err "unknown query type") ∧
  (input ≠ JNull →
   ParseQuery input =
     Err ("json: cannot unmarshal " +:+ json_kind input +:+
          " into Go value of type map[string]interface {}")).
Proof.
  intros Hobj.
  destruct input as [|b|lit|s|xs|ms]; [..|by destruct (Hobj ms)].
  all: split_and!;
    [ intros q H; vm_compute in H; discriminate H
    | intros H; first [discriminate H|reflexivity]
    | intros H; first [by destruct H|reflexivity] ].
Qed.

(** X5. The generic decode of the input into the key map comes before any
    dispatch and decodes every member: a member that it rejects, were it
    one no query type reads, makes [ParseQuery] fail with the error of the
    first such member, whatever the struct decoders would make of the
    input.  A number that [float64] cannot hold is such a member. *)
Theorem ParseQuery_rejects_undecodable_member ms1 k x ms2 e :
  Forall (λ kx, is_ok (UnmarshalJSON_any kx.2) = true) ms1 →
  UnmarshalJSON_any x = Err e →
  ParseQuery (JObject (ms1 ++ (k, x) :: ms2)) = Err e ∧
  (∀ lit, x = JNumber lit →
     ParseFloat lit = None ∧
     e = "json: cannot unmarshal number " +:+ lit +:+
         " into Go value of type float64").
Proof.
  intros Hok Hx. split.
  - unfold Decoder.ParseQuery. simpl.
    by rewrite (object_members_err _ _ _ _ _ _ _ Hok Hx).
  - intros lit ->. simpl in Hx. destruct (ParseFloat lit); by simplify_eq.
Qed.

End facts.

(** *** Examples on the instance *)

Local Abbreviation demo_map := (UnmarshalJSON_map Z demo_ParseFloat).
Local Abbreviation demo_as :=
  (unmarshal_as demo_value demo_UnmarshalJSON_query).

Lemma ParseQuery_reads_presence_witness :
  demo_ParseQuery
    (JObject [("match", JNull); ("boost", JNumber "2");
              ("min", JArray [JNumber "1"])])
  = demo_as MatchQuery
      (JObject [("match", JNull); ("boost", JNumber "2");
                ("min", JArray [JNumber "1"])]).
Proof.
  refine (proj1 (proj2 (ParseQuery_reads_presence Z demo_ParseFloat demo_value
            demo_UnmarshalJSON_query
            (JObject [("match", JString "x")])
            (JObject [("match", JNull); ("boost", JNumber "2");
                      ("min", JArray [JNumber "1"])])
            (<["match":=AString "x"]> ∅)
            (<["min":=ASlice [AFloat64 1%Z]]>
               (<["boost":=AFloat64 2%Z]> (<["match":=ANil]> ∅)))
            eq_refl eq_refl _ _))).
  - repeat constructor.
  - repeat constructor.
Defined.

Lemma ParseQuery_returns_strict_decode_witness :
  demo_UnmarshalJSON_query MultiPhraseQuery
    (JObject [("terms", JArray [JArray [JString "a"; JString "b"];
                                JArray [JString "c"]])])
  = Ok (VMultiPhrase [["a"; "b"]; ["c"]]) ∧
  is_ok (demo_UnmarshalJSON_query PhraseQuery
           (JObject [("terms", JArray [JArray [JString "a"; JString "b"];
                                       JArray [JString "c"]])])) = false.
Proof.
  destruct (ParseQuery_returns_strict_decode Z demo_ParseFloat demo_value
              demo_UnmarshalJSON_query
              (JObject [("terms", JArray [JArray [JString "a"; JString "b"];
                                          JArray [JString "c"]])])
              (mkQuery MultiPhraseQuery (VMultiPhrase [["a"; "b"]; ["c"]]))
              eq_refl) as (_ & Hdec & Hphrase & _).
  split; [exact Hdec|exact (Hphrase eq_refl)].
Defined.

Lemma ParseQuery_error_origin_witness :
  demo_map (JObject [("terms", JNumber "5")])
    = Err ("json: cannot unmarshal number into Go struct field " +:+
           "MultiPhraseQuery.terms of type [][]string") ∨
  (∃ tmp T, demo_map (JObject [("terms", JNumber "5")]) = Ok tmp ∧
            trigger T tmp = true ∧ T ≠ PhraseQuery ∧
            demo_UnmarshalJSON_query T (JObject [("terms", JNumber "5")])
            = Err ("json: cannot unmarshal number into Go struct field " +:+
                   "MultiPhraseQuery.terms of type [][]string")) ∨
  (∃ tmp, demo_map (JObject [("terms", JNumber "5")]) = Ok tmp ∧
          (∀ T, trigger T tmp = false) ∧
          "json: cannot unmarshal number into Go struct field " +:+
          "MultiPhraseQuery.terms of type [][]string" = "unknown query type").
Proof.
  exact (ParseQuery_error_origin Z demo_ParseFloat demo_value
           demo_UnmarshalJSON_query (JObject [("terms", JNumber "5")]) _
           eq_refl).
Defined.

Lemma ParseQuery_non_object_witness :
  demo_ParseQuery (JArray [JObject [("match", JString "x")]])
  = Err "json: cannot unmarshal array into Go value of type map[string]interface {}".
Proof.
  refine (proj2 (proj2 (ParseQuery_non_object Z demo_ParseFloat demo_value
            demo_UnmarshalJSON_query
            (JArray [JObject [("match", JString "x")]]) _)) _).
  - intros ms. discriminate.
  - discriminate.
Defined.

Lemma ParseQuery_rejects_undecodable_member_witness :
  demo_ParseQuery
    (JObject [("match", JString "x"); ("boost", JNumber "1e999");
              ("field", JString "title")])
  = Err "json: cannot unmarshal number 1e999 into Go value of type float64".
Proof.
  refine (proj1 (ParseQuery_rejects_undecodable_member Z demo_ParseFloat
            demo_value demo_UnmarshalJSON_query
            [("match", JString "x")] "boost" (JNumber "1e999")
            [("field", JString "title")] _ _ eq_refl)).
  repeat constructor.
Defined.

End DispatchFacts.

(** * Further properties of the pre-search decoder *)

Module PreSearchFacts.

Import Decoder.

Section facts.

Context (KnnPreSearchDataKey : string) (DocumentMatch : Type).
Context (UnmarshalJSON_DocumentMatch : json → result DocumentMatch).

Local Abbreviation DocumentMatch_elems :=
  (DocumentMatch_elems DocumentMatch UnmarshalJSON_DocumentMatch).
Local Abbreviation UnmarshalJSON_matches :=
  (UnmarshalJSON_matches DocumentMatch UnmarshalJSON_DocumentMatch).
Local Abbreviation presearch_range :=
  (presearch_range KnnPreSearchDataKey DocumentMatch
     UnmarshalJSON_DocumentMatch).
Local Abbreviation ParsePreSearchData :=
  (ParsePreSearchData KnnPreSearchDataKey DocumentMatch
     UnmarshalJSON_DocumentMatch).
Local Abbreviation presearch_loop :=
  (DecoderFacts.presearch_loop KnnPreSearchDataKey DocumentMatch
     UnmarshalJSON_DocumentMatch).

(** Entries of other keys leave [rv] as it is. *)
Lemma presearch_range_absent kvs rv :
  KnnPreSearchDataKey ∉ kvs.*1 → presearch_range kvs rv = Ok rv.
Proof.
  revert rv. induction kvs as [|[k v] kvs IH]; intros rv Hk; simpl; [done|].
  apply not_elem_of_cons in Hk as [Hne Hk].
  rewrite decide_False by done. by apply IH.
Qed.

(** The entry of the reserved key, which a map holds once at most, is the
    one that counts, wherever it comes in the order. *)
Lemma presearch_range_present kvs rv v :
  NoDup (kvs.*1) → (KnnPreSearchDataKey, v) ∈ kvs →
  presearch_range kvs rv =
    match
      match v with
      | Some raw => UnmarshalJSON_matches raw
      | None => Ok None
      end
    with
    | Err e => Err e
    | Ok value =>
        Ok (Some (<[KnnPreSearchDataKey:=value]>
                    (match rv with None => ∅ | Some m => m end)))
    end.
Proof.
  revert rv. induction kvs as [|[k v0] kvs IH]; intros rv Hnd Hin.
  { by apply elem_of_nil in Hin. }
  simpl in *. apply NoDup_cons in Hnd as [Hk Hnd].
  apply elem_of_cons in Hin as [Heq|Hin].
  - injection Heq as <- <-. rewrite decide_True by done.
    destruct (match v with Some _ => _ | None => _ end); [|done].
    cbn zeta. by rewrite presearch_range_absent.
  - rewrite decide_False; [by apply IH|].
    intros ->. apply Hk, list_elem_of_fmap. by exists (KnnPreSearchDataKey, v).
Qed.

(** The last member of a name, in an object that has one. *)
Lemma last_member (ms : list (string * json)) k :
  k ∈ ms.*1 → ∃ ms1 x ms2, ms = ms1 ++ (k, x) :: ms2 ∧ k ∉ ms2.*1.
Proof.
  induction ms as [|[k0 x0] ms IH]; intros Hin.
  { by apply elem_of_nil in Hin. }
  destruct (decide (k ∈ ms.*1)) as [Hk|Hk].
  - destruct (IH Hk) as (ms1 & x & ms2 & -> & ?).
    by exists ((k0, x0) :: ms1), x, ms2.
  - simpl in Hin. apply elem_of_cons in Hin as [->|?]; [|done].
    by exists [], x0, ms.
Qed.

(** A list of candidates is decoded element by element: [null] gives the
    nil pointer and any other element the struct it decodes to. *)
Lemma DocumentMatch_elems_ok xs ds :
  DocumentMatch_elems xs = Ok ds →
  Forall2 (λ y d, match y with
                  | JNull => d = None
                  | _ => ∃ dm, UnmarshalJSON_DocumentMatch y = Ok dm ∧
                               d = Some dm
                  end) xs ds.
Proof.
  revert ds. induction xs as [|y xs IH]; intros ds H; simpl in H.
  { simplify_eq. constructor. }
  destruct y;
    try (destruct (UnmarshalJSON_DocumentMatch _) as [dm|] eqn:Hy;
         [|done]; simpl in H);
    destruct (Decoder.DocumentMatch_elems _ _ xs) as [ds'|] eqn:Hxs;
    simplify_eq/=; constructor; eauto.
Qed.

(** The first element that does not decode ends the decode of the list. *)
Lemma DocumentMatch_elems_err xs1 y xs2 e :
  Forall (λ y, y = JNull ∨ is_ok (UnmarshalJSON_DocumentMatch y) = true) xs1 →
  y ≠ JNull → UnmarshalJSON_DocumentMatch y = Err e →
  DocumentMatch_elems (xs1 ++ y :: xs2) = Err e.
Proof.
  intros Hok Hy He. induction Hok as [|y0 xs1 H0 _ IH]; simpl.
  { destruct y; try done; by rewrite He. }
  rewrite IH. destruct H0 as [->|H0]; [done|].
  destruct y0; try done; by destruct (UnmarshalJSON_DocumentMatch _).
Qed.

(** X6. Go ranges over a map in an order it leaves unspecified.  In
    whatever order the entries of the decoded object come, the loop of
    [ParsePreSearchData] returns the same: what the function is defined to
    return. *)
Theorem ParsePreSearchData_any_order input tmp kvs :
  UnmarshalJSON_rawmap input = Ok tmp →
  kvs ≡ₚ map_to_list tmp →
  presearch_range kvs None = ParsePreSearchData input ∧
  ∀ kvs', kvs' ≡ₚ kvs → presearch_range kvs' None = presearch_range kvs None.
Proof.
  intros Htmp Hperm.
  assert (∀ kvs0, kvs0 ≡ₚ map_to_list tmp →
            presearch_range kvs0 None = ParsePreSearchData input) as Hany.
  { clear kvs Hperm. intros kvs Hperm.
    unfold Decoder.ParsePreSearchData. rewrite Htmp, presearch_loop.
    assert (NoDup (kvs.*1)) as Hnd.
    { rewrite Hperm. apply NoDup_fst_map_to_list. }
    destruct (tmp !! KnnPreSearchDataKey) as [v|] eqn:Hk.
    - rewrite (presearch_range_present _ _ v Hnd).
      + destruct (match v with Some _ => _ | None => _ end); [|done].
        by rewrite insert_empty.
      + rewrite Hperm. by apply elem_of_map_to_list.
    - apply presearch_range_absent. intros Hin.
      apply list_elem_of_fmap in Hin as ([k v] & Hkv & Hin). simpl in Hkv.
      subst k. rewrite Hperm in Hin. apply elem_of_map_to_list in Hin.
      congruence. }
  split; [by apply Hany|].
  intros kvs' Hperm'. rewrite !Hany; [done..|]. by rewrite Hperm'.
Qed.

(** X7. The reserved key is read from its last member and from nothing
    else: the result is the decode of the value of that member as a list
    of candidates, an error of that decode being the error returned and
    its success a map that holds the reserved key alone.  An array gives as
    many candidates as it has elements, in their order, [null] elements as
    nil pointers; the first element that does not decode gives the error;
    a value that is neither [null] nor an array is a type error. *)
Theorem ParsePreSearchData_payload ms1 x ms2 :
  KnnPreSearchDataKey ∉ ms2.*1 →
  ParsePreSearchData (JObject (ms1 ++ (KnnPreSearchDataKey, x) :: ms2)) =
    rmap (λ value, Some {[KnnPreSearchDataKey := value]})
         (UnmarshalJSON_matches x) ∧
  (∀ xs ds, x = JArray xs → DocumentMatch_elems xs = Ok ds →
     ParsePreSearchData (JObject (ms1 ++ (KnnPreSearchDataKey, x) :: ms2)) =
       Ok (Some {[KnnPreSearchDataKey := Some ds]}) ∧
     length ds = length xs ∧
     Forall2 (λ y d, match y with
                     | JNull => d = None
                     | _ => ∃ dm, UnmarshalJSON_DocumentMatch y = Ok dm ∧
                                  d = Some dm
                     end) xs ds) ∧
  (∀ xs1 y xs2 e, x = JArray (xs1 ++ y :: xs2) →
     Forall (λ y, y = JNull ∨ is_ok (UnmarshalJSON_DocumentMatch y) = true)
            xs1 →
     y ≠ JNull → UnmarshalJSON_DocumentMatch y = Err e →
     ParsePreSearchData (JObject (ms1 ++ (KnnPreSearchDataKey, x) :: ms2)) =
       Err e) ∧
  (x ≠ JNull → (∀ xs, x ≠ JArray xs) →
     ParsePreSearchData (JObject (ms1 ++ (KnnPreSearchDataKey, x) :: ms2)) =
       Err ("json: cannot unmarshal " +:+ json_kind x +:+
            " into Go value of type []*search.DocumentMatch")).
Proof.
  intros Hlast.
  assert (ParsePreSearchData
            (JObject (ms1 ++ (KnnPreSearchDataKey, x) :: ms2)) =
          rmap (λ value, Some {[KnnPreSearchDataKey := value]})
               (UnmarshalJSON_matches x)) as ->.
  { unfold Decoder.ParsePreSearchData. simpl.
    rewrite presearch_loop, DecoderFacts.raw_members_last by done.
    by destruct (UnmarshalJSON_matches x). }
  split_and!; [done| | |].
  - intros xs ds -> Hds. simpl. rewrite Hds. split; [done|].
    apply DocumentMatch_elems_ok in Hds.
    split; [symmetry; by eapply Forall2_length|done].
  - intros xs1 y xs2 e -> Hok Hy He. simpl.
    by rewrite (DocumentMatch_elems_err _ _ _ _ Hok Hy He).
  - intros Hnull Harr. destruct x; try done. by destruct (Harr xs).
Qed.

(** X8. What [ParsePreSearchData] returns without error is the nil map or
    a map that holds the reserved key and no other: never a key of the
    input other than the reserved one, and never an allocated map without
    entry.  On an object the nil map is returned exactly when no member has
    the reserved key. *)
Theorem ParsePreSearchData_only_reserved_key input m :
  ParsePreSearchData input = Ok m →
  (m = None ∨ ∃ value, m = Some {[KnnPreSearchDataKey := value]}) ∧
  m ≠ Some ∅ ∧
  dom (gomap_entries m) ⊆ ({[KnnPreSearchDataKey]} : gset string) ∧
  (∀ ms, input = JObject ms → (m = None ↔ KnnPreSearchDataKey ∉ ms.*1)).
Proof.
  unfold Decoder.ParsePreSearchData.
  destruct (UnmarshalJSON_rawmap input) as [tmp|] eqn:Htmp; [|done].
  rewrite presearch_loop.
  destruct (tmp !! KnnPreSearchDataKey) as [v|] eqn:Hk.
  - destruct (match v with Some _ => _ | None => _ end) as [value|];
      [|done].
    intros [= <-]. split_and!.
    + right. eauto.
    + intros Heq. apply (map_non_empty_singleton KnnPreSearchDataKey value).
      congruence.
    + simpl. by rewrite dom_singleton_L.
    + intros ms ->. split; [done|]. intros Hout. simpl in Htmp.
      injection Htmp as <-.
      by rewrite DecoderFacts.raw_members_other, lookup_empty in Hk.
  - intros [= <-]. split_and!; [by left|done|simpl; set_solver +|].
    intros ms ->. split; [intros _|done]. intros Hin.
    destruct (last_member _ _ Hin) as (l1 & x & l2 & -> & Hlast).
    simpl in Htmp. injection Htmp as <-.
    by rewrite DecoderFacts.raw_members_last in Hk.
Qed.

(** X9. [ParsePreSearchData] fails in two ways only: on a document that
    is neither an object nor [null], with the type error of the generic
    decode, and on an object whose reserved key, in its last member, holds
    a value that does not decode as a list of candidates, with the error of
    that decode.  The members of the other keys are never decoded: what
    they hold cannot make the call fail. *)
Theorem ParsePreSearchData_error_origin input e :
  ParsePreSearchData input = Err e →
  ((∀ ms, input ≠ JObject ms) ∧ input ≠ JNull ∧
   e = ("json: cannot unmarshal " +:+ json_kind input +:+
        " into Go value of type map[string]json.RawMessage")) ∨
  (∃ ms1 x ms2,
     input = JObject (ms1 ++ (KnnPreSearchDataKey, x) :: ms2) ∧
     (KnnPreSearchDataKey ∉ ms2.*1) ∧ x ≠ JNull ∧
     UnmarshalJSON_matches x = Err e).
Proof.
  unfold Decoder.ParsePreSearchData.
  destruct input as [|b|lit|s|xs|ms]; simpl;
    try (intros [= <-]; left; by split_and!).
  rewrite presearch_loop. intros H. right.
  destruct (decide (KnnPreSearchDataKey ∈ ms.*1)) as [Hin|Hout].
  - destruct (last_member _ _ Hin) as (ms1 & x & ms2 & -> & Hlast).
    rewrite DecoderFacts.raw_members_last in H by done.
    exists ms1, x, ms2. split_and!; [done..| |].
    + intros ->. by simpl in H.
    + destruct (UnmarshalJSON_matches x); [done|]. by injection H as ->.
  - by rewrite DecoderFacts.raw_members_other, lookup_empty in H.
Qed.

End facts.

(** *** Examples on the instance *)

Lemma ParsePreSearchData_any_order_witness :
  presearch_range demo_KnnPreSearchDataKey demo_DocumentMatch
    demo_UnmarshalJSON_DocumentMatch
    (reverse (map_to_list
       (raw_members [("size", JNumber "10");
                     (demo_KnnPreSearchDataKey, JArray []);
                     ("from", JNull)] ∅))) None
  = demo_ParsePreSearchData
      (JObject [("size", JNumber "10");
                (demo_KnnPreSearchDataKey, JArray []);
                ("from", JNull)]).
Proof.
  refine (proj1 (ParsePreSearchData_any_order demo_KnnPreSearchDataKey
            demo_DocumentMatch demo_UnmarshalJSON_DocumentMatch
            (JObject [("size", JNumber "10");
                      (demo_KnnPreSearchDataKey, JArray []);
                      ("from", JNull)]) _ _ eq_refl _)).
  apply reverse_Permutation.
Defined.

Lemma ParsePreSearchData_payload_witness :
  demo_ParsePreSearchData
    (JObject [(demo_KnnPreSearchDataKey, JString "stale");
              (demo_KnnPreSearchDataKey,
               JArray [JObject [("id", JString "a"); ("score", JNumber "3")];
                       JNull]);
              ("size", JNumber "10")])
  = Ok (Some {[demo_KnnPreSearchDataKey :=
                 Some [Some {| demo_id := "a"; demo_score := 3 |}; None]]}).
Proof.
  refine (proj1 (proj1 (proj2 (ParsePreSearchData_payload
            demo_KnnPreSearchDataKey demo_DocumentMatch
            demo_UnmarshalJSON_DocumentMatch
            [(demo_KnnPreSearchDataKey, JString "stale")]
            (JArray [JObject [("id", JString "a"); ("score", JNumber "3")];
                     JNull])
            [("size", JNumber "10")] _)) _ _ eq_refl eq_refl)).
  intros Hin. apply list_elem_of_singleton in Hin. discriminate.
Defined.

Lemma ParsePreSearchData_only_reserved_key_witness :
  dom (gomap_entries
         (Some {[demo_KnnPreSearchDataKey := None]}
          : gomap (slice (option demo_DocumentMatch))))
  ⊆ ({[demo_KnnPreSearchDataKey]} : gset string).
Proof.
  refine (proj1 (proj2 (proj2 (ParsePreSearchData_only_reserved_key
            demo_KnnPreSearchDataKey demo_DocumentMatch
            demo_UnmarshalJSON_DocumentMatch
            (JObject [("size", JNumber "10");
                      (demo_KnnPreSearchDataKey, JNull)])
            (Some {[demo_KnnPreSearchDataKey := None]}) _)))).
  vm_compute. reflexivity.
Defined.

Lemma ParsePreSearchData_error_origin_witness :
  ∃ ms1 x ms2,
    JObject [("size", JObject [("deep", JNumber "1e999")]);
             (demo_KnnPreSearchDataKey, JString "none")]
    = JObject (ms1 ++ (demo_KnnPreSearchDataKey, x) :: ms2) ∧
    UnmarshalJSON_matches demo_DocumentMatch demo_UnmarshalJSON_DocumentMatch x
    = Err ("json: cannot unmarshal string into Go value of type " +:+
           "[]*search.DocumentMatch").
Proof.
  destruct (ParsePreSearchData_error_origin demo_KnnPreSearchDataKey
              demo_DocumentMatch demo_UnmarshalJSON_DocumentMatch
              (JObject [("size", JObject [("deep", JNumber "1e999")]);
                        (demo_KnnPreSearchDataKey, JString "none")])
              ("json: cannot unmarshal string into Go value of type " +:+
               "[]*search.DocumentMatch"))
    as [(Hobj & _)|(ms1 & x & ms2 & Heq & _ & _ & Hx)].
  - vm_compute. reflexivity.
  - by destruct (Hobj _ eq_refl).
  - by exists ms1, x, ms2.
Defined.

End PreSearchFacts.

(** * Properties of the expansion in stores of any shape *)

Module StoreFacts.

Import Expander.

Section facts.

Context {Fields Leaf : Type}.
Context (parseQuerySyntax : string → result (tree Fields Leaf)).

Local Abbreviation heap := (gmap loc (node Fields Leaf)).
Local Abbreviation expand := (expand parseQuerySyntax).

Implicit Types (h : heap) (q : Query) (l : loc) (x : node Fields Leaf).

(** *** Stores of any shape

    Nothing is assumed here of the store: a struct may be the child of
    several, or of itself, and a pointer may designate no struct. *)

Lemma keeps_refl h : keeps h h.
Proof. intros l x ?. eauto. Qed.

Lemma keeps_trans h1 h2 h3 : keeps h1 h2 → keeps h2 h3 → keeps h1 h3.
Proof.
  intros H12 H23 l x Hl. destruct (H12 _ _ Hl) as (x' & Hl' & Hs).
  destruct (H23 _ _ Hl') as (x'' & ? & Hs'). exists x''.
  split; [done|congruence].
Qed.

Lemma keeps_alter h l (g : node Fields Leaf → node Fields Leaf) :
  (∀ x, skeleton (g x) = skeleton x) → keeps h (alter g l h).
Proof.
  intros Hg l' x Hl. destruct (decide (l' = l)) as [->|].
  - exists (g x). by rewrite lookup_alter_eq, Hl.
  - exists x. by rewrite lookup_alter_ne.
Qed.

Lemma keeps_set_Conjuncts h l c : keeps h (set_Conjuncts l c h).
Proof. apply keeps_alter. by intros []. Qed.

Lemma keeps_set_Disjuncts h l c : keeps h (set_Disjuncts l c h).
Proof. apply keeps_alter. by intros []. Qed.

Lemma keeps_set_Must h l c : keeps h (set_Must l c h).
Proof. apply keeps_alter. by intros []. Qed.

Lemma keeps_set_Should h l c : keeps h (set_Should l c h).
Proof. apply keeps_alter. by intros []. Qed.

Lemma keeps_set_MustNot h l c : keeps h (set_MustNot l c h).
Proof. apply keeps_alter. by intros []. Qed.

(** The structs a parser builds are new ones. *)
Lemma keeps_alloc (t : tree Fields Leaf) h : keeps h (alloc t h).2.
Proof.
  destruct (alloc t h) as [q h'] eqn:Hal.
  destruct (ExpanderFacts.alloc_spec t _ _ _ Hal) as (fp & _ & _ & _ & Hsame).
  intros l x Hl. exists x. split; [|done].
  rewrite Hsame; [done|]. apply elem_of_dom. eauto.
Qed.

(** A struct that is no composite is its own skeleton. *)
Lemma skeleton_leaf x x' :
  match x with
  | QueryStringQuery _ | OtherQuery _ => True
  | _ => False
  end →
  skeleton x' = skeleton x → x' = x.
Proof. destruct x, x'; simpl; intros ? ?; by simplify_eq. Qed.

Lemma expandSlice_keeps n :
  (∀ q h r h', expand n q h = Some (r, h') → keeps h h') →
  ∀ qs acc h r h',
    expandSlice (expand n) qs acc h = Some (r, h') → keeps h h'.
Proof.
  intros IH. induction qs as [|q qs IHqs]; intros acc h r h' Hs; simpl in Hs.
  { simplify_eq. apply keeps_refl. }
  destruct (expand n q h) as [[[e|err] h1]|] eqn:Hq; simplify_eq.
  - eapply keeps_trans; [by eapply IH|by eapply IHqs].
  - by eapply IH.
Qed.

Lemma expand_keeps n : ∀ q h r h', expand n q h = Some (r, h') → keeps h h'.
Proof.
  induction n as [|n IH]; intros q h r h' Hq; [done|].
  destruct q as [l|]; [|simpl in Hq; simplify_eq; apply keeps_refl].
  destruct (h !! l) as [[text|cs rest|ds rest|m s mn rest|v]|] eqn:Hl.
  - rewrite (ExpanderFacts.expand_query_string _ _ _ _ _ Hl) in Hq.
    destruct (parseQuerySyntax text) as [t|e].
    + eapply keeps_trans; [apply (keeps_alloc t h)|by eapply IH].
    + simplify_eq. apply keeps_refl.
  - rewrite (ExpanderFacts.expand_conjunction _ _ _ _ _ _ Hl) in Hq.
    destruct (expandSlice _ _ _ _) as [[[children|e] h1]|] eqn:Hs;
      simplify_eq.
    + eapply keeps_trans;
        [by eapply (expandSlice_keeps n IH)|apply keeps_set_Conjuncts].
    + by eapply (expandSlice_keeps n IH).
  - rewrite (ExpanderFacts.expand_disjunction _ _ _ _ _ _ Hl) in Hq.
    destruct (expandSlice _ _ _ _) as [[[children|e] h1]|] eqn:Hs;
      simplify_eq.
    + eapply keeps_trans;
        [by eapply (expandSlice_keeps n IH)|apply keeps_set_Disjuncts].
    + by eapply (expandSlice_keeps n IH).
  - rewrite (ExpanderFacts.expand_boolean _ _ _ _ _ _ _ _ Hl) in Hq.
    destruct (expand n m h) as [[[m'|e] h1]|] eqn:H1; simplify_eq;
      [|eapply keeps_trans; [by eapply IH|apply keeps_set_Must]].
    cbn zeta in Hq.
    assert (keeps h (set_Must l m' h1)) as K1
      by (eapply keeps_trans; [by eapply IH|apply keeps_set_Must]).
    destruct (expand n _ (set_Must l m' h1)) as [[[s'|e] h2]|] eqn:H2;
      simplify_eq;
      [|eapply keeps_trans;
          [exact K1|eapply keeps_trans; [by eapply IH|apply keeps_set_Should]]].
    cbn zeta in Hq.
    assert (keeps h (set_Should l s' h2)) as K2.
    { eapply keeps_trans;
        [exact K1|eapply keeps_trans; [by eapply IH|apply keeps_set_Should]]. }
    destruct (expand n _ (set_Should l s' h2)) as [[[mn'|e] h3]|] eqn:H3;
      simplify_eq;
      (eapply keeps_trans;
         [exact K2|eapply keeps_trans; [by eapply IH|apply keeps_set_MustNot]]).
  - rewrite ExpanderFacts.expand_other in Hq by by rewrite Hl.
    simplify_eq. apply keeps_refl.
  - rewrite ExpanderFacts.expand_other in Hq by by rewrite Hl.
    simplify_eq. apply keeps_refl.
Qed.

(** X10. Whatever the shape of the store and whether it succeeds or fails,
    an expansion removes no struct, changes the type of none, and assigns
    no field but the children of a conjunction, a disjunction or a boolean:
    the other fields of a composite are as they were, and a query string
    struct or a struct of another query type is untouched, so that a query
    string that has been expanded is still there, with its text, for who
    holds a pointer to it. *)
Theorem expand_assigns_children_only n q h r h' :
  expand n q h = Some (r, h') →
  dom h ⊆ dom h' ∧
  (∀ l x, h !! l = Some x →
     ∃ x', h' !! l = Some x' ∧ skeleton x' = skeleton x) ∧
  (∀ l text, h !! l = Some (QueryStringQuery text) →
     h' !! l = Some (QueryStringQuery text)) ∧
  (∀ l v, h !! l = Some (OtherQuery v) → h' !! l = Some (OtherQuery v)).
Proof.
  intros Hq. pose proof (expand_keeps _ _ _ _ _ Hq) as Hk. split_and!.
  - intros l [x Hl]%elem_of_dom. destruct (Hk _ _ Hl) as (x' & Hl' & _).
    apply elem_of_dom. eauto.
  - exact Hk.
  - intros l text Hl. destruct (Hk _ _ Hl) as (x' & -> & Hs).
    f_equal. by apply skeleton_leaf.
  - intros l v Hl. destruct (Hk _ _ Hl) as (x' & -> & Hs).
    f_equal. by apply skeleton_leaf.
Qed.

(** X11. Whatever the shape of the store, an expansion fails only where the
    parser does: its error is the message "could not parse '<text>':
    <message>" made of a text the parser rejects with that message, the
    text of a query string struct that is in the store the expansion
    leaves.  The message is wrapped once, at the query string, and not
    again by the composites above it; with a parser that accepts every
    text no expansion fails. *)
Theorem expand_fails_where_parser_fails n q h e h' :
  expand n q h = Some (Err e, h') →
  ∃ text err l,
    parseQuerySyntax text = Err err ∧
    e = "could not parse '" +:+ text +:+ "': " +:+ err ∧
    h' !! l = Some (QueryStringQuery text).
Proof.
  revert q h e h'. induction n as [|n IH]; intros q h e h' Hq; [done|].
  assert (Hslice : ∀ qs acc h0,
            expandSlice (expand n) qs acc h0 = Some (Err e, h') →
            ∃ text err l,
              parseQuerySyntax text = Err err ∧
              e = "could not parse '" +:+ text +:+ "': " +:+ err ∧
              h' !! l = Some (QueryStringQuery text)).
  { intros qs acc h0 Hs.
    destruct (ExpanderFacts.expandSlice_err _ _ _ _ _ _ _ Hs)
      as (qs1 & q1 & qs2 & es & h1 & _ & _ & Hq1).
    by eapply IH. }
  assert (Hset : ∀ h0 h1 q0,
            expand n q0 h0 = Some (Err e, h1) → keeps h1 h' →
            ∃ text err l,
              parseQuerySyntax text = Err err ∧
              e = "could not parse '" +:+ text +:+ "': " +:+ err ∧
              h' !! l = Some (QueryStringQuery text)).
  { intros h0 h1 q0 Hq0 Hk.
    destruct (IH _ _ _ _ Hq0) as (text & err & l & Hp & He & Hl).
    destruct (Hk _ _ Hl) as (x' & Hl' & Hs).
    exists text, err, l. split_and!; [done..|].
    rewrite Hl'. f_equal. by apply skeleton_leaf. }
  destruct q as [l|]; [|done].
  destruct (h !! l) as [[text|cs rest|ds rest|m s mn rest|v]|] eqn:Hl.
  - rewrite (ExpanderFacts.expand_query_string _ _ _ _ _ Hl) in Hq.
    destruct (parseQuerySyntax text) as [t|err] eqn:Hp.
    + by eapply IH.
    + simplify_eq. by exists text, err, l.
  - rewrite (ExpanderFacts.expand_conjunction _ _ _ _ _ _ Hl) in Hq.
    destruct (expandSlice _ _ _ _) as [[[children|e0] h1]|] eqn:Hs;
      simplify_eq.
    by eapply Hslice.
  - rewrite (ExpanderFacts.expand_disjunction _ _ _ _ _ _ Hl) in Hq.
    destruct (expandSlice _ _ _ _) as [[[children|e0] h1]|] eqn:Hs;
      simplify_eq.
    by eapply Hslice.
  - rewrite (ExpanderFacts.expand_boolean _ _ _ _ _ _ _ _ Hl) in Hq.
    destruct (expand n m h) as [[[m'|e0] h1]|] eqn:H1; simplify_eq;
      [|eapply Hset; [exact H1|apply keeps_set_Must]].
    cbn zeta in Hq.
    destruct (expand n _ (set_Must l m' h1)) as [[[s'|e0] h2]|] eqn:H2;
      simplify_eq;
      [|eapply Hset; [exact H2|apply keeps_set_Should]].
    cbn zeta in Hq.
    destruct (expand n _ (set_Should l s' h2)) as [[[mn'|e0] h3]|] eqn:H3;
      simplify_eq.
    eapply Hset; [exact H3|apply keeps_set_MustNot].
  - rewrite ExpanderFacts.expand_other in Hq by by rewrite Hl. done.
  - rewrite ExpanderFacts.expand_other in Hq by by rewrite Hl. done.
Qed.

(** The root of a tree is one of its structs. *)
Lemma repr_root h (t : tree Fields Leaf) l fp :
  repr h t (Some l) fp → l ∈ fp.
Proof.
  destruct t; simpl; intros Hr;
    repeat match type of Hr with
           | ∃ _, _ => let x := fresh in destruct Hr as [x Hr]
           | _ ∧ _ => let H' := fresh in destruct Hr as [H' Hr]
           end; simplify_eq; set_solver +.
Qed.

(** X12. Expanding a query string builds anew: whatever the shape of the
    store, no struct that was in the store is assigned, the query string
    itself included, and what is returned on success is nil or a pointer
    to a struct that was not in the store, the root of a tree without
    query string made of such structs only.  So the caller has to use
    what is returned: the query it passed is as it was. *)
Theorem expand_query_string_builds_anew n h l text r h' :
  h !! l = Some (QueryStringQuery text) →
  expand n (Some l) h = Some (r, h') →
  (∀ l0, l0 ∈ dom h → h' !! l0 = h !! l0) ∧
  (∀ q', r = Ok q' →
     q' ≠ Some l ∧
     ∃ t' fp', repr h' t' q' fp' ∧ pure t' = true ∧ fp' ## dom h).
Proof.
  intros Hl Hq. destruct n as [|n]; [done|].
  rewrite (ExpanderFacts.expand_query_string _ _ _ _ _ Hl) in Hq.
  destruct (parseQuerySyntax text) as [t0|err] eqn:Hp;
    [|simplify_eq; split; [done|by intros q' [=]]].
  destruct (alloc t0 h) as [p h1] eqn:Hal. cbn [fst snd] in Hq.
  destruct (ExpanderFacts.alloc_spec t0 _ _ _ Hal)
    as (f0 & Hr0 & Hd0 & Hdom0 & Hsame0).
  assert (frame h1 f0 h') as Hfr.
  { destruct r as [q'|e].
    - by destruct (ExpanderFacts.expand_ok_inv _ _ _ _ _ _ _ _ Hr0 Hq)
        as (_ & _ & _ & _ & _ & ? & _).
    - by destruct (ExpanderFacts.expand_err_inv _ _ _ _ _ _ _ _ Hr0 Hq). }
  split.
  - intros l0 Hl0. rewrite (proj2 Hfr); [by apply Hsame0| |].
    + set_solver +Hl0 Hdom0.
    + set_solver +Hl0 Hd0.
  - intros q' ->.
    destruct (ExpanderFacts.expand_ok_inv _ _ _ _ _ _ _ _ Hr0 Hq)
      as (t' & fp' & Hs & Hr' & Hsub & _).
    assert (fp' ## dom h) as Hnew by set_solver +Hsub Hd0 Hdom0.
    split.
    + intros ->. apply repr_root in Hr'.
      assert (l ∈ dom h) by (apply elem_of_dom; eauto).
      set_solver +Hr' Hnew H.
    + exists t', fp'. split_and!; [done| |done].
      by eapply ExpanderFacts.spec_expand_pure.
Qed.

End facts.

(** *** Examples on the instance *)

Lemma expand_assigns_children_only_witness :
  ∃ r h', demo_expand 5 (Some 3%positive) demo_store = Some (r, h') ∧
          h' !! 1%positive = Some (QueryStringQuery "rocq").
Proof.
  destruct (demo_expand 5 (Some 3%positive) demo_store) as [[r h']|] eqn:Hq;
    [|by vm_compute in Hq].
  exists r, h'. split; [done|].
  exact (proj1 (proj2 (proj2 (expand_assigns_children_only
           demo_parseQuerySyntax 5 _ _ _ _ Hq))) 1%positive "rocq" eq_refl).
Defined.

Lemma expand_fails_where_parser_fails_witness :
  ∃ text err l h',
    demo_parseQuerySyntax text = Err err ∧
    demo_expand 5 (Some 4%positive) demo_bad_store
      = Some (Err ("could not parse '" +:+ text +:+ "': " +:+ err), h') ∧
    h' !! l = Some (QueryStringQuery text).
Proof.
  destruct (demo_expand 5 (Some 4%positive) demo_bad_store)
    as [[[q'|e] h']|] eqn:Hq; [by vm_compute in Hq| |by vm_compute in Hq].
  destruct (expand_fails_where_parser_fails demo_parseQuerySyntax _ _ _ _ _ Hq)
    as (text & err & l & Hp & -> & Hl).
  by exists text, err, l, h'.
Defined.

Lemma expand_query_string_builds_anew_witness :
  ∃ q' h',
    demo_expand 5 (Some 1%positive) {[1%positive := QueryStringQuery "rocq"]}
      = Some (Ok q', h') ∧
    q' ≠ Some 1%positive ∧
    h' !! 1%positive = Some (QueryStringQuery "rocq").
Proof.
  destruct (demo_expand 5 (Some 1%positive)
              {[1%positive := QueryStringQuery "rocq"]})
    as [[[q'|e] h']|] eqn:Hq; [|by vm_compute in Hq..].
  destruct (expand_query_string_builds_anew demo_parseQuerySyntax 5
              {[1%positive := QueryStringQuery "rocq"]} 1%positive "rocq"
              (Ok q') h' (lookup_singleton_eq _ _) Hq) as [Hold Hnew].
  exists q', h'. split_and!; [done| |].
  - by destruct (Hnew q' eq_refl).
  - rewrite Hold; [apply lookup_singleton_eq|].
    apply elem_of_dom. rewrite lookup_singleton_eq. eauto.
Defined.
End StoreFacts.

(** * Properties of the expansion of trees *)

Module TreeFacts.

Import Expander.

Section facts.

Context {Fields Leaf : Type}.
Context (parseQuerySyntax : string → result (tree Fields Leaf)).

Local Abbreviation heap := (gmap loc (node Fields Leaf)).
Local Abbreviation expand := (expand parseQuerySyntax).
Local Abbreviation spec_expand := (spec_expand parseQuerySyntax).
Local Abbreviation expand_each := (expand_each parseQuerySyntax).

Implicit Types (h : heap) (q : Query) (t : tree Fields Leaf).
Implicit Types (fp : gset loc) (l : loc).

Ltac break H :=
  repeat match type of H with
         | ∃ _, _ => let x := fresh in destruct H as [x H]
         | _ ∧ _ => let H' := fresh in destruct H as [H' H]
         end.

(** *** Stores in which the query is a tree *)

Lemma settled_empty h : settled h ∅.
Proof. intros l x Hl. set_solver +Hl. Qed.

Lemma settled_union h X Y : settled h X → settled h Y → settled h (X ∪ Y).
Proof.
  intros HX HY l x Hl Hx. apply elem_of_union in Hl as [?|?]; eauto.
Qed.

Lemma settled_singleton h l (x : node Fields Leaf) :
  h !! l = Some x → allocated x = x → settled h {[l]}.
Proof.
  intros Hl Hx l' x' ->%elem_of_singleton Hl'. congruence.
Qed.

Lemma settled_agree h h' fp :
  settled h fp → (∀ l, l ∈ fp → h' !! l = h !! l) → settled h' fp.
Proof. intros Hs Hag l x Hl Hx. rewrite Hag in Hx by done. eauto. Qed.

Lemma settled_preserved h X h' fp :
  settled h fp → frame h X h' → fp ## X → fp ⊆ dom h → settled h' fp.
Proof.
  intros Hs [_ Hsame] Hdisj Hdom. apply (settled_agree h); [done|].
  intros l Hl. apply Hsame; [by apply Hdom|set_solver +Hl Hdisj].
Qed.

Lemma settled_alter h fp l (g : node Fields Leaf → node Fields Leaf) :
  settled h fp → l ∉ fp → settled (alter g l h) fp.
Proof.
  intros Hs Hl. apply (settled_agree h); [done|]. intros l' Hl'.
  apply lookup_alter_ne. set_solver +Hl Hl'.
Qed.

(** Where the slices are allocated, allocating them changes nothing. *)
Lemma settled_allocated_on h fp : settled h fp → allocated_on fp h = h.
Proof.
  intros Hs. apply map_eq. intros l. rewrite ExpanderFacts.lookup_allocated_on.
  destruct (h !! l) as [x|] eqn:Hl; [|done]. simpl.
  destruct (decide (l ∈ fp)); [|done]. f_equal. eauto.
Qed.

(** The expansion of a child followed by the assignment of a field of its
    parent [l]: the parent is the struct it was but for that field, the
    trees that share nothing with the child are as they were, and the
    result of the expansion is a tree of the store. *)
Lemma slot_step n h l t q f (g : node Fields Leaf → node Fields Leaf) r h1 h1' :
  l ∈ dom h → repr h t q f → l ∉ f →
  expand n q h = Some (r, h1) → h1' = alter g l h1 →
  h1' !! l = g <$> (h !! l) ∧
  frame h ({[l]} ∪ f) h1' ∧
  dom h ⊆ dom h1' ∧
  match r with
  | Ok q' =>
      ∃ t' f', spec_expand n t = Some (Ok t') ∧
               repr h1 t' q' f' ∧ repr h1' t' q' f' ∧
               f' ⊆ f ∪ (dom h1' ∖ dom h) ∧ f' ⊆ dom h1' ∧ (l ∉ f')
  | Err e => spec_expand n t = Some (Err e)
  end.
Proof.
  intros Hl Hr Hnot Hq ->.
  assert (frame h f h1) as Hfr.
  { destruct r as [q'|e].
    - by destruct (ExpanderFacts.expand_ok_inv _ _ _ _ _ _ _ _ Hr Hq)
        as (_ & _ & _ & _ & _ & ? & _).
    - by destruct (ExpanderFacts.expand_err_inv _ _ _ _ _ _ _ _ Hr Hq). }
  assert (dom (alter g l h1) = dom h1) as Hdom by apply dom_alter_L.
  split_and!.
  - rewrite lookup_alter_eq. f_equal. by apply (proj2 Hfr).
  - eapply ExpanderFacts.frame_trans;
      [exact Hfr|apply (ExpanderFacts.frame_alter _ {[l]}); set_solver +
      |set_solver +|set_solver +].
  - rewrite Hdom. apply (proj1 Hfr).
  - destruct r as [q'|e].
    + destruct (ExpanderFacts.expand_ok_inv _ _ _ _ _ _ _ _ Hr Hq)
        as (t' & f' & Hs & Hr' & Hsub & _).
      assert (l ∉ f') as Hnot' by set_solver +Hsub Hnot Hl.
      exists t', f'. rewrite Hdom.
      split_and!; [done|done| |done| |done].
      * by apply ExpanderFacts.repr_alter.
      * by apply (ExpanderFacts.repr_dom _ _ _ _ Hr').
    + by destruct (ExpanderFacts.expand_err_inv _ _ _ _ _ _ _ _ Hr Hq).
Qed.

(** The children of a list expanded one after the other, to the end or to
    the first failure: the trees that share nothing with them are as they
    were. *)
Lemma expandSlice_frame n h ts qs fp acc r h1 :
  repr_all (repr h) ts qs fp →
  expandSlice (expand n) qs acc h = Some (r, h1) → frame h fp h1.
Proof.
  intros Hall Hs.
  pose proof (ExpanderFacts.expandSlice_refines parseQuerySyntax n
                (ExpanderFacts.expand_refines parseQuerySyntax n)
                ts qs fp acc h Hall) as H.
  unfold refines_all in H. rewrite Hs in H.
  destruct (spec_expand_all _ ts) as [[ts'|e]|].
  - destruct H as (es' & h'' & fp' & Heq & _ & _ & Hfr & _). by simplify_eq.
  - destruct H as (h'' & Heq & Hfr). by simplify_eq.
  - done.
Qed.

Lemma expand_each_frame n h ts qs fp es h1 :
  repr_all (repr h) ts qs fp → expand_each n h qs es h1 → frame h fp h1.
Proof.
  intros Hall Heach. eapply expandSlice_frame; [done|].
  apply (ExpanderFacts.expandSlice_each _ _ _ _ [] _ _ Heach).
Qed.

(** A tree whose expansion fails is not the absent tree. *)
Lemma failing_not_nil n h t q fp e :
  repr h t q fp → spec_expand n t = Some (Err e) → q ≠ None ∧ t ≠ TNil.
Proof.
  intros Hr Hs. split.
  - intros ->. apply ExpanderFacts.repr_nil_inv in Hr as ->.
    by destruct n.
  - intros ->. by destruct n.
Qed.

Lemma expand_each_settled n :
  (∀ h t q fp q' h' t' fp',
     repr h t q fp → expand n q h = Some (Ok q', h') →
     repr h' t' q' fp' → settled h' fp') →
  ∀ ts qs fp h es h1 ts' fp',
    repr_all (repr h) ts qs fp → expand_each n h qs es h1 →
    repr_all (repr h1) ts' es fp' → settled h1 fp'.
Proof.
  intros IH. induction ts as [|t ts IHts];
    intros [|q qs] fp h es h1 ts' fp' Hall Heach Hr'; simpl in Hall;
    try done.
  { inversion Heach; subst. destruct ts'; simpl in Hr'; [|done].
    subst. apply settled_empty. }
  destruct Hall as (f1 & f2 & H1 & H2 & Hdisj & ->).
  inversion Heach as [|? ? ? e es0 hm ? Hq Heach0]; subst.
  destruct ts' as [|t0 ts0]; simpl in Hr'; [done|].
  destruct Hr' as (g1 & g2 & R1 & R2 & _ & ->).
  destruct (ExpanderFacts.expand_ok_inv _ _ _ _ _ _ _ _ H1 Hq)
    as (t1 & fp1 & _ & Hr1 & Hsub1 & Hfr1 & _).
  pose proof (IH _ _ _ _ _ _ _ _ H1 Hq Hr1) as Hs1.
  assert (repr_all (repr hm) ts qs f2) as H2m.
  { eapply ExpanderFacts.repr_all_preserved; [done..|]. by symmetry. }
  pose proof (expand_each_frame _ _ _ _ _ _ _ H2m Heach0) as Hfr2.
  pose proof (ExpanderFacts.repr_all_dom' _ _ _ _ H2) as Hf2.
  pose proof (ExpanderFacts.repr_dom _ _ _ _ Hr1) as Hd1.
  assert (fp1 ## f2) as Hd12 by set_solver +Hsub1 Hdisj Hf2.
  assert (repr h1 t1 e fp1) as Hr1'
    by by eapply ExpanderFacts.repr_preserved.
  destruct (ExpanderFacts.repr_inj _ _ _ _ _ _ R1 Hr1') as [-> ->].
  apply settled_union.
  - by eapply settled_preserved.
  - by eapply IHts.
Qed.

(** In the store a successful expansion leaves, the tree it returns has
    every slice of children allocated. *)
Lemma expand_settled n :
  ∀ h t q fp q' h' t' fp',
    repr h t q fp → expand n q h = Some (Ok q', h') →
    repr h' t' q' fp' → settled h' fp'.
Proof.
  induction n as [|n IH]; intros h t q fp q' h' t' fp' Hr Hq Hr'; [done|].
  destruct t as [|text|ts rest|ts rest|tm ts tn rest|v]; simpl in Hr.
  - destruct Hr as [-> ->]. simpl in Hq. simplify_eq.
    pose proof (ExpanderFacts.repr_nil_inv _ _ _ Hr') as ->.
    destruct Hr' as [_ ->]. apply settled_empty.
  - destruct Hr as (l & -> & Hl & ->).
    rewrite (ExpanderFacts.expand_query_string _ _ _ _ _ Hl) in Hq.
    destruct (parseQuerySyntax text) as [t0|e]; [|done].
    destruct (alloc t0 h) as [p h1] eqn:Hal. cbn [fst snd] in Hq.
    destruct (ExpanderFacts.alloc_spec t0 _ _ _ Hal) as (f0 & Hr0 & _).
    by eapply IH.
  - destruct Hr as (l & cs & f & -> & Hl & Hall & Hnot & ->).
    rewrite (ExpanderFacts.expand_conjunction _ _ _ _ _ _ Hl) in Hq.
    destruct (expandSlice _ _ _ _) as [[[children|e] h1]|] eqn:Hs;
      simplify_eq.
    destruct (ExpanderFacts.expandSlice_ok _ _ _ _ _ _ _ Hs)
      as (es & -> & Heach). cbn [app] in *.
    pose proof (expand_each_frame _ _ _ _ _ _ _ Hall Heach) as Hfr.
    assert (l ∈ dom h) as Hldom by (apply elem_of_dom; eauto).
    assert (set_Conjuncts l (Some es) h1 !! l
            = Some (ConjunctionQuery (Some es) rest)) as Hl1.
    { unfold set_Conjuncts. by rewrite lookup_alter_eq, (proj2 Hfr), Hl. }
    destruct t'; simpl in Hr'; break Hr'; simplify_eq.
    apply settled_union; [by eapply settled_singleton|].
    unfold set_Conjuncts. apply settled_alter; [|done].
    eapply (expand_each_settled n IH); [exact Hall|exact Heach|].
    eapply ExpanderFacts.repr_all_frame'; [done|].
    intros l' Hl'. unfold set_Conjuncts. symmetry.
    apply lookup_alter_ne. set_solver.
  - destruct Hr as (l & cs & f & -> & Hl & Hall & Hnot & ->).
    rewrite (ExpanderFacts.expand_disjunction _ _ _ _ _ _ Hl) in Hq.
    destruct (expandSlice _ _ _ _) as [[[children|e] h1]|] eqn:Hs;
      simplify_eq.
    destruct (ExpanderFacts.expandSlice_ok _ _ _ _ _ _ _ Hs)
      as (es & -> & Heach). cbn [app] in *.
    pose proof (expand_each_frame _ _ _ _ _ _ _ Hall Heach) as Hfr.
    assert (l ∈ dom h) as Hldom by (apply elem_of_dom; eauto).
    assert (set_Disjuncts l (Some es) h1 !! l
            = Some (DisjunctionQuery (Some es) rest)) as Hl1.
    { unfold set_Disjuncts. by rewrite lookup_alter_eq, (proj2 Hfr), Hl. }
    destruct t'; simpl in Hr'; break Hr'; simplify_eq.
    apply settled_union; [by eapply settled_singleton|].
    unfold set_Disjuncts. apply settled_alter; [|done].
    eapply (expand_each_settled n IH); [exact Hall|exact Heach|].
    eapply ExpanderFacts.repr_all_frame'; [done|].
    intros l' Hl'. unfold set_Disjuncts. symmetry.
    apply lookup_alter_ne. set_solver.
  - destruct Hr as (l & m & s & mn & f1 & f2 & f3 & -> & Hl & Hm & Hs & Hn
                    & D12 & D13 & D23 & Hnot & ->).
    rewrite (ExpanderFacts.expand_boolean _ _ _ _ _ _ _ _ Hl) in Hq.
    assert (l ∈ dom h) as Hldom by (apply elem_of_dom; eauto).
    pose proof (ExpanderFacts.repr_dom _ _ _ _ Hs) as Hf2.
    pose proof (ExpanderFacts.repr_dom _ _ _ _ Hn) as Hf3.
    (* must *)
    destruct (expand n m h) as [[[m'|e] h1]|] eqn:H1; [|done..].
    cbn zeta in Hq.
    destruct (slot_step n h l tm m f1 _ _ h1 (set_Must l m' h1) Hldom Hm
                ltac:(set_solver +Hnot) H1 eq_refl)
      as (Hl1 & Hfr1 & Hd1 & tm' & f1' & _ & Hr1 & Hr1' & Hsub1 & Hdom1 & Hn1).
    rewrite Hl in Hl1. simpl in Hl1.
    pose proof (IH _ _ _ _ _ _ _ _ Hm H1 Hr1) as S1.
    apply (settled_alter _ _ l
             (λ n, match n with
                   | BooleanQuery _ s mn rest => BooleanQuery m' s mn rest
                   | _ => n
                   end)) in S1; [|done].
    change (alter _ l h1) with (set_Must l m' h1) in S1.
    set (h1' := set_Must l m' h1) in *. clearbody h1'. clear Hr1 H1.
    assert (get_Should l h1' = s) as Hg1
      by (unfold get_Should; by rewrite Hl1).
    rewrite Hg1 in Hq. clear Hg1.
    assert (repr h1' ts s f2) as Hs1.
    { eapply ExpanderFacts.repr_preserved;
        [exact Hs|exact Hfr1|set_solver +D12 Hnot]. }
    assert (repr h1' tn mn f3) as Hn1'.
    { eapply ExpanderFacts.repr_preserved;
        [exact Hn|exact Hfr1|set_solver +D13 Hnot]. }
    assert (l ∈ dom h1') as Hldom1 by (apply elem_of_dom; eauto).
    (* should *)
    destruct (expand n s h1') as [[[s'|e] h2]|] eqn:H2; [|done..].
    cbn zeta in Hq.
    destruct (slot_step n h1' l ts s f2 _ _ h2 (set_Should l s' h2) Hldom1 Hs1
                ltac:(set_solver +Hnot) H2 eq_refl)
      as (Hl2 & Hfr2 & Hd2 & ts' & f2' & _ & Hr2 & Hr2' & Hsub2 & Hdom2 & Hn2).
    rewrite Hl1 in Hl2. simpl in Hl2.
    pose proof (IH _ _ _ _ _ _ _ _ Hs1 H2 Hr2) as S2.
    apply (settled_alter _ _ l
             (λ n, match n with
                   | BooleanQuery m _ mn rest => BooleanQuery m s' mn rest
                   | _ => n
                   end)) in S2; [|done].
    change (alter _ l h2) with (set_Should l s' h2) in S2.
    set (h2' := set_Should l s' h2) in *. clearbody h2'. clear Hr2 H2.
    assert (get_MustNot l h2' = mn) as Hg2
      by (unfold get_MustNot; by rewrite Hl2).
    rewrite Hg2 in Hq. clear Hg2.
    assert (f1' ## {[l]} ∪ f2) as E12 by set_solver +Hsub1 Hn1 D12 Hf2.
    assert (repr h2' tm' m' f1') as Hr1''
      by (eapply ExpanderFacts.repr_preserved; [exact Hr1'|exact Hfr2|exact E12]).
    assert (settled h2' f1') as S1'
      by (eapply settled_preserved; [exact S1|exact Hfr2|exact E12|exact Hdom1]).
    assert (repr h2' tn mn f3) as Hn2'.
    { eapply ExpanderFacts.repr_preserved;
        [exact Hn1'|exact Hfr2|set_solver +D23 Hnot]. }
    assert (l ∈ dom h2') as Hldom2 by (apply elem_of_dom; eauto).
    (* must_not *)
    destruct (expand n mn h2') as [[[mn'|e] h3]|] eqn:H3; [|done..].
    destruct (slot_step n h2' l tn mn f3 _ _ h3 (set_MustNot l mn' h3) Hldom2
                Hn2' ltac:(set_solver +Hnot) H3 eq_refl)
      as (Hl3 & Hfr3 & Hd3 & tn' & f3' & _ & Hr3 & Hr3' & Hsub3 & Hdom3 & Hn3).
    rewrite Hl2 in Hl3. simpl in Hl3.
    pose proof (IH _ _ _ _ _ _ _ _ Hn2' H3 Hr3) as S3.
    apply (settled_alter _ _ l
             (λ n, match n with
                   | BooleanQuery m s _ rest => BooleanQuery m s mn' rest
                   | _ => n
                   end)) in S3; [|done].
    change (alter _ l h3) with (set_MustNot l mn' h3) in S3.
    set (h3' := set_MustNot l mn' h3) in *. clearbody h3'. clear Hr3 H3.
    assert (f1' ## {[l]} ∪ f3) as E13 by set_solver +Hsub1 Hn1 D13 Hf3.
    assert (f2' ## {[l]} ∪ f3) as E23 by set_solver +Hsub2 Hn2 D23 Hf3 Hd1.
    assert (repr h3' tm' m' f1') as Q1
      by (eapply ExpanderFacts.repr_preserved; [exact Hr1''|exact Hfr3|exact E13]).
    assert (repr h3' ts' s' f2') as Q2
      by (eapply ExpanderFacts.repr_preserved; [exact Hr2'|exact Hfr3|exact E23]).
    assert (settled h3' f1') as T1.
    { eapply settled_preserved; [exact S1'|exact Hfr3|exact E13|].
      set_solver +Hdom1 Hd2. }
    assert (settled h3' f2') as T2
      by (eapply settled_preserved; [exact S2|exact Hfr3|exact E23|exact Hdom2]).
    simplify_eq.
    destruct t'; simpl in Hr'; break Hr'; simplify_eq.
    repeat match goal with
           | R : repr h' ?ta ?a ?ga, Q : repr h' ?tb ?a ?gb |- _ =>
               destruct (ExpanderFacts.repr_inj _ _ _ _ _ _ R Q) as [-> ->];
               clear R
           end.
    apply settled_union; [by eapply settled_singleton|].
    repeat apply settled_union; done.
  - destruct Hr as (l & -> & Hl & ->).
    rewrite ExpanderFacts.expand_other in Hq by by rewrite Hl.
    simplify_eq. destruct t'; simpl in Hr'; break Hr'; simplify_eq.
    by eapply settled_singleton.
Qed.

(** *** Fuel *)

Lemma expandSlice_mono n m :
  (∀ q h r, expand n q h = Some r → expand m q h = Some r) →
  ∀ qs acc h r,
    expandSlice (expand n) qs acc h = Some r →
    expandSlice (expand m) qs acc h = Some r.
Proof.
  intros IH. induction qs as [|q qs IHqs]; intros acc h r Hs; simpl in *.
  { done. }
  destruct (expand n q h) as [[[e|err] h1]|] eqn:Hq; [| |done];
    rewrite (IH _ _ _ Hq); [by apply IHqs|done].
Qed.

(** A run that returns returns the same with more fuel. *)
Lemma expand_mono n :
  ∀ m q h r, (n ≤ m)%nat → expand n q h = Some r → expand m q h = Some r.
Proof.
  induction n as [|n IH]; intros m q h r Hle Hq; [done|].
  destruct m as [|m]; [lia|]. assert (n ≤ m)%nat as Hle' by lia.
  destruct q as [l|]; [|done].
  destruct (h !! l) as [[text|cs rest|ds rest|mu s mn rest|v]|] eqn:Hl.
  - rewrite (ExpanderFacts.expand_query_string _ _ _ _ _ Hl) in Hq.
    rewrite (ExpanderFacts.expand_query_string _ _ _ _ _ Hl).
    destruct (parseQuerySyntax text); [by apply IH|done].
  - rewrite (ExpanderFacts.expand_conjunction _ _ _ _ _ _ Hl) in Hq.
    rewrite (ExpanderFacts.expand_conjunction _ _ _ _ _ _ Hl).
    destruct (expandSlice (expand n) _ _ _) as [r0|] eqn:Hs; [|done].
    by rewrite (expandSlice_mono n m (λ q h r, IH m q h r Hle') _ _ _ _ Hs).
  - rewrite (ExpanderFacts.expand_disjunction _ _ _ _ _ _ Hl) in Hq.
    rewrite (ExpanderFacts.expand_disjunction _ _ _ _ _ _ Hl).
    destruct (expandSlice (expand n) _ _ _) as [r0|] eqn:Hs; [|done].
    by rewrite (expandSlice_mono n m (λ q h r, IH m q h r Hle') _ _ _ _ Hs).
  - rewrite (ExpanderFacts.expand_boolean _ _ _ _ _ _ _ _ Hl) in Hq.
    rewrite (ExpanderFacts.expand_boolean _ _ _ _ _ _ _ _ Hl).
    destruct (expand n mu h) as [[[m'|e] h1]|] eqn:H1; [| |done];
      rewrite (IH _ _ _ _ Hle' H1); [|done]. cbn zeta in *.
    destruct (expand n _ (set_Must l m' h1)) as [[[s'|e] h2]|] eqn:H2;
      [| |done]; rewrite (IH _ _ _ _ Hle' H2); [|done]. cbn zeta in *.
    destruct (expand n _ (set_Should l s' h2)) as [[[mn'|e] h3]|] eqn:H3;
      [| |done]; by rewrite (IH _ _ _ _ Hle' H3).
  - rewrite ExpanderFacts.expand_other in Hq by by rewrite Hl.
    by rewrite ExpanderFacts.expand_other by by rewrite Hl.
  - rewrite ExpanderFacts.expand_other in Hq by by rewrite Hl.
    by rewrite ExpanderFacts.expand_other by by rewrite Hl.
Qed.

(** X13. The recursion of [expand] on the output of the parser has no
    guard but that output.  With a parser whose trees hold no query
    string, the expansion of a query that is a tree in the store returns:
    from some fuel on every fuel gives one and the same result and store.
    In any store a run that returns with some fuel returns the same with
    more.  But with a parser that answers a text with a query string of
    that text, the expansion of such a query string returns with no fuel
    at all. *)
Theorem expand_returns_when_parser_settles h :
  (∀ t q fp,
     (∀ text t0, parseQuerySyntax text = Ok t0 → pure t0 = true) →
     repr h t q fp →
     ∃ n0 r h', ∀ n, (n0 ≤ n)%nat → expand n q h = Some (r, h')) ∧
  (∀ n m q r, expand n q h = Some r → (n ≤ m)%nat → expand m q h = Some r) ∧
  (∀ text l n,
     parseQuerySyntax text = Ok (TQueryString text) →
     h !! l = Some (QueryStringQuery text) →
     expand n (Some l) h = None).
Proof.
  split_and!.
  - intros t q fp Hparse Hr.
    destruct (ExpanderFacts.expand_terminates _ _ _ _ _ Hparse Hr) as [n0 H0].
    destruct (H0 n0) as (r & h' & Hq); [done|].
    exists n0, r, h'. intros n Hn. by apply (expand_mono n0).
  - intros n m q r Hq Hle. by apply (expand_mono n).
  - intros text l n Hparse. revert h l.
    induction n as [|n IH]; intros h0 l Hl; [done|].
    rewrite (ExpanderFacts.expand_query_string _ _ _ _ _ Hl), Hparse.
    simpl. apply IH. apply lookup_insert_eq.
Qed.

(** *** What an expansion leaves of the store *)

(** X14. In a store in which the query is a tree, an expansion of that
    query, successful or not, assigns nothing outside it: the structs that
    are not of the tree are untouched, and a tree of the store that shares
    no struct with it is the tree it was.  On success the result is a tree
    of the store without query string, made of structs of the input tree
    and of structs that were not in the store; so it shares no struct with
    those other trees either. *)
Theorem expand_touches_own_tree_only n h t q fp r h' :
  repr h t q fp → expand n q h = Some (r, h') →
  dom h ⊆ dom h' ∧
  (∀ l, l ∈ dom h → l ∉ fp → h' !! l = h !! l) ∧
  (∀ t0 q0 fp0, repr h t0 q0 fp0 → fp0 ## fp → repr h' t0 q0 fp0) ∧
  (∀ q', r = Ok q' →
     ∃ t' fp', repr h' t' q' fp' ∧ pure t' = true ∧
               fp' ⊆ fp ∪ (dom h' ∖ dom h) ∧
               ∀ t0 q0 fp0, repr h t0 q0 fp0 → fp0 ## fp → fp0 ## fp').
Proof.
  intros Hr Hq.
  assert (frame h fp h') as Hfr.
  { destruct r as [q'|e].
    - by destruct (ExpanderFacts.expand_ok_inv _ _ _ _ _ _ _ _ Hr Hq)
        as (_ & _ & _ & _ & _ & ? & _).
    - by destruct (ExpanderFacts.expand_err_inv _ _ _ _ _ _ _ _ Hr Hq). }
  split_and!; [apply Hfr|apply Hfr| |].
  - intros t0 q0 fp0 Hr0 Hdisj. by eapply ExpanderFacts.repr_preserved.
  - intros q' ->.
    destruct (ExpanderFacts.expand_ok_inv _ _ _ _ _ _ _ _ Hr Hq)
      as (t' & fp' & Hs & Hr' & Hsub & _).
    exists t', fp'. split_and!; [done| |done|].
    + by eapply ExpanderFacts.spec_expand_pure.
    + intros t0 q0 fp0 Hr0 Hdisj.
      pose proof (ExpanderFacts.repr_dom _ _ _ _ Hr0) as Hd0.
      set_solver +Hsub Hdisj Hd0.
Qed.

(** X15. A failed expansion is not undone.  When the expansion of a slot
    of a boolean fails, the boolean is left with that slot nil, though it
    was not, the slots before it holding their expansions and the slots
    after it what they held: the child that failed is no longer a child,
    and the boolean no longer unfolds to the tree it was.  A conjunction or
    a disjunction one of whose children fails keeps the pointers it
    held. *)
Theorem expand_failure_is_not_undone n h l fp :
  (∀ tm ts tn rest e h',
     repr h (TBoolean tm ts tn rest) (Some l) fp →
     expand (S n) (Some l) h = Some (Err e, h') →
     (∃ m s mn m' s' mn',
        h !! l = Some (BooleanQuery m s mn rest) ∧
        h' !! l = Some (BooleanQuery m' s' mn' rest) ∧
        ((spec_expand n tm = Some (Err e) ∧
          m ≠ None ∧ m' = None ∧ s' = s ∧ mn' = mn) ∨
         (∃ tm' f1,
            spec_expand n tm = Some (Ok tm') ∧
            spec_expand n ts = Some (Err e) ∧ repr h' tm' m' f1 ∧
            s ≠ None ∧ s' = None ∧ mn' = mn) ∨
         (∃ tm' ts' f1 f2,
            spec_expand n tm = Some (Ok tm') ∧
            spec_expand n ts = Some (Ok ts') ∧
            spec_expand n tn = Some (Err e) ∧
            repr h' tm' m' f1 ∧ repr h' ts' s' f2 ∧
            mn ≠ None ∧ mn' = None))) ∧
     ∀ fp0, ¬ repr h' (TBoolean tm ts tn rest) (Some l) fp0) ∧
  (∀ ts rest e h',
     repr h (TConjunction ts rest) (Some l) fp →
     expand (S n) (Some l) h = Some (Err e, h') → h' !! l = h !! l) ∧
  (∀ ts rest e h',
     repr h (TDisjunction ts rest) (Some l) fp →
     expand (S n) (Some l) h = Some (Err e, h') → h' !! l = h !! l).
Proof.
  split_and!.
  - intros tm ts tn rest e h' Hr Hq. simpl in Hr.
    destruct Hr as (l0 & m & s & mn & f1 & f2 & f3 & [= <-] & Hl & Hm & Hs
                    & Hn & D12 & D13 & D23 & Hnot & ->).
    rewrite (ExpanderFacts.expand_boolean _ _ _ _ _ _ _ _ Hl) in Hq.
    assert (l ∈ dom h) as Hldom by (apply elem_of_dom; eauto).
    pose proof (ExpanderFacts.repr_dom _ _ _ _ Hs) as Hf2.
    pose proof (ExpanderFacts.repr_dom _ _ _ _ Hn) as Hf3.
    assert (∀ a b c,
              h' !! l = Some (BooleanQuery a b c rest) →
              (a = None ∧ tm ≠ TNil) ∨ (b = None ∧ ts ≠ TNil) ∨
              (c = None ∧ tn ≠ TNil) →
              ∀ fp0, ¬ repr h' (TBoolean tm ts tn rest) (Some l) fp0) as Hlost.
    { intros a b c Hl' Hnil fp0 Hr0. simpl in Hr0. break Hr0.
      simplify_eq.
      destruct Hnil as [[-> ?]|[[-> ?]|[-> ?]]];
        match goal with
        | R : repr h' ?t None _, N : ?t ≠ TNil |- _ =>
            by apply ExpanderFacts.repr_nil_inv in R
        end. }
    (* must *)
    destruct (expand n m h) as [[r1 h1]|] eqn:H1; [|done].
    destruct (slot_step n h l tm m f1 _ _ h1 (set_Must l (returned r1) h1)
                Hldom Hm ltac:(set_solver +Hnot) H1 eq_refl)
      as (Hl1 & Hfr1 & Hd1 & Hres1).
    rewrite Hl in Hl1. simpl in Hl1.
    destruct r1 as [m'|e1].
    2:{ simplify_eq. destruct (failing_not_nil _ _ _ _ _ _ Hm Hres1) as [??].
        split; [|eapply (Hlost _ _ _); [exact Hl1|by left]].
        exists m, s, mn, None, s, mn. split_and!; [done..|]. by left. }
    destruct Hres1 as (tm' & f1' & Hsp1 & _ & Hr1' & Hsub1 & Hdom1 & Hn1).
    cbn [returned] in *. cbn zeta in Hq.
    set (h1' := set_Must l m' h1) in *. clearbody h1'. clear H1.
    assert (get_Should l h1' = s) as Hg1
      by (unfold get_Should; by rewrite Hl1).
    rewrite Hg1 in Hq. clear Hg1.
    assert (repr h1' ts s f2) as Hs1.
    { eapply ExpanderFacts.repr_preserved;
        [exact Hs|exact Hfr1|set_solver +D12 Hnot]. }
    assert (repr h1' tn mn f3) as Hn1'.
    { eapply ExpanderFacts.repr_preserved;
        [exact Hn|exact Hfr1|set_solver +D13 Hnot]. }
    assert (l ∈ dom h1') as Hldom1 by (apply elem_of_dom; eauto).
    (* should *)
    destruct (expand n s h1') as [[r2 h2]|] eqn:H2; [|done].
    destruct (slot_step n h1' l ts s f2 _ _ h2 (set_Should l (returned r2) h2)
                Hldom1 Hs1 ltac:(set_solver +Hnot) H2 eq_refl)
      as (Hl2 & Hfr2 & Hd2 & Hres2).
    rewrite Hl1 in Hl2. simpl in Hl2.
    assert (f1' ## {[l]} ∪ f2) as E12 by set_solver +Hsub1 Hn1 D12 Hf2.
    destruct r2 as [s'|e2].
    2:{ simplify_eq. destruct (failing_not_nil _ _ _ _ _ _ Hs1 Hres2) as [??].
        split; [|eapply (Hlost _ _ _); [exact Hl2|right; by left]].
        exists m, s, mn, m', None, mn. split_and!; [done..|]. right. left.
        exists tm', f1'. split_and!; [done..| |done|done|done].
        eapply ExpanderFacts.repr_preserved; [exact Hr1'|exact Hfr2|exact E12]. }
    destruct Hres2 as (ts' & f2' & Hsp2 & _ & Hr2' & Hsub2 & Hdom2 & Hn2).
    cbn [returned] in *. cbn zeta in Hq.
    set (h2' := set_Should l s' h2) in *. clearbody h2'. clear H2.
    assert (get_MustNot l h2' = mn) as Hg2
      by (unfold get_MustNot; by rewrite Hl2).
    rewrite Hg2 in Hq. clear Hg2.
    assert (repr h2' tm' m' f1') as Hr1''
      by (eapply ExpanderFacts.repr_preserved; [exact Hr1'|exact Hfr2|exact E12]).
    assert (repr h2' tn mn f3) as Hn2'.
    { eapply ExpanderFacts.repr_preserved;
        [exact Hn1'|exact Hfr2|set_solver +D23 Hnot]. }
    assert (l ∈ dom h2') as Hldom2 by (apply elem_of_dom; eauto).
    (* must_not *)
    destruct (expand n mn h2') as [[r3 h3]|] eqn:H3; [|done].
    destruct (slot_step n h2' l tn mn f3 _ _ h3
                (set_MustNot l (returned r3) h3)
                Hldom2 Hn2' ltac:(set_solver +Hnot) H3 eq_refl)
      as (Hl3 & Hfr3 & Hd3 & Hres3).
    rewrite Hl2 in Hl3. simpl in Hl3.
    destruct r3 as [mn'|e3]; [done|]. simplify_eq.
    destruct (failing_not_nil _ _ _ _ _ _ Hn2' Hres3) as [??].
    assert (f1' ## {[l]} ∪ f3) as E13 by set_solver +Hsub1 Hn1 D13 Hf3.
    assert (f2' ## {[l]} ∪ f3) as E23 by set_solver +Hsub2 Hn2 D23 Hf3 Hd1.
    split; [|eapply (Hlost _ _ _); [exact Hl3|right; by right]].
    exists m, s, mn, m', s', None. split_and!; [done..|]. right. right.
    exists tm', ts', f1', f2'. split_and!; [done..| | |done|done].
    + eapply ExpanderFacts.repr_preserved; [exact Hr1''|exact Hfr3|exact E13].
    + eapply ExpanderFacts.repr_preserved; [exact Hr2'|exact Hfr3|exact E23].
  - intros ts rest e h' Hr Hq. simpl in Hr.
    destruct Hr as (l0 & cs & f & [= <-] & Hl & Hall & Hnot & ->).
    rewrite (ExpanderFacts.expand_conjunction _ _ _ _ _ _ Hl) in Hq.
    destruct (expandSlice _ _ _ _) as [[[children|e0] h1]|] eqn:Hs;
      simplify_eq.
    pose proof (expandSlice_frame _ _ _ _ _ _ _ _ Hall Hs) as Hfr.
    apply (proj2 Hfr); [|done]. apply elem_of_dom. eauto.
  - intros ts rest e h' Hr Hq. simpl in Hr.
    destruct Hr as (l0 & cs & f & [= <-] & Hl & Hall & Hnot & ->).
    rewrite (ExpanderFacts.expand_disjunction _ _ _ _ _ _ Hl) in Hq.
    destruct (expandSlice _ _ _ _) as [[[children|e0] h1]|] eqn:Hs;
      simplify_eq.
    pose proof (expandSlice_frame _ _ _ _ _ _ _ _ Hall Hs) as Hfr.
    apply (proj2 Hfr); [|done]. apply elem_of_dom. eauto.
Qed.

(** Expanding again what an expansion returned changes nothing. *)
Lemma expand_again n h t q fp q' h' :
  repr h t q fp → expand n q h = Some (Ok q', h') →
  ∃ t' fp',
    spec_expand n t = Some (Ok t') ∧ repr h' t' q' fp' ∧ settled h' fp' ∧
    ∀ k, (height t' ≤ k)%nat → expand k q' h' = Some (Ok q', h').
Proof.
  intros Hr Hq.
  destruct (ExpanderFacts.expand_ok_inv _ _ _ _ _ _ _ _ Hr Hq)
    as (t' & fp' & Hs & Hr' & _).
  pose proof (ExpanderFacts.spec_expand_pure _ _ _ _ Hs) as Hp.
  pose proof (expand_settled n _ _ _ _ _ _ _ _ Hr Hq Hr') as Hset.
  exists t', fp'. split_and!; [done..|].
  intros k Hk.
  rewrite (ExpanderFacts.expand_pure parseQuerySyntax k _ _ _ _ Hr' Hp Hk).
  do 2 f_equal. by apply settled_allocated_on.
Qed.

(** X16. What a successful expansion returns is a fixed point of the
    expansion: in the store the expansion left, it is a tree without query
    string in which every slice of children is allocated, and expanding it
    again, with the fuel its height asks for, returns the same pointer and
    changes nothing in the store, however often it is done.  This holds of
    every tree, with or without query strings; when the tree is a
    composite the pointer is the one that was given. *)
Theorem expand_twice n h t q fp q' h' :
  repr h t q fp → expand n q h = Some (Ok q', h') →
  ∃ t' fp',
    spec_expand n t = Some (Ok t') ∧
    repr h' t' q' fp' ∧ pure t' = true ∧ allocated_on fp' h' = h' ∧
    (∀ k, (height t' ≤ k)%nat →
       expand k q' h' = Some (Ok q', h') ∧
       ∀ j, Nat.iter j (λ r, match r with
                             | Some (Ok p, h0) => expand k p h0
                             | _ => r
                             end) (Some (Ok q', h')) = Some (Ok q', h')) ∧
    (composite t = true → q' = q).
Proof.
  intros Hr Hq.
  destruct (expand_again _ _ _ _ _ _ _ Hr Hq)
    as (t' & fp' & Hs & Hr' & Hset & Hfix).
  exists t', fp'. split_and!; [done|done| | | |].
  - by eapply ExpanderFacts.spec_expand_pure.
  - by apply settled_allocated_on.
  - intros k Hk. split; [by apply Hfix|].
    induction j as [|j IHj]; [done|]. simpl. rewrite IHj. by apply Hfix.
  - by destruct (ExpanderFacts.expand_ok_inv _ _ _ _ _ _ _ _ Hr Hq)
      as (_ & _ & _ & _ & _ & _ & ? & _).
Qed.

End facts.

(** *** Examples on the instance *)

Lemma expand_touches_own_tree_only_witness :
  ∃ r h',
    demo_expand 5 (Some 3%positive)
      (<[9%positive:=OtherQuery "bystander"]> demo_store) = Some (r, h') ∧
    h' !! 9%positive = Some (OtherQuery "bystander").
Proof.
  destruct (ExpanderFacts.alloc_repr demo_tree ∅) as [fp Hr].
  change (repr demo_store demo_tree (Some 3%positive) fp) in Hr.
  pose proof (ExpanderFacts.repr_dom _ _ _ _ Hr) as Hdom.
  assert (9%positive ∉ dom demo_store) as Hout
    by (apply not_elem_of_dom; reflexivity).
  assert (repr (<[9%positive:=OtherQuery "bystander"]> demo_store) demo_tree
            (Some 3%positive) fp) as Hr9.
  { apply (ExpanderFacts.repr_frame demo_store); [done|].
    intros l Hl. apply lookup_insert_ne. intros <-. by apply Hout, Hdom. }
  destruct (demo_expand 5 (Some 3%positive)
              (<[9%positive:=OtherQuery "bystander"]> demo_store))
    as [[r h']|] eqn:Hq; [|by vm_compute in Hq].
  exists r, h'. split; [done|].
  rewrite (proj1 (proj2 (expand_touches_own_tree_only demo_parseQuerySyntax
             5 _ _ _ _ _ _ Hr9 Hq)) 9%positive).
  - apply lookup_insert_eq.
  - apply elem_of_dom. rewrite lookup_insert_eq. eauto.
  - intros Hin. by apply Hout, Hdom.
Defined.

Lemma expand_failure_is_not_undone_witness :
  ∃ h', demo_expand 5 (Some 3%positive) demo_lost_store
          = Some (Err "could not parse '': syntax error: empty query", h') ∧
        ∀ fp0, ¬ repr h' demo_lost_tree (Some 3%positive) fp0.
Proof.
  destruct (ExpanderFacts.alloc_repr demo_lost_tree ∅) as [fp Hr].
  change (repr demo_lost_store demo_lost_tree (Some 3%positive) fp) in Hr.
  destruct (demo_expand 5 (Some 3%positive) demo_lost_store)
    as [[[q'|e] h']|] eqn:Hq; [by vm_compute in Hq| |by vm_compute in Hq].
  exists h'. split.
  - pose proof Hq as Hq'. vm_compute in Hq'. injection Hq' as <- _.
    reflexivity.
  - exact (proj2 (proj1 (expand_failure_is_not_undone demo_parseQuerySyntax 4
             demo_lost_store 3%positive fp) _ _ _ _ _ _ Hr Hq)).
Defined.

Lemma expand_twice_witness :
  ∃ h', demo_expand 5 (Some 3%positive) demo_store
          = Some (Ok (Some 3%positive), h') ∧
        demo_expand 5 (Some 3%positive) h' = Some (Ok (Some 3%positive), h').
Proof.
  destruct (ExpanderFacts.alloc_repr demo_tree ∅) as [fp Hr].
  change (repr demo_store demo_tree (Some 3%positive) fp) in Hr.
  destruct (demo_expand 5 (Some 3%positive) demo_store)
    as [[[q'|e] h']|] eqn:Hq; [|by vm_compute in Hq..].
  destruct (expand_twice demo_parseQuerySyntax 5 _ _ _ _ _ _ Hr Hq)
    as (t' & fp' & Hs & _ & _ & _ & Hfix & Hroot).
  rewrite (Hroot eq_refl) in *. exists h'. split; [done|].
  apply Hfix. vm_compute in Hs. injection Hs as <-. vm_compute. lia.
Defined.

Lemma expand_returns_when_parser_settles_witness :
  ∃ r h', ∀ n, (5 ≤ n)%nat →
    demo_expand n (Some 3%positive) demo_store = Some (r, h').
Proof.
  destruct (ExpanderFacts.alloc_repr demo_tree ∅) as [fp Hr].
  change (repr demo_store demo_tree (Some 3%positive) fp) in Hr.
  destruct (demo_expand 5 (Some 3%positive) demo_store) as [[r h']|] eqn:Hq;
    [|by vm_compute in Hq].
  exists r, h'. intros n Hn.
  exact (proj1 (proj2 (expand_returns_when_parser_settles
           demo_parseQuerySyntax demo_store)) 5 n _ _ Hq Hn).
Defined.

End TreeFacts.

(** * Properties of the debug dump *)

Module DumperFacts.

Import Expander Dumper.

Section facts.

Context {Fields Leaf IndexMapping : Type}.
Context (parseQuerySyntax : string → result (tree Fields Leaf)).
Context (MarshalIndent :
  gmap loc (node Fields Leaf) → Query → string → string → string * option string).

Local Abbreviation heap := (gmap loc (node Fields Leaf)).
Local Abbreviation expandQuery :=
  (expandQuery (IndexMapping:=IndexMapping) parseQuerySyntax).
Local Abbreviation DumpQuery :=
  (DumpQuery (IndexMapping:=IndexMapping) parseQuerySyntax MarshalIndent).
Local Abbreviation spec_expand := (spec_expand parseQuerySyntax).

Implicit Types (h : heap) (q : Query) (t : tree Fields Leaf).

(** X17. [DumpQuery] is the marshalling, with no prefix and an indent of
    two spaces, of what [expandQuery] returns, in the store it leaves: the
    dump expands the query it is given in place.  When the expansion
    succeeds, dumping what it returned, and the query itself when it is a
    composite, gives the same text and the same error again, and leaves
    the store as the first dump left it.  When the expansion fails the text
    is empty and the error that of the expansion, the store being left as
    the failed expansion left it; the structs outside the tree are
    untouched. *)
Theorem DumpQuery_repeatable (m : IndexMapping) n h t q fp :
  repr h t q fp →
  (∀ q' h', expandQuery m n q h = Some (Ok q', h') →
     DumpQuery m n q h = Some (MarshalIndent h' q' "" "  ", h') ∧
     ∃ t', spec_expand n t = Some (Ok t') ∧
       ∀ k, (height t' ≤ k)%nat →
         DumpQuery m k q' h' = DumpQuery m n q h ∧
         (composite t = true → DumpQuery m k q h' = DumpQuery m n q h)) ∧
  (∀ e h', expandQuery m n q h = Some (Err e, h') →
     DumpQuery m n q h = Some (("", Some e), h') ∧ frame h fp h') ∧
  (expandQuery m n q h = None → DumpQuery m n q h = None).
Proof.
  intros Hr.
  assert (∀ k q0 h0 q1 h1, expandQuery m k q0 h0 = Some (Ok q1, h1) →
            DumpQuery m k q0 h0 = Some (MarshalIndent h1 q1 "" "  ", h1))
    as Hdump.
  { intros k q0 h0 q1 h1 Hq. unfold Dumper.DumpQuery. rewrite Hq.
    by destruct (MarshalIndent h1 q1 "" "  "). }
  split_and!.
  - intros q' h' Hq. split; [by apply Hdump|].
    destruct (TreeFacts.expand_again _ _ _ _ _ _ _ _ Hr Hq)
      as (t' & fp' & Hs & _ & _ & Hfix).
    exists t'. split; [done|]. intros k Hk.
    rewrite (Hdump _ _ _ _ _ Hq). split.
    + apply Hdump. by apply Hfix.
    + intros Hc.
      destruct (ExpanderFacts.expand_ok_inv _ _ _ _ _ _ _ _ Hr Hq)
        as (_ & _ & _ & _ & _ & _ & Hroot & _).
      rewrite <-(Hroot Hc) at 1. apply Hdump. by apply Hfix.
  - intros e h' Hq. split.
    + unfold Dumper.DumpQuery. by rewrite Hq.
    + by destruct (ExpanderFacts.expand_err_inv _ _ _ _ _ _ _ _ Hr Hq).
  - intros Hq. unfold Dumper.DumpQuery. by rewrite Hq.
Qed.

End facts.

(** *** Examples on the instance *)

Lemma DumpQuery_repeatable_witness :
  ∃ out h',
    demo_DumpQuery 5 (Some 3%positive) demo_store = Some (out, h') ∧
    demo_DumpQuery 5 (Some 3%positive) h' = Some (out, h') ∧
    h' ≠ demo_store.
Proof.
  destruct (ExpanderFacts.alloc_repr demo_tree ∅) as [fp Hr].
  change (repr demo_store demo_tree (Some 3%positive) fp) in Hr.
  destruct (demo_expand 5 (Some 3%positive) demo_store)
    as [[[q'|e] h']|] eqn:Hq; [|by vm_compute in Hq..].
  destruct (proj1 (DumpQuery_repeatable demo_parseQuerySyntax
              demo_MarshalIndent tt 5 _ _ _ _ Hr) q' h' Hq)
    as (Hout & t' & Hs & Hfix).
  assert (q' = Some 3%positive) as ->.
  { pose proof Hq as Hq'. vm_compute in Hq'. by injection Hq' as <- _. }
  exists (demo_MarshalIndent h' (Some 3%positive) "" "  "), h'.
  split_and!; [exact Hout| |].
  - etransitivity; [|exact Hout]. apply Hfix; [|done].
    vm_compute in Hs. injection Hs as <-. vm_compute. lia.
  - intros ->. vm_compute in Hq. discriminate Hq.
Defined.

End DumperFacts.
